(** * Koota core: BitSet, QueryEntitySet, query matching, entity destruction

  A shallow embedding of the TypeScript sources of the koota core
  (bitset, query-entity-set.ts, check-query.ts, entity.ts and the entity
  mask growth helper) together with the properties stated about them.

  JavaScript numbers are modelled as [Z] (only integral values occur in
  the modelled code); the 32-bit coercions of the bitwise operators are
  written out.  A [Uint32Array] is a [list Z] of words in [0, 2^32):
  reading out of range yields [undefined] ([None]), writing out of range
  is ignored, and every store coerces with [ToUint32]. *)

From stdpp Require Import base option list numbers sorting gmap strings.
From Stdlib Require Import ZArith Lia.

Local Open Scope Z_scope.

(** ** JavaScript 32-bit integer operators *)

Module JS.

(** ToInt32 / ToUint32 of ECMA-262, on integral numbers. *)
Definition ToInt32 (z : Z) : Z := (z + 2 ^ 31) mod 2 ^ 32 - 2 ^ 31.
Definition ToUint32 (z : Z) : Z := z mod 2 ^ 32.

(** [a & b], [a | b], [~a], [a << k], [a >>> k]. *)
Definition and (a b : Z) : Z := Z.land (ToInt32 a) (ToInt32 b).
Definition or (a b : Z) : Z := Z.lor (ToInt32 a) (ToInt32 b).
Definition not (a : Z) : Z := Z.lnot (ToInt32 a).
Definition shl (a k : Z) : Z := ToInt32 (Z.shiftl (ToInt32 a) (ToUint32 k mod 32)).
Definition ushr (a k : Z) : Z := Z.shiftr (ToUint32 a) (ToUint32 k mod 32).

(** A value read from an array: a number or [undefined].  The bitwise
    operators coerce [undefined] to 0. *)
Definition num (v : option Z) : Z := default 0 v.

(** Truthiness of a number (NaN does not occur): non-zero. *)
Definition truthy (a : Z) : bool := negb (a =? 0).

(** [Math.clz32]: leading zero bits of the ToUint32 image. *)
Definition clz32 (x : Z) : Z :=
  let u := ToUint32 x in if u =? 0 then 32 else 31 - Z.log2 u.

(** Array indexing [arr[i]] by a number. *)
Definition get {A} (arr : list A) (i : Z) : option A :=
  if i <? 0 then None else arr !! Z.to_nat i.

(** Typed-array store [arr[i] = v]: coerced, dropped when out of range. *)
Definition set32 (arr : list Z) (i : Z) (v : Z) : list Z :=
  if i <? 0 then arr else <[Z.to_nat i := ToUint32 v]> arr.

(** [new Uint32Array(n)] followed by [.set(old)]: [None] is the
    RangeError raised when [old] does not fit. *)
Definition alloc_copy (n : Z) (old : list Z) : option (list Z) :=
  if Z.of_nat (length old) <=? n
  then Some (old ++ replicate (Z.to_nat n - length old)%nat 0)
  else None.



End JS.


(** ** Loop combinators shared by the translated functions *)

(** [while (cond(n)) n *= 2], the capacity-doubling loop of every growth
    routine.  [None] means the loop did not finish within [fuel] rounds;
    with a capacity of 0 the source loop never finishes. *)
Fixpoint double_while (fuel : nat) (cond : Z -> bool) (n : Z) : option Z :=
  if cond n then
    match fuel with
    | O => None
    | S fuel' => double_while fuel' cond (n * 2)
    end
  else Some n.

(** [for (let i = start; i < start + n; i++) body(i)], collecting the
    visitor calls made by each round. *)
Fixpoint for_range (n : nat) (i : Z) (body : Z -> option (list Z)) : option (list Z) :=
  match n with
  | O => Some []
  | S n' => out ← body i; rest ← for_range n' (i + 1) body; Some (out ++ rest)
  end.

(** ** The two-level BitSet (src/unnamed/part_001) *)

(** [tzcnt32]: index of the lowest set bit, 32 for 0. *)
Definition tzcnt32 (v : Z) : Z :=
  if v =? 0 then 32 else 31 - JS.clz32 (JS.and v (- v)).


(** The bit-extraction loop
    [while (bits !== 0) { b = tzcnt32(bits); bits &= bits - 1; body(b) }].
    A word has at most 32 bits, so the callers run it with fuel 32. *)
Fixpoint scan (fuel : nat) (bits : Z) (body : Z -> option (list Z)) : option (list Z) :=
  if bits =? 0 then Some []
  else
    match fuel with
    | O => None
    | S fuel' =>
        let b := tzcnt32 bits in
        let bits' := JS.and bits (bits - 1) in
        out ← body b; rest ← scan fuel' bits' body; Some (out ++ rest)
    end.

(** [let bottomBits = v; while (bottomBits !== 0) { ...; fn((bottomIdx << 5) | bottomBit) }]
    for a value [v] that may be [undefined]: [undefined !== 0] holds,
    [tzcnt32(undefined)] is [31 - clz32(0) = -1], and the next
    [bottomBits &= bottomBits - 1] leaves 0. *)
Definition scan_bottom (bottomIdx : Z) (v : option Z) : option (list Z) :=
  match v with
  | None => Some [JS.or (JS.shl bottomIdx 5) (-1)]
  | Some bottomBits =>
      scan 32 bottomBits (fun bottomBit => Some [JS.or (JS.shl bottomIdx 5) bottomBit])
  end.

(** The loop nest common to [forEach], [bitSetAnd], [bitSetAndMany] and
    [bitSetAndNot]: they differ in the top word and the bottom word only. *)
Definition walk (topLen : nat) (topBitsAt : Z -> Z) (bottomBitsAt : Z -> option Z)
  : option (list Z) :=
  for_range topLen 0 (fun ti =>
    scan 32 (topBitsAt ti) (fun topBit =>
      let bottomIdx := JS.or (JS.shl ti 5) topBit in
      scan_bottom bottomIdx (bottomBitsAt bottomIdx))).

(** The bit-extraction loop whose body may [return] from the enclosing
    function: [Some true] as soon as [stop] holds of an extracted bit
    index, [Some false] when the word is exhausted. *)
Fixpoint scan_until (fuel : nat) (bits : Z) (stop : Z -> bool) : option bool :=
  if bits =? 0 then Some false
  else
    match fuel with
    | O => None
    | S fuel' =>
        let b := tzcnt32 bits in
        let bits' := JS.and bits (bits - 1) in
        if stop b then Some true else scan_until fuel' bits' stop
    end.

(** [for (let i = start; i < start + n; i++) body(i)] left by a [return]
    in the body: [Some true] when some round returned. *)
Fixpoint for_until (n : nat) (i : Z) (body : Z -> option bool) : option bool :=
  match n with
  | O => Some false
  | S n' =>
      match body i with
      | Some true => Some true
      | Some false => for_until n' (i + 1) body
      | None => None
      end
  end.

Module BitSet.

Record t := mk {
  bottom : list Z;
  top : list Z;
  count : Z;
  capacity : Z
}.

Definition INITIAL_CAPACITY : Z := 1024.

(** [constructor(capacity)] *)
Definition new (capacity : Z) : t :=
  let bottomWords := JS.ushr (capacity + 31) 5 in
  let topWords := JS.ushr (bottomWords + 31) 5 in
  {| bottom := replicate (Z.to_nat bottomWords) 0;
     top := replicate (Z.to_nat topWords) 0;
     count := 0;
     capacity := capacity |}.

Definition has (s : t) (key : Z) : bool :=
  if key >=? capacity s then false
  else negb (JS.and (JS.num (JS.get (bottom s) (JS.ushr key 5))) (JS.shl 1 (JS.and key 31)) =? 0).

(** [grow(minCapacity)]; [None] when the doubling loop does not finish or
    a copy raises RangeError. *)
Definition grow (s : t) (minCapacity : Z) : option t :=
  newCapacity ← double_while (Z.to_nat minCapacity) (fun n => n <? minCapacity) (capacity s);
  let newBottomWords := JS.ushr (newCapacity + 31) 5 in
  let newTopWords := JS.ushr (newBottomWords + 31) 5 in
  newBottom ← JS.alloc_copy newBottomWords (bottom s);
  newTop ← JS.alloc_copy newTopWords (top s);
  Some {| bottom := newBottom; top := newTop; count := count s; capacity := newCapacity |}.

Definition add (s : t) (key : Z) : option (bool * t) :=
  s ← (if key >=? capacity s then grow s (key + 1) else Some s);
  let wordIdx := JS.ushr key 5 in
  let bit := JS.shl 1 (JS.and key 31) in
  if JS.truthy (JS.and (JS.num (JS.get (bottom s) wordIdx)) bit) then Some (false, s)
  else
    let bottom1 := JS.set32 (bottom s) wordIdx (JS.or (JS.num (JS.get (bottom s) wordIdx)) bit) in
    let topIdx := JS.ushr wordIdx 5 in
    let top1 :=
      JS.set32 (top s) topIdx (JS.or (JS.num (JS.get (top s) topIdx)) (JS.shl 1 (JS.and wordIdx 31))) in
    Some (true, {| bottom := bottom1; top := top1; count := count s + 1; capacity := capacity s |}).

Definition remove (s : t) (key : Z) : bool * t :=
  if key >=? capacity s then (false, s)
  else
    let wordIdx := JS.ushr key 5 in
    let bit := JS.shl 1 (JS.and key 31) in
    if negb (JS.truthy (JS.and (JS.num (JS.get (bottom s) wordIdx)) bit)) then (false, s)
    else
      let bottom1 := JS.set32 (bottom s) wordIdx (JS.and (JS.num (JS.get (bottom s) wordIdx)) (JS.not bit)) in
      let topIdx := JS.ushr wordIdx 5 in
      let top1 :=
        if bool_decide (JS.get bottom1 wordIdx = Some 0)
        then JS.set32 (top s) topIdx
               (JS.and (JS.num (JS.get (top s) topIdx)) (JS.not (JS.shl 1 (JS.and wordIdx 31))))
        else top s in
      (true, {| bottom := bottom1; top := top1; count := count s - 1; capacity := capacity s |}).

Definition clear (s : t) : t :=
  {| bottom := replicate (length (bottom s)) 0;
     top := replicate (length (top s)) 0;
     count := 0;
     capacity := capacity s |}.

(** [forEach(fn)]: the keys passed to [fn], in call order. *)
Definition forEach (s : t) : option (list Z) :=
  walk (length (top s))
    (fun ti => JS.num (JS.get (top s) ti))
    (fun bottomIdx => JS.get (bottom s) bottomIdx).

Definition toArray (s : t) : option (list Z) := forEach s.

(** The argument [out: number[] | Uint32Array] of [toArrayInto].  A
    [number[]] is its integer-keyed properties and its [length]; a store at
    an array index (0 .. 2^32 - 2) extends the length, a store at another
    integer only sets the property. *)
Inductive OutBuffer :=
| NumberArray (elems : gmap Z Z) (len : Z)
| Uint32Array (words : list Z).

(** [out[i]] *)
Definition out_get (out : OutBuffer) (i : Z) : option Z :=
  match out with
  | NumberArray elems _ => elems !! i
  | Uint32Array words => JS.get words i
  end.

(** [out[i] = key] *)
Definition out_set (out : OutBuffer) (i key : Z) : OutBuffer :=
  match out with
  | NumberArray elems len =>
      NumberArray (<[i := key]> elems)
                  (if (0 <=? i) && (i <? 2 ^ 32 - 1) then Z.max len (i + 1) else len)
  | Uint32Array words => Uint32Array (JS.set32 words i key)
  end.

(** [out.length] *)
Definition out_length (out : OutBuffer) : Z :=
  match out with
  | NumberArray _ len => len
  | Uint32Array words => Z.of_nat (length words)
  end.

(** [toArrayInto(out, offset)]: the buffer after the visit and the number
    returned. *)
Definition toArrayInto (s : t) (out : OutBuffer) (offset : Z) : option (OutBuffer * Z) :=
  keys ← forEach s;
  let st := foldl (fun (st : OutBuffer * Z) key => (out_set st.1 st.2 key, st.2 + 1))
                  (out, offset) keys in
  Some (st.1, st.2 - offset).

End BitSet.

Definition bitSetAnd (a b : BitSet.t) : option (list Z) :=
  let topLen := Nat.min (length (BitSet.top a)) (length (BitSet.top b)) in
  walk topLen
    (fun ti => JS.and (JS.num (JS.get (BitSet.top a) ti)) (JS.num (JS.get (BitSet.top b) ti)))
    (fun bottomIdx =>
       Some (JS.and (JS.num (JS.get (BitSet.bottom a) bottomIdx))
                    (JS.num (JS.get (BitSet.bottom b) bottomIdx)))).

(** [x = sets[0].f[i]; for (s = 1; s < sets.length; s++) x &= sets[s].f[i]] *)
Definition and_all (f : BitSet.t -> list Z) (first : BitSet.t) (rest : list BitSet.t) (i : Z) : Z :=
  foldl (fun acc s => JS.and acc (JS.num (JS.get (f s) i))) (JS.num (JS.get (f first) i)) rest.

Definition bitSetAndMany (sets : list BitSet.t) : option (list Z) :=
  match sets with
  | [] => Some []
  | [s0] => BitSet.forEach s0
  | [s0; s1] => bitSetAnd s0 s1
  | s0 :: rest =>
      let topLen := foldr Nat.min (length (BitSet.top s0)) ((fun s => length (BitSet.top s)) <$> rest) in
      walk topLen
        (fun ti => and_all BitSet.top s0 rest ti)
        (fun bottomIdx => Some (and_all BitSet.bottom s0 rest bottomIdx))
  end.

Definition bitSetAndNot (a b : BitSet.t) : option (list Z) :=
  walk (length (BitSet.top a))
    (fun ti => JS.num (JS.get (BitSet.top a) ti))
    (fun bottomIdx =>
       let bBottom :=
         if bottomIdx <? Z.of_nat (length (BitSet.bottom b))
         then JS.num (JS.get (BitSet.bottom b) bottomIdx) else 0 in
       Some (JS.and (JS.num (JS.get (BitSet.bottom a) bottomIdx)) (JS.not bBottom))).

Definition bitSetAndAny (a b : BitSet.t) : option bool :=
  let topLen := Nat.min (length (BitSet.top a)) (length (BitSet.top b)) in
  for_until topLen 0 (fun ti =>
    scan_until 32 (JS.and (JS.num (JS.get (BitSet.top a) ti)) (JS.num (JS.get (BitSet.top b) ti)))
      (fun topBit =>
         let bottomIdx := JS.or (JS.shl ti 5) topBit in
         negb (JS.and (JS.num (JS.get (BitSet.bottom a) bottomIdx))
                      (JS.num (JS.get (BitSet.bottom b) bottomIdx)) =? 0))).

(** [(aWord & bWord) !== aWord] compares the signed 32-bit result of [&]
    with the element read from the [Uint32Array]. *)
Definition bitSetIsSubset (a b : BitSet.t) : option bool :=
  returned ← for_until (length (BitSet.top a)) 0 (fun ti =>
    scan_until 32 (JS.num (JS.get (BitSet.top a) ti))
      (fun topBit =>
         let bottomIdx := JS.or (JS.shl ti 5) topBit in
         let aWord := JS.get (BitSet.bottom a) bottomIdx in
         let bWord :=
           if bottomIdx <? Z.of_nat (length (BitSet.bottom b))
           then JS.num (JS.get (BitSet.bottom b) bottomIdx) else 0 in
         negb (bool_decide (Some (JS.and (JS.num aWord) bWord) = aWord))));
  Some (negb returned).

(** ** Entity mask table growth (src/unnamed/part_000) *)

(** [None]: [masks[generationId]] is [undefined] (TypeError on [.length]),
    or the doubling loop does not finish (row of length 0). *)
Definition ensureEntityMaskSize (masks : list (list Z)) (generationId eid : Z)
  : option (list (list Z)) :=
  arr ← JS.get masks generationId;
  if eid <? Z.of_nat (length arr) then Some masks
  else
    newLen ← double_while (Z.to_nat (eid + 1)) (fun n => n <=? eid) (Z.of_nat (length arr));
    grown ← JS.alloc_copy newLen arr;
    Some (<[Z.to_nat generationId := grown]> masks).

(** ** QueryEntitySet (src/packages/core/src/utils/query-entity-set.ts) *)

Module QueryEntitySet.

(** The JS arrays [_dense] and [_sparse] are maps from index to value:
    reading a missing index yields [undefined] ([None]), writing extends. *)
Record t := mk {
  bottom : list Z;
  capacity : Z;
  _dense : gmap Z Z;
  _sparse : gmap Z Z;
  _cursor : Z
}.

Definition INITIAL_CAPACITY : Z := 1024.

(** [constructor(capacity)] *)
Definition new (capacity : Z) : t :=
  let words := JS.ushr (capacity + 31) 5 in
  {| bottom := replicate (Z.to_nat words) 0;
     capacity := capacity;
     _dense := ∅;
     _sparse := ∅;
     _cursor := 0 |}.

Definition size (s : t) : Z := _cursor s.

Definition grow (s : t) (minCapacity : Z) : option t :=
  newCapacity ← double_while (Z.to_nat minCapacity) (fun n => n <? minCapacity) (capacity s);
  let newWords := JS.ushr (newCapacity + 31) 5 in
  newBottom ← JS.alloc_copy newWords (bottom s);
  Some {| bottom := newBottom; capacity := newCapacity;
          _dense := _dense s; _sparse := _sparse s; _cursor := _cursor s |}.

Section WithEntityId.

(** [getEntityId] (entity/utils/pack-entity, not among the sources): the
    slot index packed in an entity handle. *)
Variable getEntityId : Z -> Z.

(** [this._dense[this._sparse[eid]]] *)
Definition stored (s : t) (eid : Z) : option Z :=
  idx ← _sparse s !! eid; _dense s !! idx.

Definition has (s : t) (entity : Z) : bool :=
  let eid := getEntityId entity in
  if eid >=? capacity s then false
  else if JS.and (JS.num (JS.get (bottom s) (JS.ushr eid 5))) (JS.shl 1 (JS.and eid 31)) =? 0
  then false
  else bool_decide (stored s eid = Some entity).

(** [add(entity)].  [None]: growth does not finish or fails, or the bit is
    set while [_sparse[eid]] is [undefined] (the code then reads and writes
    the array property named "undefined", which the maps do not model). *)
Definition add (s : t) (entity : Z) : option t :=
  let eid := getEntityId entity in
  s ← (if eid >=? capacity s then grow s (eid + 1) else Some s);
  let wordIdx := JS.ushr eid 5 in
  let bit := JS.shl 1 (JS.and eid 31) in
  if JS.truthy (JS.and (JS.num (JS.get (bottom s) wordIdx)) bit) then
    existingIdx ← _sparse s !! eid;
    if bool_decide (_dense s !! existingIdx = Some entity) then Some s
    else Some {| bottom := bottom s; capacity := capacity s;
                 _dense := <[existingIdx := entity]> (_dense s);
                 _sparse := _sparse s; _cursor := _cursor s |}
  else
    Some {| bottom := JS.set32 (bottom s) wordIdx (JS.or (JS.num (JS.get (bottom s) wordIdx)) bit);
            capacity := capacity s;
            _dense := <[_cursor s := entity]> (_dense s);
            _sparse := <[eid := _cursor s]> (_sparse s);
            _cursor := _cursor s + 1 |}.

(** [remove(entity)].  [None]: the entry to swap in, [_dense[_cursor]], is
    [undefined] (the code then calls [getEntityId(undefined)]). *)
Definition remove (s : t) (entity : Z) : option t :=
  let eid := getEntityId entity in
  if eid >=? capacity s then Some s
  else
    let wordIdx := JS.ushr eid 5 in
    let bit := JS.shl 1 (JS.and eid 31) in
    if negb (JS.truthy (JS.and (JS.num (JS.get (bottom s) wordIdx)) bit)) then Some s
    else if negb (bool_decide (stored s eid = Some entity)) then Some s
    else
      let bottom1 :=
        JS.set32 (bottom s) wordIdx (JS.and (JS.num (JS.get (bottom s) wordIdx)) (JS.not bit)) in
      index ← _sparse s !! eid;
      let cursor1 := _cursor s - 1 in
      if bool_decide (index <> cursor1) then
        swapped ← _dense s !! cursor1;
        Some {| bottom := bottom1; capacity := capacity s;
                _dense := <[index := swapped]> (_dense s);
                _sparse := <[getEntityId swapped := index]> (_sparse s);
                _cursor := cursor1 |}
      else
        Some {| bottom := bottom1; capacity := capacity s;
                _dense := _dense s; _sparse := _sparse s; _cursor := cursor1 |}.

(** [clear()]: the word of every stored entity is zeroed, then the cursor
    is reset; [_dense] and [_sparse] keep their entries.  [None]: a slot
    below the cursor is [undefined] (the code then calls
    [getEntityId(undefined)]). *)
Definition clear (s : t) : option t :=
  bottom1 ←
    foldl (fun acc i =>
             b ← acc; e ← _dense s !! i;
             Some (JS.set32 b (JS.ushr (getEntityId e) 5) 0))
          (Some (bottom s)) (seqZ 0 (_cursor s));
  Some {| bottom := bottom1; capacity := capacity s;
          _dense := _dense s; _sparse := _sparse s; _cursor := 0 |}.


End WithEntityId.

End QueryEntitySet.

(** ** The world state read and written by the matcher and the orchestrator *)

(** Auto-destroy policy of a relation, as stored ('orphan' is accepted by
    the API as a synonym of 'source'). *)
Inductive AutoDestroy := destroy_none | destroy_source | destroy_target.

(** Modelled from the spec: the relation module is not among the sources.
    A relation carries its auto-destroy policy and, per world, the pairs
    (source, target) it currently links; the lookups of the relation
    contract enumerate them. *)
Record Relation := mkRelation {
  autoDestroy : AutoDestroy;
  pairs : list (Z * Z)
}.

(** Modelled from the spec: the world internals ([world[$internal]]) the
    modelled functions touch.  [entityIndex] is the set of live handles
    ([world.has]), [entityTraits] the trait set of each entity, [allQuery]
    the members of the all-entities query ([queriesHashMap.get('')]) when it
    exists, [entityMasks] the mask table, one [Uint32Array] per trait bank. *)
Record World := mkWorld {
  entityIndex : gset Z;
  relations : list Relation;
  entityTraits : gmap Z (list Z);
  allQuery : option (gset Z);
  entityMasks : list (list Z)
}.

(** ** Query matching (src/packages/core/src/query/utils/check-query.ts) *)

Module Query.

Record Bitmask := mkBitmask {
  required : Z;
  forbidden : Z;
  or : Z
}.

(** The fields of a compiled query that [checkQuery] reads.  An entry of
    [staticBitmasks] may be [undefined]; of [traitInstances.all] only the
    length matters. *)
Record QueryInstance := mkQuery {
  staticBitmasks : list (option Bitmask);
  generations : list Z;
  traitInstances_all : list Z
}.

(** What a call does: return a boolean, or raise TypeError (a property
    read on [undefined]). *)
Inductive outcome := Returns (b : bool) | TypeError.

(** [staticBitmasks[i]] *)
Definition bitmaskAt (q : QueryInstance) (i : nat) : option Bitmask :=
  mjoin (staticBitmasks q !! i).

(** [genMasks ? (genMasks[eid] | 0) : 0] with [genMasks = entityMasks[generationId]] *)
Definition entityMaskOf (w : World) (generationId eid : Z) : Z :=
  match JS.get (entityMasks w) generationId with
  | Some genMasks => JS.or (JS.num (JS.get genMasks eid)) 0
  | None => 0
  end.

(** The three tests on one bank; [true] when none of them rejects. *)
Definition bank_tests (bitmask : Bitmask) (entityMask : Z) : bool :=
  if JS.truthy (forbidden bitmask) && negb (JS.and entityMask (forbidden bitmask) =? 0)
  then false
  else if JS.truthy (required bitmask)
          && negb (JS.and entityMask (required bitmask) =? required bitmask)
  then false
  else if negb (or bitmask =? 0) && (JS.and entityMask (or bitmask) =? 0)
  then false
  else true.

(** The loop [for (let i = 0; i < generationsLen; i++)] from index [i] on,
    [gens] being the generations still to visit. *)
Fixpoint check_loop (w : World) (q : QueryInstance) (eid : Z) (gens : list Z) (i : nat) : bool :=
  match gens with
  | [] => true
  | generationId :: gens' =>
      match bitmaskAt q i with
      | None => check_loop w q eid gens' (S i)
      | Some bitmask =>
          if negb (JS.truthy (forbidden bitmask)) && negb (JS.truthy (required bitmask))
             && negb (JS.truthy (or bitmask))
          then false
          else if bank_tests bitmask (entityMaskOf w generationId eid)
          then check_loop w q eid gens' (S i)
          else false
      end
  end.

Section WithEntityId.

Variable getEntityId : Z -> Z.

Definition checkQuery (w : World) (q : QueryInstance) (entity : Z) : outcome :=
  let eid := getEntityId entity in
  if (length (traitInstances_all q) =? 0)%nat then Returns false
  else
    match generations q with
    | [generationId] =>
        match bitmaskAt q 0 with
        | None => TypeError
        | Some bitmask => Returns (bank_tests bitmask (entityMaskOf w generationId eid))
        end
    | gens => Returns (check_loop w q eid gens 0)
    end.

(** [checkQueryWithRelations] (check-query-with-relations.ts).
    [hasRelationPair] (relation/relation) is not among the sources: it is a
    parameter, a test of the world, the entity and one filter.
    [relationFilters] is [query.relationFilters], which may be [undefined]
    (reading its [length] then raises TypeError). *)
Section WithRelations.

Variable RelationFilter : Type.
Variable hasRelationPair : World -> Z -> RelationFilter -> bool.

(** [for (let i = 0, len = filters.length; i < len; i++)
       if (!hasRelationPair(world, entity, filters[i])) return false;
     return true] *)
Fixpoint filters_loop (w : World) (entity : Z) (filters : list RelationFilter) : bool :=
  match filters with
  | [] => true
  | filter :: filters' =>
      if negb (hasRelationPair w entity filter) then false
      else filters_loop w entity filters'
  end.

Definition checkQueryWithRelations (w : World) (q : QueryInstance)
    (relationFilters : option (list RelationFilter)) (entity : Z) : outcome :=
  match checkQuery w q entity with
  | TypeError => TypeError
  | Returns false => Returns false
  | Returns true =>
      match relationFilters with
      | None => TypeError
      | Some filters => Returns (filters_loop w entity filters)
      end
  end.

End WithRelations.

End WithEntityId.

End Query.

(** ** Entity destruction (src/packages/core/src/entity/entity.ts) *)

(** Modelled from the spec: [world.has(entity)], the World contract's
    [exists(handle)]. *)
Definition world_has (w : World) (entity : Z) : bool :=
  bool_decide (entity ∈ entityIndex w).

(** Replace the pairs of relation [ri]. *)
Definition update_pairs (w : World) (ri : nat) (f : list (Z * Z) -> list (Z * Z)) : World :=
  {| entityIndex := entityIndex w;
     relations := alter (fun r => mkRelation (autoDestroy r) (f (pairs r))) ri (relations w);
     entityTraits := entityTraits w;
     allQuery := allQuery w;
     entityMasks := entityMasks w |}.

(** Modelled from the spec: [getEntitiesWithRelationTo(world, relation, target)],
    the relation contract's [sourcesOf(target)]. *)
Definition getEntitiesWithRelationTo (w : World) (ri : nat) (target : Z) : list Z :=
  match relations w !! ri with
  | Some r => fst <$> filter (fun p : Z * Z => p.2 = target) (pairs r)
  | None => []
  end.

(** Modelled from the spec: [getRelationTargets(world, relation, source)],
    the relation contract's [targetsOf(source)]. *)
Definition getRelationTargets (w : World) (ri : nat) (source : Z) : list Z :=
  match relations w !! ri with
  | Some r => snd <$> filter (fun p : Z * Z => p.1 = source) (pairs r)
  | None => []
  end.

(** Modelled from the spec: [cleanupRelationTarget(world, relation, source, target)],
    the relation contract's [unlink(relation, source, target)]. *)
Definition cleanupRelationTarget (w : World) (ri : nat) (source target : Z) : World :=
  update_pairs w ri (filter (fun p : Z * Z => p <> (source, target))).

(** Modelled from the spec: [removeTrait(world, entity, trait)] takes the
    trait out of the entity's trait set (its propagation to the live
    queries is not modelled). *)
Definition removeTrait (w : World) (entity trait : Z) : World :=
  {| entityIndex := entityIndex w;
     relations := relations w;
     entityTraits := alter (filter (fun t : Z => t <> trait)) entity (entityTraits w);
     allQuery := allQuery w;
     entityMasks := entityMasks w |}.

(** Modelled from the spec: [releaseEntity(entityIndex, entity)] returns the
    slot to the pool; the handle no longer exists. *)
Definition releaseEntity (w : World) (entity : Z) : World :=
  {| entityIndex := entityIndex w ∖ {[entity]};
     relations := relations w;
     entityTraits := entityTraits w;
     allQuery := allQuery w;
     entityMasks := entityMasks w |}.

(** What [destroyEntity] does: return normally with the new world, throw,
    or (in the model only) run out of fuel. *)
Inductive destroy_result :=
| Destroyed (w : World)
| Threw (message : string)
| OutOfFuel.

(** The body of [for (let si = 0; si < sources.length; si++)]: a live
    source is unlinked from the current entity and, under policy 'source',
    pushed.  The queue is a stack, its head the last element pushed. *)
Definition source_step (relation : Relation) (ri : nat) (currentEntity : Z)
    (st : World * list Z) (source : Z) : World * list Z :=
  if world_has st.1 source then
    (cleanupRelationTarget st.1 ri source currentEntity,
     match autoDestroy relation with
     | destroy_source => source :: st.2
     | _ => st.2
     end)
  else st.

(** The body of [for (let ti = 0; ti < targets.length; ti++)]. *)
Definition target_step (w : World) (processedEntities : gset Z)
    (entityQueue : list Z) (target : Z) : list Z :=
  if world_has w target && negb (bool_decide (target ∈ processedEntities))
  then target :: entityQueue
  else entityQueue.

(** The body of [for (let ri = 0; ri < relationsLen; ri++)] for one
    relation. *)
Definition relation_step (currentEntity : Z) (processedEntities : gset Z)
    (st : World * list Z) (ri : nat) : World * list Z :=
  match relations st.1 !! ri with
  | None => st
  | Some relation =>
      let sources := getEntitiesWithRelationTo st.1 ri currentEntity in
      let st1 := foldl (source_step relation ri currentEntity) st sources in
      match autoDestroy relation with
      | destroy_target =>
          let targets := getRelationTargets st1.1 ri currentEntity in
          (st1.1, foldl (target_step st1.1 processedEntities) st1.2 targets)
      | _ => st1
      end
  end.

Section WithEntityId.

Variable getEntityId : Z -> Z.

(** The rest of the loop body: remove the traits, free the entity, take it
    out of the all-entities query, drop its trait set, zero its mask words. *)
Definition release_step (w : World) (currentEntity : Z) : World :=
  let w1 :=
    match entityTraits w !! currentEntity with
    | Some traitsArr => foldl (fun w trait => removeTrait w currentEntity trait) w traitsArr
    | None => w
    end in
  let w2 := releaseEntity w1 currentEntity in
  let eid := getEntityId currentEntity in
  {| entityIndex := entityIndex w2;
     relations := relations w2;
     entityTraits := delete currentEntity (entityTraits w2);
     allQuery := (fun members => members ∖ {[currentEntity]}) <$> allQuery w2;
     entityMasks := (fun row => JS.set32 row eid 0) <$> entityMasks w2 |}.

(** [while (entityQueue.length > 0)] *)
Fixpoint cascade (fuel : nat) (relationsLen : nat) (w : World)
    (entityQueue : list Z) (processedEntities : gset Z) : option World :=
  match entityQueue with
  | [] => Some w
  | currentEntity :: entityQueue1 =>
      match fuel with
      | O => None
      | S fuel' =>
          if bool_decide (currentEntity ∈ processedEntities)
          then cascade fuel' relationsLen w entityQueue1 processedEntities
          else
            let processedEntities1 := {[currentEntity]} ∪ processedEntities in
            let st := foldl (relation_step currentEntity processedEntities1)
                            (w, entityQueue1) (seq 0 relationsLen) in
            cascade fuel' relationsLen (release_step st.1 currentEntity) st.2 processedEntities1
      end
  end.

(** Number of pairs over all relations. *)
Definition total_pairs (w : World) : nat :=
  sum_list_with (fun r => length (pairs r)) (relations w).

(** Rounds of the loop that suffice on world [w]: each round either drops
    a processed handle from the queue or releases a live entity after
    pushing at most one handle per pair of each relation. *)
Definition cascade_fuel (w : World) : nat :=
  S (size (entityIndex w) * S (length (relations w) * total_pairs w)).

(** The scratch queue and set ([cachedQueue], [cachedSet]) are emptied on
    entry, so a call does not depend on what earlier calls left in them. *)
Definition destroyEntity (w : World) (entity : Z) : destroy_result :=
  if negb (world_has w entity)
  then Threw "Koota: The entity being destroyed does not exist."
  else
    match cascade (cascade_fuel w) (length (relations w)) w [entity] ∅ with
    | Some w' => Destroyed w'
    | None => OutOfFuel
    end.

End WithEntityId.

(** * Specification vocabulary *)

(** Signed and unsigned 32-bit ranges. *)
Definition int32 (z : Z) : Prop := - 2 ^ 31 <= z < 2 ^ 31.
Definition uint32 (z : Z) : Prop := 0 <= z < 2 ^ 32.

(** A number is a faithful 32-bit word when it is 0 as soon as its low 32
    bits are: true of typed-array elements and of every result of [&]. *)
Definition word32 (w : Z) : Prop :=
  (forall i, 0 <= i < 32 -> Z.testbit w i = false) -> w = 0.

(** The keys [k] of [lo, lo + n) with [P k], in ascending order. *)
Fixpoint select (P : Z -> bool) (n : nat) (lo : Z) : list Z :=
  match n with
  | O => []
  | S n' => (if P lo then [lo] else []) ++ select P n' (lo + 1)
  end.

(** [k] is the lowest set bit of [w]. *)
Definition lowest_bit (w k : Z) : Prop :=
  0 <= k < 32 /\ Z.testbit w k = true /\ forall j, 0 <= j < k -> Z.testbit w j = false.

(** The key predicate computed by [walk]: the top bit of the key's bottom
    word is set and the key's bit is set in the bottom word. *)
Definition walk_pred (topBitsAt : Z -> Z) (bottomBitsAt : Z -> option Z) (k : Z) : bool :=
  Z.testbit (topBitsAt (k / 1024)) ((k / 32) mod 32)
  && Z.testbit (JS.num (bottomBitsAt (k / 32))) (k mod 32).

(** Bit [k] of a packed bit array, a missing word reading as 0. *)
Definition bit_at (l : list Z) (k : Z) : bool :=
  Z.testbit (JS.num (JS.get l (k / 32))) (k mod 32).

(** The two-level invariant: top bit [i] is 1 iff bottom word [i] is
    non-zero (a word the bottom array does not have counts as zero). *)
Definition two_level (s : BitSet.t) : Prop :=
  forall i, 0 <= i ->
    (bit_at (BitSet.top s) i = true <-> JS.num (JS.get (BitSet.bottom s) i) <> 0).

(** Structural invariant of a BitSet: sizes as the constructor and [grow]
    set them, typed-array elements in range, no bit at or beyond the
    capacity, and the two-level invariant. *)
Record BitSet_wf (s : BitSet.t) : Prop := {
  wf_cap : 1 <= BitSet.capacity s <= 2 ^ 31;
  wf_bottom_len : Z.of_nat (length (BitSet.bottom s)) = (BitSet.capacity s + 31) / 32;
  wf_top_len : Z.of_nat (length (BitSet.top s)) = (Z.of_nat (length (BitSet.bottom s)) + 31) / 32;
  wf_bottom_range : Forall uint32 (BitSet.bottom s);
  wf_top_range : Forall uint32 (BitSet.top s);
  wf_below : forall k, 0 <= k -> bit_at (BitSet.bottom s) k = true -> k < BitSet.capacity s;
  wf_summary : two_level s
}.

(** [collect cap keys]: the BitSet obtained from [new BitSet(cap)] by
    adding the keys in order. *)
Definition collect (cap : Z) (keys : list Z) : option BitSet.t :=
  foldl (fun acc k => s ← acc; r ← BitSet.add s k; Some r.2) (Some (BitSet.new cap)) keys.

(** The reading of "pairwise AND reduced across all sets" that
    [bitSetAndMany] is compared with: intersect the first two sets with
    [bitSetAnd], collect the visited keys into a fresh BitSet of the same
    capacity, intersect that with the next set, and so on; the visit of
    the last intermediate set is the result. *)
Fixpoint and_reduce (acc : BitSet.t) (rest : list BitSet.t) : option (list Z) :=
  match rest with
  | [] => BitSet.forEach acc
  | s :: rest' =>
      keys ← bitSetAnd acc s;
      acc' ← collect (BitSet.capacity acc) keys;
      and_reduce acc' rest'
  end.

Definition pairwise_and (sets : list BitSet.t) : option (list Z) :=
  match sets with
  | [] => Some []
  | s0 :: rest => and_reduce s0 rest
  end.

(** The visitor is called exactly on the keys [k >= 0] with [P k], in
    strictly ascending order. *)
Definition visits (l : list Z) (P : Z -> Prop) : Prop :=
  StronglySorted Z.lt l /\ forall k, k ∈ l <-> 0 <= k /\ P k.

(** Keys a BitSet accepts: natural numbers that fit without growth, or
    below 2^30 (growth then stays within the 32-bit word arithmetic of
    [grow]). *)
Definition key_ok (s : BitSet.t) (k : Z) : Prop :=
  0 <= k /\ (k < BitSet.capacity s \/ k < 2 ^ 30).

(** Sequences of [add] / [remove] calls and the booleans they return. *)
Inductive op := Add (k : Z) | Remove (k : Z).

Definition op_key (o : op) : Z := match o with Add k | Remove k => k end.

Definition step (s : BitSet.t) (o : op) : option (bool * BitSet.t) :=
  match o with
  | Add k => BitSet.add s k
  | Remove k => Some (BitSet.remove s k)
  end.

Fixpoint run (s : BitSet.t) (ops : list op) : option (list (op * bool) * BitSet.t) :=
  match ops with
  | [] => Some ([], s)
  | o :: ops' =>
      r ← step s o;
      t ← run r.2 ops';
      Some ((o, r.1) :: t.1, t.2)
  end.

(** The number of calls that affected key [k]: the calls on [k] that
    returned true (an [add] of a present key and a [remove] of an absent
    one change nothing and return false). *)
Fixpoint effective (k : Z) (trace : list (op * bool)) : nat :=
  match trace with
  | [] => 0
  | (o, r) :: t => (if (op_key o =? k) && r then 1 else 0) + effective k t
  end.

(** [X] is the set of keys currently true and [count] is its size. *)
Definition counts (s : BitSet.t) (X : gset Z) : Prop :=
  (forall k, k ∈ X <-> 0 <= k /\ BitSet.has s k = true)
  /\ BitSet.count s = Z.of_nat (size X).

(** The reference semantics of a call sequence on one key: the last call
    on [k] decides, an [add] leaving it present and a [remove] absent. *)
Definition present_after (k : Z) (ops : list op) (init : bool) : bool :=
  foldl (fun b o =>
           if op_key o =? k then match o with Add _ => true | Remove _ => false end else b)
        init ops.

(** Structural invariant of a QueryEntitySet's bit layer. *)
Record QES_wf (s : QueryEntitySet.t) : Prop := {
  qwf_cap : 1 <= QueryEntitySet.capacity s <= 2 ^ 31;
  qwf_len : Z.of_nat (length (QueryEntitySet.bottom s)) = (QueryEntitySet.capacity s + 31) / 32;
  qwf_range : Forall uint32 (QueryEntitySet.bottom s)
}.

(** [new] is the smallest repeated doubling of [old] that is at least [need]. *)
Definition smallest_doubling (old new need : Z) : Prop :=
  exists j, 0 <= j /\ new = old * 2 ^ j /\ need <= new
            /\ forall j', 0 <= j' < j -> old * 2 ^ j' < need.

(** The entity's mask word for a trait bank; a bank row or a word the table
    does not have reads as 0. *)
Definition mask_word (w : World) (generationId eid : Z) : Z :=
  match JS.get (entityMasks w) generationId with
  | Some row => JS.num (JS.get row eid)
  | None => 0
  end.

(** A bank's triple passes against a mask word: [(mask & forbidden) == 0],
    [(mask & required) == required], and [or == 0] or [(mask & or) != 0],
    with [&] the 32-bit operator of the source. *)
Definition passes (b : Query.Bitmask) (mask : Z) : bool :=
  (JS.and mask (Query.forbidden b) =? 0)
  && (JS.and mask (Query.required b) =? Query.required b)
  && ((Query.or b =? 0) || negb (JS.and mask (Query.or b) =? 0)).

(** The triple is entirely empty. *)
Definition empty_triple (b : Query.Bitmask) : bool :=
  (Query.required b =? 0) && (Query.forbidden b =? 0) && (Query.or b =? 0).

(** A relation after some unlinks: same policy, no new pair. *)
Definition shrunk (r' r : Relation) : Prop :=
  autoDestroy r' = autoDestroy r
  /\ (forall p, p ∈ pairs r' -> p ∈ pairs r)
  /\ (length (pairs r') <= length (pairs r))%nat.

(** State of the relation loop [st] against the state [st0] it started
    from: the same live entities, relations only shrunk, and at most [n]
    handles pushed on the queue, each of a live entity. *)
Definition grows (n : nat) (st0 st : World * list Z) : Prop :=
  entityIndex st.1 = entityIndex st0.1
  /\ Forall2 shrunk (relations st.1) (relations st0.1)
  /\ exists pushed, st.2 = pushed ++ st0.2 /\ (length pushed <= n)%nat
                    /\ forall e, e ∈ pushed -> e ∈ entityIndex st0.1.

(** Invariant of the cascade loop: a processed handle is released, and a
    queued handle is live or already processed. *)
Definition cascade_inv (w : World) (entityQueue : list Z) (processedEntities : gset Z) : Prop :=
  (forall e, e ∈ processedEntities -> e ∉ entityIndex w)
  /\ (forall e, e ∈ entityQueue -> e ∈ entityIndex w \/ e ∈ processedEntities).

(** Destroying [b] pushes nothing but [b] itself: no live source is linked
    to [b] through a relation of policy 'source', and [b] is linked to no
    live target through a relation of policy 'target'. *)
Definition no_dependents (w : World) (b : Z) : Prop :=
  forall ri r, relations w !! ri = Some r ->
    (autoDestroy r = destroy_source ->
       forall s, (s, b) ∈ pairs r -> s = b \/ s ∉ entityIndex w)
    /\ (autoDestroy r = destroy_target ->
          forall t, (b, t) ∈ pairs r -> t = b \/ t ∉ entityIndex w).





(** A store [out[i] = v] takes effect: always on a [number[]], within the
    bounds on a [Uint32Array]. *)
Definition out_writable (out : BitSet.OutBuffer) (i : Z) : bool :=
  match out with
  | BitSet.NumberArray _ _ => true
  | BitSet.Uint32Array words => (0 <=? i) && (i <? Z.of_nat (length words))
  end.

(** Consistency of the three layers of a QueryEntitySet: the slots below
    the cursor hold handles whose bit is set and whose sparse entry points
    back at the slot, and every set bit belongs to such a slot. *)
Record QES_inv (gid : Z -> Z) (s : QueryEntitySet.t) : Prop := {
  qi_wf : QES_wf s;
  qi_cursor : 0 <= QueryEntitySet._cursor s;
  qi_dense : forall i, 0 <= i < QueryEntitySet._cursor s ->
    exists e, QueryEntitySet._dense s !! i = Some e
              /\ 0 <= gid e < QueryEntitySet.capacity s
              /\ bit_at (QueryEntitySet.bottom s) (gid e) = true
              /\ QueryEntitySet._sparse s !! gid e = Some i;
  qi_bits : forall k, 0 <= k -> bit_at (QueryEntitySet.bottom s) k = true ->
    exists i e, QueryEntitySet._sparse s !! k = Some i
                /\ 0 <= i < QueryEntitySet._cursor s
                /\ QueryEntitySet._dense s !! i = Some e /\ gid e = k
}.

(** Calls on a QueryEntitySet. *)
Inductive qop := QAdd (e : Z) | QRemove (e : Z) | QClear.

Definition qstep (gid : Z -> Z) (s : QueryEntitySet.t) (o : qop) : option QueryEntitySet.t :=
  match o with
  | QAdd e => QueryEntitySet.add gid s e
  | QRemove e => QueryEntitySet.remove gid s e
  | QClear => QueryEntitySet.clear gid s
  end.

Definition qrun (gid : Z -> Z) (s : QueryEntitySet.t) (ops : list qop) : option QueryEntitySet.t :=
  foldl (fun acc o => s ← acc; qstep gid s o) (Some s) ops.

(** Destroying [c] makes the orchestrator queue [x]: [x] exists and is a
    source of [c] through a relation of policy 'source', or a target of [c]
    through a relation of policy 'target'. *)
Definition destroys (w : World) (c x : Z) : Prop :=
  x ∈ entityIndex w
  /\ exists ri r, relations w !! ri = Some r
       /\ ((autoDestroy r = destroy_source /\ (x, c) ∈ pairs r)
           \/ (autoDestroy r = destroy_target /\ (c, x) ∈ pairs r)).

(** A relation after the unlinks made while [c] is processed: same policy,
    no new pair, and only pairs that target [c] are gone. *)
Definition unlinked (c : Z) (r' r : Relation) : Prop :=
  autoDestroy r' = autoDestroy r
  /\ (forall p, p ∈ pairs r' -> p ∈ pairs r)
  /\ (forall p, p ∈ pairs r -> p ∈ pairs r' \/ p.2 = c).

(** State of the relation loop for [c] against the state it started from:
    only relations change, by unlinking sources of [c], and every handle
    pushed is one that destroying [c] destroys. *)
Definition tracks (c : Z) (st0 st : World * list Z) : Prop :=
  entityIndex st.1 = entityIndex st0.1
  /\ entityTraits st.1 = entityTraits st0.1
  /\ allQuery st.1 = allQuery st0.1
  /\ entityMasks st.1 = entityMasks st0.1
  /\ Forall2 (unlinked c) (relations st.1) (relations st0.1)
  /\ exists pushed, st.2 = pushed ++ st0.2 /\ forall x, x ∈ pushed -> destroys st0.1 c x.

(** A relation of the current world against the one [destroyEntity] was
    called on: same policy, no new pair, and only pairs whose target has
    been processed are gone. *)
Definition pruned (P : gset Z) (r' r : Relation) : Prop :=
  autoDestroy r' = autoDestroy r
  /\ (forall p, p ∈ pairs r' -> p ∈ pairs r)
  /\ (forall p, p ∈ pairs r -> p ∈ pairs r' \/ p.2 ∈ P).

(** Invariant of the cascade loop of [destroyEntity w0 e]: the processed
    handles are exactly the released ones, all processed or queued handles
    are reachable from [e] along [destroys], and whatever a processed handle
    destroys is processed or queued. *)
Definition reach_inv (w0 : World) (e : Z) (w : World) (q : list Z) (P : gset Z) : Prop :=
  entityIndex w = entityIndex w0 ∖ P
  /\ Forall2 (pruned P) (relations w) (relations w0)
  /\ (forall x, x ∈ P \/ x ∈ q -> rtc (destroys w0) e x)
  /\ (e ∈ P \/ e ∈ q)
  /\ (forall c x, c ∈ P -> destroys w0 c x -> x ∈ P \/ x ∈ q).

(** Invariant of the cascade loop of [destroyEntity w0 _] on the state kept
    per entity: a processed handle was live, is released, has no trait set,
    is out of the all-entities query and has all its mask words zeroed;
    nothing else changed. *)
Definition cleared_inv (gid : Z -> Z) (w0 w : World) (q : list Z) (P : gset Z) : Prop :=
  entityIndex w = entityIndex w0 ∖ P
  /\ (forall d, d ∈ P \/ d ∈ q -> d ∈ entityIndex w0)
  /\ (forall d, d ∈ q -> d ∈ entityIndex w \/ d ∈ P)
  /\ (forall d, d ∈ P -> entityTraits w !! d = None)
  /\ (forall d, d ∉ P -> entityTraits w !! d = entityTraits w0 !! d)
  /\ allQuery w = (fun members => members ∖ P) <$> allQuery w0
  /\ (forall g d, d ∈ P -> mask_word w g (gid d) = 0)
  /\ (forall g eid, (forall d, d ∈ P -> gid d <> eid) -> mask_word w g eid = mask_word w0 g eid).

(** * Properties *)




Lemma ToInt32_range z : int32 (JS.ToInt32 z).
Proof.
  unfold int32, JS.ToInt32.
  pose proof (Z.mod_pos_bound (z + 2 ^ 31) (2 ^ 32) ltac:(lia)). lia.
Qed.

Lemma ToUint32_range z : uint32 (JS.ToUint32 z).
Proof. unfold uint32, JS.ToUint32. apply Z.mod_pos_bound. lia. Qed.

Lemma ToInt32_id z : int32 z -> JS.ToInt32 z = z.
Proof.
  unfold int32, JS.ToInt32. intros H.
  rewrite Z.mod_small by lia. lia.
Qed.

Lemma ToUint32_id z : uint32 z -> JS.ToUint32 z = z.
Proof. unfold uint32, JS.ToUint32. intros H. apply Z.mod_small. lia. Qed.

Lemma ToInt32_mod z : JS.ToInt32 z mod 2 ^ 32 = z mod 2 ^ 32.
Proof.
  unfold JS.ToInt32.
  rewrite Zminus_mod, Z.mod_mod by lia.
  rewrite <- Zminus_mod. f_equal. lia.
Qed.

Lemma testbit_ToInt32 z i : 0 <= i < 32 -> Z.testbit (JS.ToInt32 z) i = Z.testbit z i.
Proof.
  intros Hi.
  rewrite <- (Z.mod_pow2_bits_low (JS.ToInt32 z) 32 i) by lia.
  rewrite ToInt32_mod. apply Z.mod_pow2_bits_low. lia.
Qed.

Lemma testbit_ToUint32 z i :
  0 <= i -> Z.testbit (JS.ToUint32 z) i = if i <? 32 then Z.testbit z i else false.
Proof.
  intros Hi. unfold JS.ToUint32.
  destruct (Z.ltb_spec i 32).
  - apply Z.mod_pow2_bits_low. lia.
  - apply Z.mod_pow2_bits_high. lia.
Qed.

(** The bits of a signed 32-bit value above bit 31 repeat bit 31. *)
Lemma log2_lt_31 a : 0 <= a < 2 ^ 31 -> Z.log2 a < 31.
Proof.
  intros H. destruct (Z.eq_dec a 0) as [->|]; [simpl; lia|].
  apply Z.log2_lt_pow2; lia.
Qed.

Lemma testbit_int32_high z i : int32 z -> 31 <= i -> Z.testbit z i = Z.testbit z 31.
Proof.
  unfold int32. intros Hz Hi.
  destruct (Z.neg_nonneg_cases z) as [Hneg | Hpos].
  - pose proof (log2_lt_31 (Z.pred (- z)) ltac:(lia)).
    rewrite !Z.bits_above_log2_neg; try lia.
  - pose proof (log2_lt_31 z ltac:(lia)).
    rewrite !Z.bits_above_log2; try lia.
Qed.


Lemma testbit_ToInt32_gen z i :
  0 <= i -> Z.testbit (JS.ToInt32 z) i = Z.testbit z (Z.min i 31).
Proof.
  intros Hi. destruct (Z.lt_ge_cases i 31).
  - rewrite Z.min_l by lia. apply testbit_ToInt32. lia.
  - rewrite Z.min_r by lia.
    rewrite (testbit_int32_high _ i (ToInt32_range z)) by lia.
    apply testbit_ToInt32. lia.
Qed.

Lemma and_bits a b i :
  0 <= i -> Z.testbit (JS.and a b) i = Z.testbit a (Z.min i 31) && Z.testbit b (Z.min i 31).
Proof. intros. unfold JS.and. by rewrite Z.land_spec, !testbit_ToInt32_gen. Qed.

Lemma or_bits a b i :
  0 <= i -> Z.testbit (JS.or a b) i = Z.testbit a (Z.min i 31) || Z.testbit b (Z.min i 31).
Proof. intros. unfold JS.or. by rewrite Z.lor_spec, !testbit_ToInt32_gen. Qed.

Lemma not_bits a i :
  0 <= i -> Z.testbit (JS.not a) i = negb (Z.testbit a (Z.min i 31)).
Proof. intros. unfold JS.not. by rewrite Z.lnot_spec, testbit_ToInt32_gen. Qed.

Lemma uint32_high w i : uint32 w -> 32 <= i -> Z.testbit w i = false.
Proof.
  intros Hw Hi. rewrite <- (ToUint32_id w Hw).
  rewrite testbit_ToUint32 by lia. destruct (Z.ltb_spec i 32); [lia|done].
Qed.


Lemma word32_uint32 w : uint32 w -> word32 w.
Proof.
  intros Hw Hz. apply Z.bits_inj'. intros i Hi. rewrite Z.bits_0.
  destruct (Z.lt_ge_cases i 32); [apply Hz; lia | by apply uint32_high].
Qed.

Lemma word32_and a b : word32 (JS.and a b).
Proof.
  intros Hz. apply Z.bits_inj'. intros i Hi. rewrite Z.bits_0.
  rewrite and_bits by lia.
  replace (Z.min i 31) with (Z.min (Z.min i 31) 31) by lia.
  rewrite <- and_bits by lia. apply Hz. lia.
Qed.

Lemma word32_0 : word32 0.
Proof. by intros _. Qed.

Lemma word32_num_get (l : list Z) i : Forall uint32 l -> word32 (JS.num (JS.get l i)).
Proof.
  intros Hl. unfold JS.get. destruct (i <? 0); [apply word32_0|].
  destruct (l !! Z.to_nat i) as [w|] eqn:E; [|apply word32_0].
  apply word32_uint32. eapply Forall_lookup_1; eauto.
Qed.

(** Index arithmetic of the sources: [k >>> 5], [k & 31], [1 << b], [(i << 5) | b]. *)
Lemma ushr5 k : 0 <= k < 2 ^ 32 -> JS.ushr k 5 = k / 32.
Proof.
  intros Hk. unfold JS.ushr. rewrite (ToUint32_id k) by done.
  change (JS.ToUint32 5 mod 32) with 5. by rewrite Z.shiftr_div_pow2.
Qed.

Lemma and31 k : JS.and k 31 = k mod 32.
Proof.
  unfold JS.and. change (JS.ToInt32 31) with (Z.ones 5).
  rewrite Z.land_ones by lia. change (2 ^ 5) with 32.
  unfold JS.ToInt32.
  replace ((k + 2 ^ 31) mod 2 ^ 32 - 2 ^ 31)
    with (k + (- ((k + 2 ^ 31) / 2 ^ 32) * 2 ^ 27) * 32).
  - by rewrite Z.mod_add.
  - pose proof (Z.div_mod (k + 2 ^ 31) (2 ^ 32) ltac:(lia)). lia.
Qed.

Lemma shl1_bits b i :
  0 <= b < 32 -> 0 <= i -> Z.testbit (JS.shl 1 b) i = (Z.min i 31 =? b).
Proof.
  intros Hb Hi. unfold JS.shl.
  rewrite (ToUint32_id b) by (unfold uint32; lia).
  rewrite (Z.mod_small b 32) by lia.
  change (JS.ToInt32 1) with 1. rewrite Z.shiftl_1_l.
  rewrite testbit_ToInt32_gen by done.
  rewrite Z.pow2_bits_eqb by lia. apply Z.eqb_sym.
Qed.

Lemma shl5 i : 0 <= i < 2 ^ 26 -> JS.shl i 5 = 32 * i.
Proof.
  intros Hi. unfold JS.shl.
  change (JS.ToUint32 5 mod 32) with 5.
  rewrite (ToInt32_id i) by (unfold int32; lia).
  rewrite Z.shiftl_mul_pow2 by lia.
  rewrite ToInt32_id by (unfold int32; lia). lia.
Qed.

Lemma lor_low a b : 0 <= a -> 0 <= b < 32 -> Z.lor (32 * a) b = 32 * a + b.
Proof.
  intros Ha Hb. symmetry. apply Z.add_nocarry_lor.
  apply Z.bits_inj'. intros i Hi. rewrite Z.land_spec, Z.bits_0.
  destruct (Z.lt_ge_cases i 5).
  - replace (32 * a) with (a * 2 ^ 5) by lia.
    rewrite Z.mul_pow2_bits_low by lia. done.
  - rewrite (Z.bits_above_log2 b i); [by rewrite andb_false_r | lia |].
    destruct (Z.eq_dec b 0) as [->|]; [simpl; lia|].
    apply Z.lt_le_trans with 5; [|lia]. apply Z.log2_lt_pow2; lia.
Qed.

Lemma index_or i b : 0 <= i < 2 ^ 26 -> 0 <= b < 32 -> JS.or (JS.shl i 5) b = 32 * i + b.
Proof.
  intros Hi Hb. rewrite shl5 by done. unfold JS.or.
  rewrite !ToInt32_id by (unfold int32; lia). apply lor_low; lia.
Qed.

(** ** Ascending selections *)

Lemma elem_of_select P n lo k :
  k ∈ select P n lo <-> lo <= k < lo + Z.of_nat n /\ P k = true.
Proof.
  revert lo. induction n as [|n IH]; intros lo; simpl.
  - rewrite elem_of_nil. lia.
  - rewrite elem_of_app, IH. destruct (P lo) eqn:E.
    + rewrite list_elem_of_singleton. split.
      * intros [->|[? ?]]; split; (lia || done).
      * intros [? ?]. destruct (Z.eq_dec k lo); [by left | right; split; [lia|done]].
    + rewrite elem_of_nil. split.
      * intros [[]|[? ?]]; split; (lia || done).
      * intros [? ?]. right. split; [|done].
        destruct (Z.eq_dec k lo) as [->|]; [congruence | lia].
Qed.

Lemma select_sorted P n lo : StronglySorted Z.lt (select P n lo).
Proof.
  revert lo. induction n as [|n IH]; intros lo; simpl; [constructor|].
  destruct (P lo); simpl; [|apply IH].
  constructor; [apply IH|].
  apply Forall_forall. intros k Hk. apply elem_of_select in Hk. lia.
Qed.

Lemma select_app P n m lo :
  select P (n + m) lo = select P n lo ++ select P m (lo + Z.of_nat n).
Proof.
  revert lo. induction n as [|n IH]; intros lo; simpl.
  - by rewrite Z.add_0_r.
  - rewrite IH, <- app_assoc. do 3 f_equal. lia.
Qed.

Lemma select_ext P Q n lo :
  (forall k, lo <= k < lo + Z.of_nat n -> P k = Q k) -> select P n lo = select Q n lo.
Proof.
  revert lo. induction n as [|n IH]; intros lo H; simpl; [done|].
  rewrite (H lo) by lia. f_equal. apply IH. intros k Hk. apply H. lia.
Qed.

Lemma select_nil P n lo :
  (forall k, lo <= k < lo + Z.of_nat n -> P k = false) -> select P n lo = [].
Proof.
  revert lo. induction n as [|n IH]; intros lo H; simpl; [done|].
  rewrite (H lo) by lia. simpl. apply IH. intros k Hk. apply H. lia.
Qed.

Lemma select_shift P c n lo :
  (fun b => c + b) <$> select P n lo = select (fun k => P (k - c)) n (c + lo).
Proof.
  revert lo. induction n as [|n IH]; intros lo; simpl; [done|].
  rewrite fmap_app, IH. replace (c + lo - c) with lo by lia.
  replace (c + (lo + 1)) with (c + lo + 1) by lia.
  by destruct (P lo).
Qed.

(** Two strictly ascending lists with the same elements are equal. *)
Lemma sorted_unique (l1 l2 : list Z) :
  StronglySorted Z.lt l1 -> StronglySorted Z.lt l2 ->
  (forall k, k ∈ l1 <-> k ∈ l2) -> l1 = l2.
Proof.
  intros H1. revert l2. induction H1 as [|a l1 Hs1 IH Ha]; intros l2 H2 Heq.
  - destruct l2 as [|b l2]; [done|].
    exfalso. eapply elem_of_nil. apply Heq. left.
  - destruct H2 as [|b l2 Hs2 Hb].
    { exfalso. eapply elem_of_nil. apply Heq. left. }
    rewrite Forall_forall in Ha, Hb.
    assert (a = b) as ->.
    { pose proof (proj1 (Heq a) ltac:(left)) as Hab.
      pose proof (proj2 (Heq b) ltac:(left)) as Hba.
      apply elem_of_cons in Hab as [?|Hab]; [done|].
      apply elem_of_cons in Hba as [?|Hba]; [done|].
      specialize (Ha _ Hba). specialize (Hb _ Hab). lia. }
    f_equal. apply IH; [done|]. intros k. split; intros Hk.
    + pose proof (proj1 (Heq k) ltac:(by right)) as Hk'.
      apply elem_of_cons in Hk' as [->|]; [|done].
      specialize (Ha _ Hk). lia.
    + pose proof (proj2 (Heq k) ltac:(by right)) as Hk'.
      apply elem_of_cons in Hk' as [->|]; [|done].
      specialize (Hb _ Hk). lia.
Qed.

Lemma select_S P n lo :
  select P (S n) lo = (if P lo then [lo] else []) ++ select P n (lo + 1).
Proof. done. Qed.

Arguments select : simpl never.

(** ** The bit-scan primitive and the extraction loop *)

(** Bits of [v - 1] when [k] is the lowest set bit of [v]. *)
Lemma pred_bits (n : nat) : forall v i,
  Z.testbit v (Z.of_nat n) = true ->
  (forall j, 0 <= j < Z.of_nat n -> Z.testbit v j = false) ->
  0 <= i ->
  Z.testbit (v - 1) i =
    if i <? Z.of_nat n then true else if i =? Z.of_nat n then false else Z.testbit v i.
Proof.
  induction n as [|n IH]; intros v i Hk Hlow Hi.
  - change (Z.of_nat 0) with 0 in *. rewrite Z.bit0_odd in Hk.
    rewrite (Zodd_bool_iff) in Hk. apply Zodd_ex_iff in Hk as [a ->].
    replace (2 * a + 1 - 1) with (2 * a) by lia.
    destruct (Z.eq_dec i 0) as [->|Hne].
    + apply Z.testbit_even_0.
    + destruct (Z.ltb_spec i 0); [lia|]. destruct (Z.eqb_spec i 0); [lia|].
      replace i with (Z.succ (i - 1)) by lia.
      rewrite Z.testbit_even_succ, Z.testbit_odd_succ by lia. done.
  - assert (Z.testbit v 0 = false) as H0 by (apply Hlow; lia).
    rewrite Z.bit0_odd in H0.
    assert (Z.even v = true) as Hev by (rewrite <- Z.negb_odd, H0; done).
    apply Zeven_bool_iff, Zeven_ex_iff in Hev as [a ->].
    replace (2 * a - 1) with (2 * (a - 1) + 1) by lia.
    destruct (Z.eq_dec i 0) as [->|Hne].
    + rewrite Z.testbit_odd_0. destruct (Z.ltb_spec 0 (Z.of_nat (S n))); [done|lia].
    + replace i with (Z.succ (i - 1)) by lia.
      rewrite Z.testbit_odd_succ, Z.testbit_even_succ by lia.
      rewrite IH; try lia.
      * replace (Z.succ (i - 1)) with i by lia.
        destruct (Z.ltb_spec (i - 1) (Z.of_nat n)), (Z.ltb_spec i (Z.of_nat (S n)));
          try lia; try done.
        destruct (Z.eqb_spec (i - 1) (Z.of_nat n)), (Z.eqb_spec i (Z.of_nat (S n)));
          try lia; done.
      * rewrite <- Z.testbit_even_succ by lia.
        replace (Z.succ (Z.of_nat n)) with (Z.of_nat (S n)) by lia. done.
      * intros j Hj. rewrite <- Z.testbit_even_succ by lia. apply Hlow. lia.
Qed.

Lemma and_pred_bits w k i :
  lowest_bit w k -> 0 <= i < 32 ->
  Z.testbit (JS.and w (w - 1)) i = Z.testbit w i && negb (i =? k).
Proof.
  intros (Hk & Hset & Hlow) Hi.
  rewrite and_bits by lia. rewrite Z.min_l by lia.
  replace k with (Z.of_nat (Z.to_nat k)) in Hset, Hlow by lia.
  rewrite (pred_bits (Z.to_nat k) w i Hset Hlow) by lia.
  rewrite Z2Nat.id by lia.
  destruct (Z.ltb_spec i k), (Z.eqb_spec i k); try lia; simpl;
    try (rewrite Hlow by lia); by destruct (Z.testbit w i).
Qed.

Lemma and_opp_bits w k i :
  lowest_bit w k -> 0 <= i < 32 ->
  Z.testbit (JS.and w (- w)) i = (i =? k).
Proof.
  intros (Hk & Hset & Hlow) Hi.
  rewrite and_bits by lia. rewrite Z.min_l by lia.
  replace (- w) with (Z.lnot (w - 1)) by (unfold Z.lnot; lia).
  rewrite Z.lnot_spec by lia.
  replace k with (Z.of_nat (Z.to_nat k)) in Hset, Hlow by lia.
  rewrite (pred_bits (Z.to_nat k) w i Hset Hlow) by lia.
  rewrite Z2Nat.id in * by lia.
  destruct (Z.ltb_spec i k), (Z.eqb_spec i k); try lia; simpl;
    try (rewrite Hlow by lia); try (subst i; rewrite Hset; done);
    by destruct (Z.testbit w i).
Qed.

Lemma tzcnt32_lowest w k : lowest_bit w k -> tzcnt32 w = k.
Proof.
  intros Hlb. pose proof Hlb as (Hk & Hset & Hlow).
  unfold tzcnt32. destruct (Z.eqb_spec w 0) as [->|Hne].
  { by rewrite Z.bits_0 in Hset. }
  unfold JS.clz32.
  assert (JS.ToUint32 (JS.and w (- w)) = 2 ^ k) as ->.
  { apply Z.bits_inj'. intros i Hi.
    rewrite testbit_ToUint32 by done.
    rewrite Z.pow2_bits_eqb by lia.
    destruct (Z.ltb_spec i 32).
    - rewrite (and_opp_bits w k) by (done || lia). apply Z.eqb_sym.
    - symmetry. apply Z.eqb_neq. lia. }
  destruct (Z.eqb_spec (2 ^ k) 0) as [E|_]; [lia|].
  rewrite Z.log2_pow2 by lia. lia.
Qed.

(** A non-zero faithful word has a lowest set bit at or above any bound
    below which it is clear. *)
Lemma find_lowest w (n : nat) lo :
  0 <= lo -> lo + Z.of_nat n <= 32 ->
  (forall j, 0 <= j < lo -> Z.testbit w j = false) ->
  (exists k, lo <= k /\ lowest_bit w k) \/
  (forall j, 0 <= j < lo + Z.of_nat n -> Z.testbit w j = false).
Proof.
  revert lo. induction n as [|n IH]; intros lo Hlo Hn Hlow.
  - right. intros j Hj. apply Hlow. lia.
  - destruct (Z.testbit w lo) eqn:E.
    + left. exists lo. split; [lia|]. split; [lia|]. done.
    + destruct (IH (lo + 1)) as [(k & Hk & Hlb)|Hall]; try lia.
      * intros j Hj. destruct (Z.eq_dec j lo) as [->|]; [done|apply Hlow; lia].
      * left. exists k. split; [lia|done].
      * right. intros j Hj. apply Hall. lia.
Qed.

Lemma scan_select (g : Z -> list Z) body : 
  (forall b, 0 <= b < 32 -> body b = Some (g b)) ->
  forall fuel lo w,
  word32 w -> 0 <= lo <= 32 ->
  (forall j, 0 <= j < lo -> Z.testbit w j = false) ->
  (Z.to_nat (32 - lo) <= fuel)%nat ->
  scan fuel w body = Some (concat (g <$> select (Z.testbit w) (Z.to_nat (32 - lo)) lo)).
Proof.
  intros Hbody fuel. induction fuel as [|fuel IH]; intros lo w Hw Hlo Hlow Hfuel.
  - assert (lo = 32) as -> by lia. simpl.
    rewrite Hw; [done|]. intros i Hi. apply Hlow. lia.
  - destruct (find_lowest w (Z.to_nat (32 - lo)) lo) as [(k & Hk & Hlb)|Hall];
      try lia; try done.
    + pose proof Hlb as (Hk32 & Hset & Hlowk).
      assert (w <> 0) as Hne by (intros ->; by rewrite Z.bits_0 in Hset).
      simpl. destruct (Z.eqb_spec w 0); [done|].
      rewrite (tzcnt32_lowest w k Hlb), Hbody by lia. simpl.
      rewrite (IH (k + 1) (JS.and w (w - 1))); try lia.
      * simpl. f_equal.
        rewrite (select_ext (Z.testbit (JS.and w (w - 1))) (Z.testbit w)).
        2:{ intros i Hi. rewrite (and_pred_bits w k) by (done || lia).
            destruct (Z.eqb_spec i k); [lia|]. by rewrite andb_true_r. }
        replace (Z.to_nat (32 - lo))
          with (Z.to_nat (k - lo) + S (Z.to_nat (32 - (k + 1))))%nat by lia.
        rewrite select_app, (select_nil _ (Z.to_nat (k - lo))) by (intros; apply Hlowk; lia).
        rewrite Z2Nat.id by lia. replace (lo + (k - lo)) with k by lia.
        rewrite select_S, Hset. done.
      * apply word32_and.
      * intros j Hj. rewrite (and_pred_bits w k) by (done || lia).
        destruct (Z.eqb_spec j k) as [->|]; [by rewrite andb_false_r|].
        rewrite Hlowk by lia. done.
    + assert (w = 0) as -> by (apply Hw; intros; apply Hall; lia).
      simpl. rewrite select_nil; [done|]. intros. apply Z.bits_0.
Qed.

Lemma scan32 (g : Z -> list Z) body w :
  (forall b, 0 <= b < 32 -> body b = Some (g b)) -> word32 w ->
  scan 32 w body = Some (concat (g <$> select (Z.testbit w) 32 0)).
Proof.
  intros Hbody Hw.
  apply (scan_select g body Hbody 32%nat 0 w); try done. lia.
Qed.

(** ** The two-level walk *)

Lemma scan_bottom_select bi w :
  0 <= bi < 2 ^ 26 -> word32 w ->
  scan_bottom bi (Some w) = Some (select (fun k => Z.testbit w (k - 32 * bi)) 32 (32 * bi)).
Proof.
  intros Hbi Hw. unfold scan_bottom.
  rewrite (scan32 (fun b => [32 * bi + b])); [|by intros b Hb; rewrite index_or|done].
  f_equal. transitivity ((fun b => 32 * bi + b) <$> select (Z.testbit w) 32 0).
  - generalize (select (Z.testbit w) 32 0). intros l.
    induction l as [|x l IH]; [done|]. simpl. f_equal. apply IH.
  - by rewrite select_shift, Z.add_0_r.
Qed.

Lemma concat_blocks (Q : Z -> bool) (g : Z -> list Z) (P : Z -> bool) base n : forall lo,
  (forall tb, lo <= tb < lo + Z.of_nat n -> Q tb = true -> g tb = select P 32 (base + 32 * tb)) ->
  (forall tb, lo <= tb < lo + Z.of_nat n -> Q tb = false -> select P 32 (base + 32 * tb) = []) ->
  concat (g <$> select Q n lo) = select P (32 * n) (base + 32 * lo).
Proof.
  induction n as [|n IH]; intros lo Hset Hclr.
  - by rewrite Nat.mul_0_r.
  - replace (32 * S n)%nat with (32 + 32 * n)%nat by lia.
    rewrite select_app, (select_S Q).
    replace (base + 32 * lo + Z.of_nat 32) with (base + 32 * (lo + 1)) by lia.
    rewrite fmap_app, concat_app, IH.
    + f_equal. destruct (Q lo) eqn:E.
      * simpl. rewrite app_nil_r. apply Hset; [lia|done].
      * simpl. symmetry. apply Hclr; [lia|done].
    + intros tb Htb. apply Hset. lia.
    + intros tb Htb. apply Hclr. lia.
Qed.

Lemma for_range_blocks body (P : Z -> bool) n : forall i,
  (forall j, i <= j < i + Z.of_nat n -> body j = Some (select P 1024 (1024 * j))) ->
  for_range n i body = Some (select P (1024 * n) (1024 * i)).
Proof.
  induction n as [|n IH]; intros i Hbody.
  - by rewrite Nat.mul_0_r.
  - cbn [for_range]. rewrite Hbody by lia. cbn [mbind option_bind].
    rewrite IH by (intros j Hj; apply Hbody; lia). cbn [mbind option_bind]. f_equal.
    replace (1024 * S n)%nat with (1024 + 1024 * n)%nat by lia.
    rewrite select_app. do 2 f_equal. lia.
Qed.

Lemma walk_spec (topLen : nat) T B :
  Z.of_nat topLen <= 2 ^ 21 ->
  (forall ti, 0 <= ti < Z.of_nat topLen -> word32 (T ti)) ->
  (forall bi w, B bi = Some w -> word32 w) ->
  (forall ti tb, 0 <= ti < Z.of_nat topLen -> 0 <= tb < 32 ->
     Z.testbit (T ti) tb = true -> is_Some (B (32 * ti + tb))) ->
  walk topLen T B = Some (select (walk_pred T B) (1024 * topLen) 0).
Proof.
  intros Hlen HT HB Hdef. unfold walk.
  rewrite (for_range_blocks _ (walk_pred T B)); [done|].
  intros ti Hti.
  set (g := fun tb =>
    match B (32 * ti + tb) with
    | Some w => select (fun k => Z.testbit w (k - 32 * (32 * ti + tb))) 32 (32 * (32 * ti + tb))
    | None => [JS.or (JS.shl (32 * ti + tb) 5) (-1)]
    end).
  rewrite (scan32 g).
  - f_equal.
    rewrite (concat_blocks _ g (walk_pred T B) (1024 * ti) 32 0).
    + f_equal. lia.
    + intros tb Htb Hset. unfold g.
      destruct (Hdef ti tb) as [w Hw]; [lia|lia|done|]. rewrite Hw.
      replace (1024 * ti + 32 * tb) with (32 * (32 * ti + tb)) by lia.
      apply select_ext. intros k Hk. unfold walk_pred.
      assert (k / 32 = 32 * ti + tb) as Hk32 by (Z.div_mod_to_equations; lia).
      assert (k / 1024 = ti) as -> by (Z.div_mod_to_equations; lia).
      rewrite Hk32.
      replace ((32 * ti + tb) mod 32) with tb by (Z.div_mod_to_equations; lia).
      rewrite Hset, Hw. simpl. f_equal. Z.div_mod_to_equations; lia.
    + intros tb Htb Hclr. apply select_nil. intros k Hk. unfold walk_pred.
      assert (k / 32 = 32 * ti + tb) as Hk32 by (Z.div_mod_to_equations; lia).
      assert (k / 1024 = ti) as -> by (Z.div_mod_to_equations; lia).
      rewrite Hk32.
      replace ((32 * ti + tb) mod 32) with tb by (Z.div_mod_to_equations; lia).
      by rewrite Hclr.
  - intros tb Htb. rewrite index_or by lia. unfold g.
    destruct (B (32 * ti + tb)) as [w|] eqn:E; [|done].
    apply scan_bottom_select; [lia|]. by eapply HB.
  - apply HT. lia.
Qed.

(** ** Typed-array reads and writes *)

Lemma get_lt {A} (l : list A) i : 0 <= i < Z.of_nat (length l) -> is_Some (JS.get l i).
Proof.
  intros Hi. unfold JS.get. destruct (Z.ltb_spec i 0); [lia|].
  apply lookup_lt_is_Some. lia.
Qed.

Lemma get_Some_lt {A} (l : list A) i x : JS.get l i = Some x -> 0 <= i < Z.of_nat (length l).
Proof.
  unfold JS.get. destruct (Z.ltb_spec i 0); [done|].
  intros H1. apply lookup_lt_Some in H1. lia.
Qed.

Lemma get_ge {A} (l : list A) i : Z.of_nat (length l) <= i -> JS.get l i = None.
Proof.
  intros Hi. unfold JS.get. destruct (Z.ltb_spec i 0); [done|].
  apply lookup_ge_None. lia.
Qed.

Lemma get_uint32 l i w : Forall uint32 l -> JS.get l i = Some w -> uint32 w.
Proof.
  unfold JS.get. destruct (i <? 0); [done|]. intros Hl Hw.
  eapply Forall_lookup_1; eauto.
Qed.

Lemma num_get_uint32 l i : Forall uint32 l -> uint32 (JS.num (JS.get l i)).
Proof.
  intros Hl. destruct (JS.get l i) eqn:E; simpl.
  - by eapply get_uint32.
  - unfold uint32. lia.
Qed.

Lemma get_set32_eq l i v :
  0 <= i < Z.of_nat (length l) -> JS.get (JS.set32 l i v) i = Some (JS.ToUint32 v).
Proof.
  intros Hi. unfold JS.get, JS.set32. destruct (Z.ltb_spec i 0); [lia|].
  apply list_lookup_insert_eq. lia.
Qed.

Lemma get_set32_ne l i j v : i <> j -> JS.get (JS.set32 l i v) j = JS.get l j.
Proof.
  intros Hij. unfold JS.get, JS.set32.
  destruct (Z.ltb_spec j 0); [done|]. destruct (Z.ltb_spec i 0); [done|].
  apply list_lookup_insert_ne. lia.
Qed.

Lemma length_set32 l i v : length (JS.set32 l i v) = length l.
Proof. unfold JS.set32. destruct (i <? 0); [done|]. apply length_insert. Qed.

Lemma Forall_set32 l i v : Forall uint32 l -> Forall uint32 (JS.set32 l i v).
Proof.
  intros Hl. unfold JS.set32. destruct (i <? 0); [done|].
  apply Forall_insert; [done|]. apply ToUint32_range.
Qed.

(** ** Single-bit test, set and clear as the sources write them *)

Lemma test_bit w b :
  0 <= b < 32 -> JS.truthy (JS.and w (JS.shl 1 b)) = Z.testbit w b.
Proof.
  intros Hb. unfold JS.truthy. destruct (Z.testbit w b) eqn:E.
  - apply negb_true_iff, Z.eqb_neq. intros H0.
    assert (Z.testbit (JS.and w (JS.shl 1 b)) b = true) as Hbit.
    { rewrite and_bits, shl1_bits by lia. rewrite !Z.min_l by lia.
      rewrite E. simpl. apply Z.eqb_refl. }
    rewrite H0, Z.bits_0 in Hbit. done.
  - apply negb_false_iff, Z.eqb_eq. apply Z.bits_inj'. intros i Hi.
    rewrite Z.bits_0, and_bits, shl1_bits by lia.
    replace (Z.min (Z.min i 31) 31) with (Z.min i 31) by lia.
    destruct (Z.eqb_spec (Z.min i 31) b) as [Hm|Hm].
    + rewrite Hm, E. done.
    + apply andb_false_r.
Qed.

Lemma set_bit_bits w b i :
  0 <= b < 32 -> 0 <= i < 32 ->
  Z.testbit (JS.ToUint32 (JS.or w (JS.shl 1 b))) i = Z.testbit w i || (i =? b).
Proof.
  intros Hb Hi. rewrite testbit_ToUint32 by lia.
  destruct (Z.ltb_spec i 32); [|lia].
  rewrite or_bits, shl1_bits by lia. by rewrite !Z.min_l by lia.
Qed.

Lemma clear_bit_bits w b i :
  0 <= b < 32 -> 0 <= i < 32 ->
  Z.testbit (JS.ToUint32 (JS.and w (JS.not (JS.shl 1 b)))) i = Z.testbit w i && negb (i =? b).
Proof.
  intros Hb Hi. rewrite testbit_ToUint32 by lia.
  destruct (Z.ltb_spec i 32); [|lia].
  rewrite and_bits, not_bits, shl1_bits by lia.
  rewrite !Z.min_l by lia. done.
Qed.

Lemma uint32_nonzero w :
  uint32 w -> (w <> 0 <-> exists i, 0 <= i < 32 /\ Z.testbit w i = true).
Proof.
  intros Hw. split.
  - intros Hne.
    destruct (find_lowest w 32 0) as [(k & _ & Hk & Hset & _)|Hall]; try lia.
    + by exists k.
    + exfalso. apply Hne. apply (word32_uint32 w Hw). intros. apply Hall. lia.
  - intros (i & Hi & Hset) ->. by rewrite Z.bits_0 in Hset.
Qed.

(** ** The capacity-doubling loop *)

Lemma double_while_spec cond min : 
  (forall x, cond x = (x <? min)) ->
  forall fuel n, 1 <= n -> min <= n * 2 ^ Z.of_nat fuel ->
  exists j, 0 <= j /\ double_while fuel cond n = Some (n * 2 ^ j)
            /\ min <= n * 2 ^ j /\ forall j', 0 <= j' < j -> n * 2 ^ j' < min.
Proof.
  intros Hcond fuel. induction fuel as [|fuel IH]; intros n Hn Hfuel.
  - exists 0. simpl in *. rewrite Hcond. destruct (Z.ltb_spec n min); [lia|].
    repeat split; (lia || f_equal; lia).
  - simpl. rewrite Hcond. destruct (Z.ltb_spec n min) as [Hlt|Hge].
    + destruct (IH (n * 2)) as (j & Hj & Hrun & Hmin & Hleast); [lia| |].
      { rewrite Nat2Z.inj_succ, Z.pow_succ_r in Hfuel by lia. lia. }
      exists (j + 1). rewrite Z.pow_add_r by lia. change (2 ^ 1) with 2.
      split; [lia|]. split; [rewrite Hrun; f_equal; lia|]. split; [lia|].
      intros j' Hj'. destruct (Z.eq_dec j' 0) as [->|]; [simpl; lia|].
      specialize (Hleast (j' - 1) ltac:(lia)).
      replace j' with (j' - 1 + 1) by lia. rewrite Z.pow_add_r by lia. lia.
    + exists 0. repeat split; (lia || f_equal; lia).
Qed.

Lemma double_while_total cond min n :
  (forall x, cond x = (x <? min)) -> 1 <= n ->
  exists j, 0 <= j /\ double_while (Z.to_nat min) cond n = Some (n * 2 ^ j)
            /\ min <= n * 2 ^ j /\ forall j', 0 <= j' < j -> n * 2 ^ j' < min.
Proof.
  intros Hcond Hn. apply double_while_spec; [done..|].
  destruct (Z.le_gt_cases min 0).
  - rewrite Z2Nat.nonpos by done. simpl. lia.
  - rewrite Z2Nat.id by lia. pose proof (Z.pow_gt_lin_r 2 min ltac:(lia) ltac:(lia)). nia.
Qed.

(** With a capacity of 0 the loop never finishes, whatever the fuel. *)
Lemma double_while_zero cond min fuel :
  (forall x, cond x = (x <? min)) -> 0 < min -> double_while fuel cond 0 = None.
Proof.
  intros Hcond Hmin. induction fuel as [|fuel IH]; simpl; rewrite Hcond;
    destruct (Z.ltb_spec 0 min); try lia; done.
Qed.

(** ** Bits of a packed array under a single-bit update *)

Lemma block_eqb j k : 0 <= j -> 0 <= k -> j / 32 = k / 32 -> (j mod 32 =? k mod 32) = (j =? k).
Proof.
  intros Hj Hk Hq.
  destruct (Z.eqb_spec (j mod 32) (k mod 32)), (Z.eqb_spec j k); try done.
  - exfalso. Z.div_mod_to_equations. lia.
  - subst. done.
Qed.

Lemma bit_at_set l k j :
  0 <= k -> k / 32 < Z.of_nat (length l) -> 0 <= j ->
  bit_at (JS.set32 l (k / 32) (JS.or (JS.num (JS.get l (k / 32))) (JS.shl 1 (k mod 32)))) j
  = bit_at l j || (j =? k).
Proof.
  intros Hk Hlen Hj. unfold bit_at.
  assert (0 <= k / 32) by (apply Z.div_pos; lia).
  assert (0 <= k mod 32 < 32) by (apply Z.mod_pos_bound; lia).
  assert (0 <= j mod 32 < 32) by (apply Z.mod_pos_bound; lia).
  destruct (Z.eq_dec (j / 32) (k / 32)) as [Heq|Hne].
  - rewrite Heq, get_set32_eq by lia. simpl.
    rewrite set_bit_bits by lia. by rewrite block_eqb.
  - rewrite get_set32_ne by done.
    destruct (Z.eqb_spec j k) as [->|]; [done|]. by rewrite orb_false_r.
Qed.

Lemma bit_at_clear l k j :
  0 <= k -> k / 32 < Z.of_nat (length l) -> 0 <= j ->
  bit_at (JS.set32 l (k / 32) (JS.and (JS.num (JS.get l (k / 32))) (JS.not (JS.shl 1 (k mod 32))))) j
  = bit_at l j && negb (j =? k).
Proof.
  intros Hk Hlen Hj. unfold bit_at.
  assert (0 <= k / 32) by (apply Z.div_pos; lia).
  assert (0 <= k mod 32 < 32) by (apply Z.mod_pos_bound; lia).
  assert (0 <= j mod 32 < 32) by (apply Z.mod_pos_bound; lia).
  destruct (Z.eq_dec (j / 32) (k / 32)) as [Heq|Hne].
  - rewrite Heq, get_set32_eq by lia. simpl.
    rewrite clear_bit_bits by lia. by rewrite block_eqb.
  - rewrite get_set32_ne by done.
    destruct (Z.eqb_spec j k) as [->|]; [done|]. by rewrite andb_true_r.
Qed.

(** A word is non-zero iff one of its block's bits is set. *)
Lemma word_nonzero_bit l i :
  Forall uint32 l -> 0 <= i ->
  (JS.num (JS.get l i) <> 0 <-> exists k, 0 <= k /\ k / 32 = i /\ bit_at l k = true).
Proof.
  intros Hl Hi. rewrite (uint32_nonzero _ (num_get_uint32 l i Hl)). split.
  - intros (b & Hb & Hset). exists (32 * i + b).
    assert ((32 * i + b) / 32 = i) as Hq by (Z.div_mod_to_equations; lia).
    assert ((32 * i + b) mod 32 = b) as Hr by (Z.div_mod_to_equations; lia).
    split; [lia|]. split; [done|]. unfold bit_at. by rewrite Hq, Hr.
  - intros (k & Hk & Hq & Hset). exists (k mod 32).
    split; [apply Z.mod_pos_bound; lia|]. unfold bit_at in Hset. by rewrite Hq in Hset.
Qed.

Lemma bit_at_app_zeros l n k : bit_at (l ++ replicate n 0) k = bit_at l k.
Proof.
  unfold bit_at. f_equal. unfold JS.get. destruct (k / 32 <? 0); [done|].
  destruct (decide (Z.to_nat (k / 32) < length l)%nat).
  - by rewrite lookup_app_l.
  - rewrite lookup_app_r by lia. rewrite (lookup_ge_None_2 l) by lia.
    destruct (replicate n 0 !! _) eqn:E; [|done].
    apply lookup_replicate in E as [-> _]. done.
Qed.

Lemma num_get_app_zeros l n i : JS.num (JS.get (l ++ replicate n 0) i) = JS.num (JS.get l i).
Proof.
  unfold JS.get. destruct (i <? 0); [done|].
  destruct (decide (Z.to_nat i < length l)%nat).
  - by rewrite lookup_app_l.
  - rewrite lookup_app_r by lia. rewrite (lookup_ge_None_2 l) by lia.
    destruct (replicate n 0 !! _) eqn:E; [|done].
    apply lookup_replicate in E as [-> _]. done.
Qed.

Lemma bit_at_zeros n k : bit_at (replicate n 0) k = false.
Proof.
  unfold bit_at, JS.get. destruct (k / 32 <? 0); [apply Z.bits_0|].
  destruct (replicate n 0 !! _) eqn:E; simpl; [|apply Z.bits_0].
  apply lookup_replicate in E as [-> _]. apply Z.bits_0.
Qed.

(** ** BitSet: membership, construction and growth *)

Lemma has_spec s k : BitSet_wf s -> 0 <= k -> BitSet.has s k = bit_at (BitSet.bottom s) k.
Proof.
  intros Hwf Hk. unfold BitSet.has.
  destruct (Z.geb_spec k (BitSet.capacity s)) as [Hge|Hlt].
  - destruct (bit_at (BitSet.bottom s) k) eqn:E; [|done].
    apply (wf_below s Hwf) in E; lia.
  - pose proof (wf_cap s Hwf).
    rewrite ushr5, and31 by lia.
    fold (JS.truthy (JS.and (JS.num (JS.get (BitSet.bottom s) (k / 32))) (JS.shl 1 (k mod 32)))).
    rewrite test_bit by (apply Z.mod_pos_bound; lia). done.
Qed.

Lemma words_of cap : 0 <= cap <= 2 ^ 31 -> JS.ushr (cap + 31) 5 = (cap + 31) / 32.
Proof. intros. apply ushr5. lia. Qed.

Lemma new_wf cap : 1 <= cap <= 2 ^ 31 -> BitSet_wf (BitSet.new cap).
Proof.
  intros Hcap. unfold BitSet.new.
  assert (0 <= (cap + 31) / 32 <= 2 ^ 26) by (Z.div_mod_to_equations; lia).
  rewrite (words_of cap) by lia. rewrite (words_of ((cap + 31) / 32)) by lia.
  constructor; unfold two_level; simpl.
  - done.
  - rewrite length_replicate. lia.
  - rewrite !length_replicate. rewrite (Z2Nat.id ((cap + 31) / 32)) by lia.
    apply Z2Nat.id. apply Z.div_pos; lia.
  - apply Forall_replicate. unfold uint32. lia.
  - apply Forall_replicate. unfold uint32. lia.
  - intros k _. by rewrite bit_at_zeros.
  - intros i _. rewrite bit_at_zeros. split; [done|].
    intros Hne. exfalso. apply Hne. unfold JS.get. destruct (i <? 0); [done|].
    destruct (replicate _ 0 !! _) eqn:E; [|done].
    apply lookup_replicate in E as [-> _]. done.
Qed.

Lemma alloc_copy_ok n old :
  Z.of_nat (length old) <= n ->
  JS.alloc_copy n old = Some (old ++ replicate (Z.to_nat n - length old) 0).
Proof. intros H. unfold JS.alloc_copy. destruct (Z.leb_spec (Z.of_nat (length old)) n); [done|lia]. Qed.

Lemma grow_spec s key :
  BitSet_wf s -> BitSet.capacity s <= key < 2 ^ 30 ->
  exists s' j,
    BitSet.grow s (key + 1) = Some s' /\ BitSet_wf s'
    /\ 1 <= j /\ BitSet.capacity s' = BitSet.capacity s * 2 ^ j
    /\ key + 1 <= BitSet.capacity s'
    /\ (forall j', 0 <= j' < j -> BitSet.capacity s * 2 ^ j' < key + 1)
    /\ BitSet.count s' = BitSet.count s
    /\ (exists n, BitSet.bottom s' = BitSet.bottom s ++ replicate n 0)
    /\ (exists n, BitSet.top s' = BitSet.top s ++ replicate n 0).
Proof.
  intros Hwf Hkey. pose proof (wf_cap s Hwf) as Hcap.
  destruct (double_while_total (fun n => n <? key + 1) (key + 1) (BitSet.capacity s))
    as (j & Hj & Hrun & Hmin & Hleast); [done|lia|].
  assert (1 <= j) as Hj1.
  { destruct (Z.eq_dec j 0) as [->|]; [|lia]. simpl in Hmin. lia. }
  set (cap' := BitSet.capacity s * 2 ^ j) in *.
  assert (cap' < 2 ^ 31) as Hcap'.
  { specialize (Hleast (j - 1) ltac:(lia)). unfold cap'.
    replace j with (j - 1 + 1) by lia. rewrite Z.pow_add_r by lia. lia. }
  assert (BitSet.capacity s <= cap') as Hmono by lia.
  unfold BitSet.grow. rewrite Hrun. cbn [mbind option_bind].
  rewrite (words_of cap') by lia.
  assert (0 <= (cap' + 31) / 32 <= 2 ^ 26) by (Z.div_mod_to_equations; lia).
  rewrite (words_of ((cap' + 31) / 32)) by lia.
  pose proof (wf_bottom_len s Hwf) as Hbl. pose proof (wf_top_len s Hwf) as Htl.
  assert (Z.of_nat (length (BitSet.bottom s)) <= (cap' + 31) / 32) as Hble.
  { rewrite Hbl. apply Z.div_le_mono; lia. }
  assert (Z.of_nat (length (BitSet.top s)) <= ((cap' + 31) / 32 + 31) / 32) as Htle.
  { rewrite Htl. apply Z.div_le_mono; lia. }
  rewrite !alloc_copy_ok by done. cbn [mbind option_bind].
  eexists _, j. split; [done|]. split; [|simpl; by eauto 10].
  constructor; unfold two_level; simpl.
  - lia.
  - rewrite length_app, length_replicate. lia.
  - rewrite !length_app, !length_replicate. 
    replace (Z.of_nat (length (BitSet.bottom s) + (Z.to_nat ((cap' + 31) / 32) - length (BitSet.bottom s))))
      with ((cap' + 31) / 32) by lia.
    lia.
  - apply Forall_app. split; [apply (wf_bottom_range s Hwf)|].
    apply Forall_replicate. unfold uint32. lia.
  - apply Forall_app. split; [apply (wf_top_range s Hwf)|].
    apply Forall_replicate. unfold uint32. lia.
  - intros k Hk. rewrite bit_at_app_zeros. intros Hb.
    apply (wf_below s Hwf) in Hb; lia.
  - intros i Hi. rewrite bit_at_app_zeros, num_get_app_zeros. by apply (wf_summary s Hwf).
Qed.

(** A BitSet constructed with capacity 0 cannot grow: the doubling loop
    stays at 0 (whatever the fuel, see [double_while_zero]). *)
Lemma grow_zero_capacity s key :
  BitSet.capacity s = 0 -> 0 <= key -> BitSet.grow s (key + 1) = None.
Proof.
  intros Hcap Hkey. unfold BitSet.grow.
  rewrite Hcap, (double_while_zero _ (key + 1)); [done|done|lia].
Qed.

(** ** BitSet: add, remove, clear *)

Lemma index_bounds s k :
  BitSet_wf s -> 0 <= k < BitSet.capacity s ->
  0 <= k / 32 < Z.of_nat (length (BitSet.bottom s))
  /\ 0 <= k / 32 / 32 < Z.of_nat (length (BitSet.top s))
  /\ k < 2 ^ 31 /\ k / 32 < 2 ^ 26.
Proof.
  intros Hwf Hk. pose proof (wf_cap s Hwf).
  rewrite (wf_top_len s Hwf), (wf_bottom_len s Hwf).
  Z.div_mod_to_equations. lia.
Qed.

Lemma nonzero_of_bit w b : Z.testbit w b = true -> w <> 0.
Proof. intros Hb ->. by rewrite Z.bits_0 in Hb. Qed.

Lemma add_fit s k :
  BitSet_wf s -> 0 <= k < BitSet.capacity s ->
  exists s',
    BitSet.add s k = Some (negb (BitSet.has s k), s')
    /\ BitSet_wf s'
    /\ (forall j, 0 <= j -> bit_at (BitSet.bottom s') j = bit_at (BitSet.bottom s) j || (j =? k))
    /\ BitSet.count s' = BitSet.count s + (if BitSet.has s k then 0 else 1)
    /\ BitSet.capacity s' = BitSet.capacity s.
Proof.
  intros Hwf Hk. destruct (index_bounds s k Hwf Hk) as (Hwi & Hti & Hk31 & Hw26).
  assert (0 <= k mod 32 < 32) as Hbit by (apply Z.mod_pos_bound; lia).
  assert (0 <= (k / 32) mod 32 < 32) as Htbit by (apply Z.mod_pos_bound; lia).
  rewrite has_spec by (done || lia). unfold BitSet.add.
  destruct (Z.geb_spec k (BitSet.capacity s)); [lia|]. cbn [mbind option_bind].
  rewrite !ushr5, !and31 by lia. rewrite test_bit by done.
  fold (bit_at (BitSet.bottom s) k).
  destruct (bit_at (BitSet.bottom s) k) eqn:Hhas.
  - exists s. split; [done|]. split; [done|]. split; [|split; [lia|done]].
    intros j Hj. destruct (Z.eqb_spec j k) as [->|]; [by rewrite Hhas|by rewrite orb_false_r].
  - eexists. split; [done|]. simpl.
    assert (forall j, 0 <= j ->
      bit_at (JS.set32 (BitSet.bottom s) (k / 32)
                (JS.or (JS.num (JS.get (BitSet.bottom s) (k / 32))) (JS.shl 1 (k mod 32)))) j
      = bit_at (BitSet.bottom s) j || (j =? k)) as Hbits
      by (intros; apply bit_at_set; lia).
    split; [|split; [done|split; [lia|done]]].
    pose proof (wf_cap s Hwf). constructor; unfold two_level; simpl.
    + done.
    + rewrite length_set32. apply (wf_bottom_len s Hwf).
    + rewrite !length_set32. apply (wf_top_len s Hwf).
    + apply Forall_set32, (wf_bottom_range s Hwf).
    + apply Forall_set32, (wf_top_range s Hwf).
    + intros j Hj. rewrite Hbits by done. intros Hor.
      apply orb_true_iff in Hor as [Hb|Heq]; [by apply (wf_below s Hwf)|].
      apply Z.eqb_eq in Heq. lia.
    + intros i Hi. rewrite bit_at_set by lia.
      destruct (Z.eqb_spec i (k / 32)) as [->|Hne].
      * rewrite orb_true_r. split; [intros _|done].
        rewrite get_set32_eq by lia. simpl.
        apply (nonzero_of_bit _ (k mod 32)).
        rewrite set_bit_bits by lia. by rewrite Z.eqb_refl, orb_true_r.
      * rewrite orb_false_r, get_set32_ne by done. by apply (wf_summary s Hwf).
Qed.

Lemma add_after_grow s s1 k :
  BitSet.capacity s <= k -> BitSet.grow s (k + 1) = Some s1 -> k < BitSet.capacity s1 ->
  BitSet.add s k = BitSet.add s1 k.
Proof.
  intros Hge Hgrow Hlt. unfold BitSet.add.
  destruct (Z.geb_spec k (BitSet.capacity s)); [|lia].
  destruct (Z.geb_spec k (BitSet.capacity s1)); [lia|].
  rewrite Hgrow. done.
Qed.

(** [add] on a well-formed set: it returns (no loop runs forever, no copy
    fails), reports whether the key was absent, keeps the invariant, sets
    exactly bit [k], and never shrinks the capacity. *)
Lemma add_spec s k :
  BitSet_wf s -> 0 <= k -> k < BitSet.capacity s \/ k < 2 ^ 30 ->
  exists s',
    BitSet.add s k = Some (negb (BitSet.has s k), s')
    /\ BitSet_wf s'
    /\ (forall j, 0 <= j -> bit_at (BitSet.bottom s') j = bit_at (BitSet.bottom s) j || (j =? k))
    /\ BitSet.count s' = BitSet.count s + (if BitSet.has s k then 0 else 1)
    /\ BitSet.capacity s <= BitSet.capacity s'
    /\ (k < BitSet.capacity s -> BitSet.capacity s' = BitSet.capacity s).
Proof.
  intros Hwf Hk Hbound.
  destruct (Z.lt_ge_cases k (BitSet.capacity s)) as [Hlt|Hge].
  - destruct (add_fit s k Hwf ltac:(lia)) as (s' & ? & ? & ? & ? & ?).
    exists s'. do 4 (split; [done|]). split; [lia|done].
  - destruct (grow_spec s k Hwf ltac:(lia))
      as (s1 & j & Hgrow & Hwf1 & Hj & Hcap1 & Hfit & _ & Hcount & [n Hbot] & _).
    destruct (add_fit s1 k Hwf1 ltac:(lia)) as (s' & Hadd & Hwf' & Hbits & Hcnt & Hcap').
    assert (BitSet.has s1 k = BitSet.has s k) as Hhas.
    { rewrite !has_spec by (done || lia). by rewrite Hbot, bit_at_app_zeros. }
    exists s'. rewrite (add_after_grow s s1 k) by (done || lia).
    rewrite <- Hhas. split; [done|]. split; [done|].
    split; [|split; [lia|split; [|lia]]].
    + intros i Hi. rewrite Hbits by done. by rewrite Hbot, bit_at_app_zeros.
    + rewrite Hcap', Hcap1. pose proof (wf_cap s Hwf).
      pose proof (Z.pow_pos_nonneg 2 j ltac:(lia) ltac:(lia)). nia.
Qed.

Lemma remove_spec s k :
  BitSet_wf s -> 0 <= k ->
  (BitSet.remove s k).1 = BitSet.has s k
  /\ BitSet_wf (BitSet.remove s k).2
  /\ (forall j, 0 <= j ->
        bit_at (BitSet.bottom (BitSet.remove s k).2) j
        = bit_at (BitSet.bottom s) j && negb (j =? k))
  /\ BitSet.count (BitSet.remove s k).2 = BitSet.count s - (if BitSet.has s k then 1 else 0)
  /\ BitSet.capacity (BitSet.remove s k).2 = BitSet.capacity s.
Proof.
  intros Hwf Hk. rewrite has_spec by done. unfold BitSet.remove.
  destruct (Z.geb_spec k (BitSet.capacity s)) as [Hge|Hlt]; simpl.
  - assert (bit_at (BitSet.bottom s) k = false) as Hno.
    { destruct (bit_at (BitSet.bottom s) k) eqn:E; [|done].
      apply (wf_below s Hwf) in E; lia. }
    rewrite Hno. split; [done|]. split; [done|]. split; [|split; [lia|done]].
    intros j Hj. destruct (Z.eqb_spec j k) as [->|]; [by rewrite Hno|by rewrite andb_true_r].
  - destruct (index_bounds s k Hwf ltac:(lia)) as (Hwi & Hti & Hk31 & Hw26).
    assert (0 <= k mod 32 < 32) as Hbit by (apply Z.mod_pos_bound; lia).
    assert (0 <= (k / 32) mod 32 < 32) as Htbit by (apply Z.mod_pos_bound; lia).
    rewrite !ushr5, !and31 by lia. rewrite test_bit by done.
    fold (bit_at (BitSet.bottom s) k).
    destruct (bit_at (BitSet.bottom s) k) eqn:Hhas; simpl.
    + assert (forall j, 0 <= j ->
        bit_at (JS.set32 (BitSet.bottom s) (k / 32)
                  (JS.and (JS.num (JS.get (BitSet.bottom s) (k / 32))) (JS.not (JS.shl 1 (k mod 32))))) j
        = bit_at (BitSet.bottom s) j && negb (j =? k)) as Hbits
        by (intros; apply bit_at_clear; lia).
      split; [done|]. split; [|split; [done|split; [lia|done]]].
      pose proof (wf_cap s Hwf). constructor; unfold two_level; simpl.
      * done.
      * rewrite length_set32. apply (wf_bottom_len s Hwf).
      * rewrite length_set32. case_bool_decide; rewrite ?length_set32; apply (wf_top_len s Hwf).
      * apply Forall_set32, (wf_bottom_range s Hwf).
      * case_bool_decide; [apply Forall_set32|]; apply (wf_top_range s Hwf).
      * intros j Hj. rewrite Hbits by done. intros Hand.
        apply andb_true_iff in Hand as [Hb _]. by apply (wf_below s Hwf).
      * intros i Hi. case_bool_decide as Hzero.
        -- rewrite bit_at_clear by lia.
           destruct (Z.eqb_spec i (k / 32)) as [->|Hne].
           ++ rewrite andb_false_r, Hzero. simpl. split; done.
           ++ rewrite andb_true_r, get_set32_ne by done. by apply (wf_summary s Hwf).
        -- destruct (Z.eq_dec i (k / 32)) as [->|Hne].
           ++ rewrite get_set32_eq in * by lia. simpl. split.
              ** intros _ Hz. apply Hzero. by rewrite Hz.
              ** intros _. apply (wf_summary s Hwf); [lia|].
                 apply (nonzero_of_bit _ (k mod 32)). apply Hhas.
           ++ rewrite get_set32_ne by done. by apply (wf_summary s Hwf).
    + split; [done|]. split; [done|]. split; [|split; [lia|done]].
      intros j Hj. destruct (Z.eqb_spec j k) as [->|]; [by rewrite Hhas|by rewrite andb_true_r].
Qed.

Lemma clear_wf s : BitSet_wf s -> BitSet_wf (BitSet.clear s).
Proof.
  intros Hwf. constructor; unfold two_level; simpl.
  - apply (wf_cap s Hwf).
  - rewrite length_replicate. apply (wf_bottom_len s Hwf).
  - rewrite !length_replicate. apply (wf_top_len s Hwf).
  - apply Forall_replicate. unfold uint32. lia.
  - apply Forall_replicate. unfold uint32. lia.
  - intros k _. by rewrite bit_at_zeros.
  - intros i _. rewrite bit_at_zeros. split; [done|].
    intros Hne. exfalso. apply Hne. unfold JS.get. destruct (i <? 0); [done|].
    destruct (replicate _ 0 !! _) eqn:E; [|done].
    apply lookup_replicate in E as [-> _]. done.
Qed.

(** ** The visiting functions on well-formed sets *)

Lemma select_result P (n : nat) l :
  l = select P n 0 ->
  (forall k, 0 <= k -> P k = true -> k < Z.of_nat n) ->
  StronglySorted Z.lt l /\ forall k, k ∈ l <-> 0 <= k /\ P k = true.
Proof.
  intros -> Hbound. split; [apply select_sorted|].
  intros k. rewrite elem_of_select. split.
  - intros [? ?]. split; [lia|done].
  - intros [Hk HP]. split; [|done]. specialize (Hbound k Hk HP). lia.
Qed.

Lemma wf_top_of_bit s k :
  BitSet_wf s -> 0 <= k -> bit_at (BitSet.bottom s) k = true ->
  bit_at (BitSet.top s) (k / 32) = true
  /\ k < 1024 * Z.of_nat (length (BitSet.top s))
  /\ k / 32 < Z.of_nat (length (BitSet.bottom s)).
Proof.
  intros Hwf Hk Hbit. split; [|split].
  - apply (wf_summary s Hwf); [apply Z.div_pos; lia|].
    apply (nonzero_of_bit _ (k mod 32)). apply Hbit.
  - apply (wf_below s Hwf) in Hbit; [|done].
    rewrite (wf_top_len s Hwf), (wf_bottom_len s Hwf).
    Z.div_mod_to_equations. lia.
  - apply (wf_below s Hwf) in Hbit; [|done].
    rewrite (wf_bottom_len s Hwf). Z.div_mod_to_equations. lia.
Qed.

Lemma wf_top_len_bound s : BitSet_wf s -> Z.of_nat (length (BitSet.top s)) <= 2 ^ 21.
Proof.
  intros Hwf. pose proof (wf_cap s Hwf).
  rewrite (wf_top_len s Hwf), (wf_bottom_len s Hwf). Z.div_mod_to_equations. lia.
Qed.

(** Bit [tb] of top word [ti], and bit [k mod 32] of bottom word [k / 32],
    as [bit_at] of the packed arrays. *)
Lemma top_bit_at l ti tb :
  0 <= ti -> 0 <= tb < 32 ->
  Z.testbit (JS.num (JS.get l ti)) tb = bit_at l (32 * ti + tb).
Proof.
  intros Hti Htb. unfold bit_at.
  replace ((32 * ti + tb) / 32) with ti by (Z.div_mod_to_equations; lia).
  replace ((32 * ti + tb) mod 32) with tb by (Z.div_mod_to_equations; lia). done.
Qed.

Lemma key_top_bit l k :
  0 <= k -> Z.testbit (JS.num (JS.get l (k / 1024))) ((k / 32) mod 32) = bit_at l (k / 32).
Proof.
  intros Hk. unfold bit_at. do 2 f_equal. f_equal.
  Z.div_mod_to_equations. lia.
Qed.

Lemma wf_bottom_defined s ti tb :
  BitSet_wf s -> 0 <= ti -> 0 <= tb < 32 ->
  Z.testbit (JS.num (JS.get (BitSet.top s) ti)) tb = true ->
  is_Some (JS.get (BitSet.bottom s) (32 * ti + tb)).
Proof.
  intros Hwf Hti Htb Hbit. rewrite top_bit_at in Hbit by done.
  apply (wf_summary s Hwf) in Hbit; [|lia].
  destruct (JS.get (BitSet.bottom s) (32 * ti + tb)); [by eexists|done].
Qed.

Lemma forEach_select s :
  BitSet_wf s ->
  BitSet.forEach s = Some (select (bit_at (BitSet.bottom s)) (1024 * length (BitSet.top s)) 0).
Proof.
  intros Hwf. unfold BitSet.forEach.
  rewrite walk_spec.
  - f_equal. apply select_ext. intros k Hk. unfold walk_pred.
    rewrite key_top_bit by lia. fold (bit_at (BitSet.bottom s) k).
    destruct (bit_at (BitSet.bottom s) k) eqn:E; [|by rewrite andb_false_r].
    destruct (wf_top_of_bit s k Hwf ltac:(lia) E) as (-> & _). done.
  - by apply wf_top_len_bound.
  - intros ti _. apply word32_num_get, (wf_top_range s Hwf).
  - intros bi w Hw. apply word32_uint32. eapply get_uint32; [apply (wf_bottom_range s Hwf)|done].
  - intros ti tb Hti Htb Hbit. apply wf_bottom_defined; (done || lia).
Qed.

Lemma and_low_bit a b i :
  0 <= i < 32 -> Z.testbit (JS.and a b) i = Z.testbit a i && Z.testbit b i.
Proof. intros Hi. rewrite and_bits by lia. by rewrite Z.min_l by lia. Qed.

Lemma bitSetAnd_select a b :
  BitSet_wf a -> BitSet_wf b ->
  bitSetAnd a b =
    Some (select (fun k => bit_at (BitSet.bottom a) k && bit_at (BitSet.bottom b) k)
            (1024 * Nat.min (length (BitSet.top a)) (length (BitSet.top b))) 0).
Proof.
  intros Ha Hb. unfold bitSetAnd.
  rewrite walk_spec.
  - f_equal. apply select_ext. intros k Hk. unfold walk_pred. simpl.
    assert (0 <= k mod 32 < 32) by (apply Z.mod_pos_bound; lia).
    assert (0 <= (k / 32) mod 32 < 32) by (apply Z.mod_pos_bound; lia).
    rewrite !and_low_bit, !key_top_bit by lia.
    fold (bit_at (BitSet.bottom a) k). fold (bit_at (BitSet.bottom b) k).
    destruct (bit_at (BitSet.bottom a) k) eqn:Ea; [|by rewrite andb_false_r].
    destruct (bit_at (BitSet.bottom b) k) eqn:Eb; [|by rewrite andb_false_r].
    destruct (wf_top_of_bit a k Ha ltac:(lia) Ea) as (-> & _).
    destruct (wf_top_of_bit b k Hb ltac:(lia) Eb) as (-> & _). done.
  - pose proof (wf_top_len_bound a Ha). lia.
  - intros ti _. apply word32_and.
  - intros bi w [= <-]. apply word32_and.
  - intros. by eexists.
Qed.

Lemma andNot_word (l : list Z) bi :
  (if bi <? Z.of_nat (length l) then JS.num (JS.get l bi) else 0) = JS.num (JS.get l bi).
Proof.
  destruct (Z.ltb_spec bi (Z.of_nat (length l))); [done|]. by rewrite get_ge.
Qed.

Lemma not_low_bit a i : 0 <= i < 32 -> Z.testbit (JS.not a) i = negb (Z.testbit a i).
Proof. intros Hi. rewrite not_bits by lia. by rewrite Z.min_l by lia. Qed.

Lemma bitSetAndNot_select a b :
  BitSet_wf a ->
  bitSetAndNot a b =
    Some (select (fun k => bit_at (BitSet.bottom a) k && negb (bit_at (BitSet.bottom b) k))
            (1024 * length (BitSet.top a)) 0).
Proof.
  intros Ha. unfold bitSetAndNot.
  rewrite walk_spec.
  - f_equal. apply select_ext. intros k Hk. unfold walk_pred. simpl.
    assert (0 <= k mod 32 < 32) by (apply Z.mod_pos_bound; lia).
    rewrite andNot_word, and_low_bit, not_low_bit, key_top_bit by lia.
    fold (bit_at (BitSet.bottom a) k). fold (bit_at (BitSet.bottom b) k).
    destruct (bit_at (BitSet.bottom a) k) eqn:Ea; [|by rewrite andb_false_r].
    destruct (wf_top_of_bit a k Ha ltac:(lia) Ea) as (-> & _). done.
  - by apply wf_top_len_bound.
  - intros ti _. apply word32_num_get, (wf_top_range a Ha).
  - intros bi w [= <-]. apply word32_and.
  - intros. by eexists.
Qed.

(** ** n-way intersection *)

Lemma fold_and_bits {A} (g : A -> Z) rest : forall a b,
  0 <= b < 32 ->
  Z.testbit (foldl (fun acc s => JS.and acc (g s)) a rest) b
  = Z.testbit a b && forallb (fun s => Z.testbit (g s) b) rest.
Proof.
  induction rest as [|s rest IH]; intros a b Hb; simpl.
  - by rewrite andb_true_r.
  - rewrite IH, and_low_bit by done. by rewrite andb_assoc.
Qed.

Lemma fold_and_word32 {A} (g : A -> Z) rest : forall a,
  word32 a -> word32 (foldl (fun acc s => JS.and acc (g s)) a rest).
Proof.
  induction rest as [|s rest IH]; intros a Ha; simpl; [done|].
  apply IH, word32_and.
Qed.

Lemma min_top_le s0 rest s :
  s ∈ s0 :: rest ->
  (foldr Nat.min (length (BitSet.top s0)) ((fun s => length (BitSet.top s)) <$> rest)
   <= length (BitSet.top s))%nat.
Proof.
  induction rest as [|r rest IH]; simpl.
  - intros Hs. apply list_elem_of_singleton in Hs as ->. done.
  - intros Hs. apply elem_of_cons in Hs as [->|Hs].
    + etrans; [apply Nat.le_min_r|]. apply IH. left.
    + apply elem_of_cons in Hs as [->|Hs]; [apply Nat.le_min_l|].
      etrans; [apply Nat.le_min_r|]. apply IH. by right.
Qed.

Lemma min_top_bound s0 rest k :
  (forall s, s ∈ s0 :: rest -> k < 1024 * Z.of_nat (length (BitSet.top s))) ->
  k < 1024 * Z.of_nat (foldr Nat.min (length (BitSet.top s0))
                         ((fun s => length (BitSet.top s)) <$> rest)).
Proof.
  induction rest as [|r rest IH]; simpl; intros H.
  - apply H. left.
  - assert (k < 1024 * Z.of_nat (length (BitSet.top r))) by (apply H; right; left).
    assert (k < 1024 * Z.of_nat (foldr Nat.min (length (BitSet.top s0))
                                   ((fun s => length (BitSet.top s)) <$> rest))).
    { apply IH. intros s Hs. apply H. apply elem_of_cons in Hs as [->|Hs]; [left|].
      right. by right. }
    match goal with |- context [Nat.min ?a ?b] =>
      destruct (Nat.min_spec a b) as [[_ ->]|[_ ->]] end; [exact H0 | exact H1].
Qed.

Lemma walk_many_select s0 rest :
  Forall BitSet_wf (s0 :: rest) ->
  walk (foldr Nat.min (length (BitSet.top s0)) ((fun s => length (BitSet.top s)) <$> rest))
       (fun ti => and_all BitSet.top s0 rest ti)
       (fun bottomIdx => Some (and_all BitSet.bottom s0 rest bottomIdx))
  = Some (select (fun k => forallb (fun s => bit_at (BitSet.bottom s) k) (s0 :: rest))
            (1024 * foldr Nat.min (length (BitSet.top s0))
                      ((fun s => length (BitSet.top s)) <$> rest)) 0).
Proof.
  intros Hwf. rewrite Forall_forall in Hwf.
  rewrite walk_spec.
  - f_equal. apply select_ext. intros k Hk. unfold walk_pred, and_all. simpl.
    assert (0 <= k mod 32 < 32) by (apply Z.mod_pos_bound; lia).
    assert (0 <= (k / 32) mod 32 < 32) by (apply Z.mod_pos_bound; lia).
    rewrite !fold_and_bits by done.
    match goal with |- ?T && ?B1 = ?B2 =>
      change B1 with B2; destruct B2 eqn:E; [|apply andb_false_r]; rewrite andb_true_r
    end.
    apply andb_true_iff in E as [E0 Er]. rewrite forallb_forall in Er.
    apply andb_true_iff. split.
    + rewrite key_top_bit by lia.
      by destruct (wf_top_of_bit s0 k (Hwf s0 ltac:(left)) ltac:(lia) E0) as (-> & _).
    + apply forallb_forall. intros s Hs. rewrite key_top_bit by lia.
      specialize (Er s Hs). apply list_elem_of_In in Hs.
      by destruct (wf_top_of_bit s k (Hwf s ltac:(by right)) ltac:(lia) Er) as (-> & _).
  - pose proof (min_top_le s0 rest s0 ltac:(left)).
    pose proof (wf_top_len_bound s0 (Hwf s0 ltac:(left))). lia.
  - intros ti _. apply fold_and_word32, word32_num_get, (wf_top_range s0). apply Hwf. left.
  - intros bi w [= <-]. apply fold_and_word32, word32_num_get, (wf_bottom_range s0).
    apply Hwf. left.
  - intros. by eexists.
Qed.

Lemma visits_unique l1 l2 P Q :
  visits l1 P -> visits l2 Q -> (forall k, 0 <= k -> P k <-> Q k) -> l1 = l2.
Proof.
  intros [Hs1 Hm1] [Hs2 Hm2] HPQ. apply sorted_unique; [done..|].
  intros k. rewrite Hm1, Hm2. split; intros [Hk H]; (split; [done|]); by apply HPQ.
Qed.

Lemma forEach_visits s :
  BitSet_wf s -> exists l, BitSet.forEach s = Some l /\ visits l (fun k => BitSet.has s k = true).
Proof.
  intros Hwf. eexists. split; [by apply forEach_select|].
  destruct (select_result (bit_at (BitSet.bottom s)) (1024 * length (BitSet.top s)) _ eq_refl)
    as [Hs Hm].
  - intros k Hk Hbit. destruct (wf_top_of_bit s k Hwf Hk Hbit) as (_ & ? & _). lia.
  - split; [done|]. intros k. rewrite Hm. split; intros [Hk H]; (split; [done|]).
    + by rewrite has_spec.
    + by rewrite <- has_spec.
Qed.

Lemma bitSetAnd_visits a b :
  BitSet_wf a -> BitSet_wf b ->
  exists l, bitSetAnd a b = Some l
            /\ visits l (fun k => BitSet.has a k = true /\ BitSet.has b k = true).
Proof.
  intros Ha Hb. eexists. split; [by apply bitSetAnd_select|].
  destruct (select_result (fun k => bit_at (BitSet.bottom a) k && bit_at (BitSet.bottom b) k)
              (1024 * Nat.min (length (BitSet.top a)) (length (BitSet.top b))) _ eq_refl)
    as [Hs Hm].
  - intros k Hk Hbit. apply andb_true_iff in Hbit as [H1 H2].
    destruct (wf_top_of_bit a k Ha Hk H1) as (_ & ? & _).
    destruct (wf_top_of_bit b k Hb Hk H2) as (_ & ? & _). lia.
  - split; [done|]. intros k. rewrite Hm. split; intros [Hk H]; (split; [done|]).
    + rewrite !has_spec by done. by apply andb_true_iff.
    + rewrite !has_spec in H by done. by apply andb_true_iff.
Qed.

Lemma bitSetAndNot_visits a b :
  BitSet_wf a -> BitSet_wf b ->
  exists l, bitSetAndNot a b = Some l
            /\ visits l (fun k => BitSet.has a k = true /\ BitSet.has b k = false).
Proof.
  intros Ha Hb. eexists. split; [by apply bitSetAndNot_select|].
  destruct (select_result (fun k => bit_at (BitSet.bottom a) k && negb (bit_at (BitSet.bottom b) k))
              (1024 * length (BitSet.top a)) _ eq_refl)
    as [Hs Hm].
  - intros k Hk Hbit. apply andb_true_iff in Hbit as [H1 H2].
    destruct (wf_top_of_bit a k Ha Hk H1) as (_ & ? & _). lia.
  - split; [done|]. intros k. rewrite Hm. split; intros [Hk H]; (split; [done|]).
    + rewrite !has_spec by done. apply andb_true_iff in H as [? ?]. by rewrite negb_true_iff in *.
    + rewrite !has_spec in H by done. destruct H as [-> ->]. done.
Qed.

Lemma bitSetAndMany_visits sets :
  sets <> [] -> Forall BitSet_wf sets ->
  exists l, bitSetAndMany sets = Some l
            /\ visits l (fun k => forall s, s ∈ sets -> BitSet.has s k = true).
Proof.
  intros Hne Hwf. destruct sets as [|s0 [|s1 [|s2 rest]]]; [done|..].
  - apply Forall_cons in Hwf as [H0 _].
    destruct (forEach_visits s0 H0) as (l & Hl & Hs & Hm).
    exists l. split; [done|]. split; [done|]. intros k. rewrite Hm.
    split; intros [Hk H]; (split; [done|]).
    + intros s Hin. by apply list_elem_of_singleton in Hin as ->.
    + apply H. left.
  - apply Forall_cons in Hwf as [H0 Hwf]. apply Forall_cons in Hwf as [H1 _].
    destruct (bitSetAnd_visits s0 s1 H0 H1) as (l & Hl & Hs & Hm).
    exists l. split; [done|]. split; [done|]. intros k. rewrite Hm.
    split; intros [Hk H]; (split; [done|]).
    + intros s Hin. apply elem_of_cons in Hin as [->|Hin]; [tauto|].
      apply list_elem_of_singleton in Hin as ->. tauto.
    + split; apply H; [left | right; left].
  - eexists. split; [apply (walk_many_select s0 (s1 :: s2 :: rest) Hwf)|].
    rewrite Forall_forall in Hwf.
    match goal with |- visits (select ?P ?n 0) _ =>
      destruct (select_result P n _ eq_refl) as [Hs Hm] end.
    + intros k Hk Hall. rewrite forallb_forall in Hall.
      rewrite Nat2Z.inj_mul. change (Z.of_nat 1024) with 1024.
      apply min_top_bound. intros s Hin.
      assert (bit_at (BitSet.bottom s) k = true) as Hbit
        by (apply Hall; by apply list_elem_of_In).
      by destruct (wf_top_of_bit s k (Hwf s Hin) Hk Hbit) as (_ & ? & _).
    + split; [done|]. intros k. rewrite Hm, forallb_forall.
      split; intros [Hk H]; (split; [done|]).
      * intros s Hin. rewrite has_spec by (done || by apply Hwf).
        apply H. by apply list_elem_of_In.
      * intros s Hin. apply list_elem_of_In in Hin.
        rewrite <- has_spec by (done || by apply Hwf). by apply H.
Qed.

(** ** Building sets by repeated [add] *)

Lemma fold_add keys : forall s,
  BitSet_wf s -> (forall k, k ∈ keys -> 0 <= k /\ (k < BitSet.capacity s \/ k < 2 ^ 30)) ->
  exists s',
    foldl (fun acc k => s ← acc; r ← BitSet.add s k; Some r.2) (Some s) keys = Some s'
    /\ BitSet_wf s'
    /\ BitSet.capacity s <= BitSet.capacity s'
    /\ ((forall k, k ∈ keys -> k < BitSet.capacity s) -> BitSet.capacity s' = BitSet.capacity s)
    /\ forall j, 0 <= j ->
         bit_at (BitSet.bottom s') j = bit_at (BitSet.bottom s) j || bool_decide (j ∈ keys).
Proof.
  induction keys as [|k keys IH]; intros s Hwf Hkeys.
  - exists s. split; [done|]. split; [done|]. split; [lia|]. split; [done|].
    intros j Hj. rewrite bool_decide_eq_false_2 by apply not_elem_of_nil.
    by rewrite orb_false_r.
  - destruct (Hkeys k ltac:(left)) as [Hk Hb].
    destruct (add_spec s k Hwf Hk Hb) as (s1 & Hadd & Hwf1 & Hbits1 & _ & Hcap1 & Hfit1).
    destruct (IH s1 Hwf1) as (s' & Hfold & Hwf' & Hcap' & Hfit' & Hbits').
    { intros k' Hk'. destruct (Hkeys k' ltac:(by right)) as [? [?|?]]; split; try done.
      - left. lia.
      - by right. }
    exists s'. cbn [foldl mbind option_bind]. rewrite Hadd. cbn [mbind option_bind snd].
    split; [done|]. split; [done|]. split; [lia|]. split.
    + intros Hall. rewrite Hfit'.
      * apply Hfit1. apply Hall. left.
      * intros k' Hk'. rewrite Hfit1 by (apply Hall; left). apply Hall. by right.
    + intros j Hj. rewrite Hbits', Hbits1 by done. rewrite <- orb_assoc. f_equal.
      destruct (Z.eqb_spec j k) as [->|Hne].
      * rewrite (bool_decide_eq_true_2 (k ∈ k :: keys)) by left. done.
      * simpl. apply bool_decide_ext. rewrite elem_of_cons.
        split; [by right | by intros [?|?]].
Qed.

Lemma collect_spec cap keys :
  1 <= cap <= 2 ^ 31 -> (forall k, k ∈ keys -> 0 <= k /\ (k < cap \/ k < 2 ^ 30)) ->
  exists s,
    collect cap keys = Some s /\ BitSet_wf s
    /\ ((forall k, k ∈ keys -> k < cap) -> BitSet.capacity s = cap)
    /\ forall j, 0 <= j -> (BitSet.has s j = true <-> j ∈ keys).
Proof.
  intros Hcap Hkeys.
  destruct (fold_add keys (BitSet.new cap) (new_wf cap Hcap) Hkeys)
    as (s & Hfold & Hwf & _ & Hfit & Hbits).
  exists s. split; [done|]. split; [done|]. split; [done|].
  intros j Hj. rewrite has_spec, Hbits by done.
  unfold BitSet.new at 1. simpl. rewrite bit_at_zeros. simpl.
  apply bool_decide_eq_true.
Qed.

Lemma and_reduce_visits rest : forall acc,
  BitSet_wf acc -> Forall BitSet_wf rest ->
  exists l, and_reduce acc rest = Some l
            /\ visits l (fun k => forall s, s ∈ acc :: rest -> BitSet.has s k = true).
Proof.
  induction rest as [|s rest IH]; intros acc Hacc Hrest.
  - destruct (forEach_visits acc Hacc) as (l & Hl & Hs & Hm).
    exists l. split; [done|]. split; [done|]. intros k. rewrite Hm.
    split; intros [Hk H]; (split; [done|]).
    + intros s Hin. by apply list_elem_of_singleton in Hin as ->.
    + apply H. left.
  - apply Forall_cons in Hrest as [Hs Hrest].
    destruct (bitSetAnd_visits acc s Hacc Hs) as (keys & Hand & Hsorted & Hmem).
    pose proof (wf_cap acc Hacc) as Hcap.
    assert (forall k, k ∈ keys -> 0 <= k < BitSet.capacity acc) as Hkeys.
    { intros k Hk. apply Hmem in Hk as (Hk & Ha & _). split; [done|].
      rewrite has_spec in Ha by done. by apply (wf_below acc Hacc). }
    destruct (collect_spec (BitSet.capacity acc) keys Hcap) as (acc' & Hcol & Hwf' & _ & Hhas').
    { intros k Hk. specialize (Hkeys k Hk). split; [lia|left; lia]. }
    destruct (IH acc' Hwf' Hrest) as (l & Hl & Hsl & Hml).
    exists l. cbn [and_reduce]. rewrite Hand. cbn [mbind option_bind].
    rewrite Hcol. cbn [mbind option_bind]. split; [done|]. split; [done|].
    intros k. rewrite Hml. split; intros [Hk H]; (split; [done|]).
    + assert (BitSet.has acc k = true /\ BitSet.has s k = true) as [? ?].
      { apply (Hmem k). apply Hhas'; [done|]. apply H. left. }
      intros s' Hin. apply elem_of_cons in Hin as [->|Hin]; [done|].
      apply elem_of_cons in Hin as [->|Hin]; [done|]. apply H. by right.
    + intros s' Hin. apply elem_of_cons in Hin as [->|Hin].
      * apply Hhas'; [done|]. apply Hmem. split; [done|]. split; apply H; [left|right; left].
      * apply H. right. by right.
Qed.

Lemma collect_wf cap keys :
  1 <= cap <= 2 ^ 31 -> Forall (fun k => 0 <= k < 2 ^ 30) keys ->
  exists s, collect cap keys = Some s /\ BitSet_wf s.
Proof.
  intros Hcap Hkeys. rewrite Forall_forall in Hkeys.
  destruct (collect_spec cap keys Hcap) as (s & Hs & Hwf & _).
  - intros k Hk. specialize (Hkeys k Hk). split; [lia|right; lia].
  - by exists s.
Qed.

(** C4: for well-formed BitSets [a] and [b] (of any, possibly different,
    allocated sizes) [bitSetAnd] returns and calls the visitor exactly on
    the keys held by both, in strictly ascending order; [bitSetAndNot]
    returns and calls it exactly on the keys of [a] that [b] does not hold,
    the blocks [b] has not allocated reading as zero. *)
Theorem bitSetAnd_bitSetAndNot_visit a b :
  BitSet_wf a -> BitSet_wf b ->
  (exists l, bitSetAnd a b = Some l
             /\ visits l (fun k => BitSet.has a k = true /\ BitSet.has b k = true))
  /\ (exists l, bitSetAndNot a b = Some l
                /\ visits l (fun k => BitSet.has a k = true /\ BitSet.has b k = false)).
Proof.
  intros Ha Hb. split.
  - by apply bitSetAnd_visits.
  - by apply bitSetAndNot_visits.
Qed.

Lemma bitSetAnd_bitSetAndNot_visit_witness :
  exists a b,
    collect 1024 [1; 5; 1025; 2000] = Some a /\ collect 32 [5; 31] = Some b
    /\ (length (BitSet.bottom b) < length (BitSet.bottom a))%nat
    /\ bitSetAnd a b = Some [5] /\ bitSetAndNot a b = Some [1; 1025; 2000]
    /\ (exists l, bitSetAnd a b = Some l
                  /\ visits l (fun k => BitSet.has a k = true /\ BitSet.has b k = true))
    /\ (exists l, bitSetAndNot a b = Some l
                  /\ visits l (fun k => BitSet.has a k = true /\ BitSet.has b k = false)).
Proof.
  destruct (collect_wf 1024 [1; 5; 1025; 2000]) as (a & Ha & Hwa);
    [lia | repeat constructor; lia |].
  destruct (collect_wf 32 [5; 31]) as (b & Hb & Hwb);
    [lia | repeat constructor; lia |].
  exists a, b. split; [done|]. split; [done|].
  vm_compute in Ha, Hb. injection Ha as <-. injection Hb as <-.
  split; [simpl; lia|]. split; [by vm_compute|]. split; [by vm_compute|].
  apply (bitSetAnd_bitSetAndNot_visit _ _ Hwa Hwb).
Defined.

(** C9: for every non-empty list of well-formed BitSets, [bitSetAndMany]
    returns and visits exactly the keys, in the same ascending order, that
    the pairwise reduction with [bitSetAnd] visits (whichever of the 1-set,
    2-set and n-way paths runs): the keys held by every set.  The 3-way
    intersection of {1,5,1025}, {5,1025,2000} and {5,1025} visits 5 then
    1025. *)
Theorem bitSetAndMany_pairwise :
  (forall sets, sets <> [] -> Forall BitSet_wf sets ->
     exists l, bitSetAndMany sets = Some l /\ pairwise_and sets = Some l
               /\ visits l (fun k => forall s, s ∈ sets -> BitSet.has s k = true))
  /\ (a ← collect 1024 [1; 5; 1025]; b ← collect 1024 [5; 1025; 2000];
      c ← collect 1024 [5; 1025]; bitSetAndMany [a; b; c]) = Some [5; 1025].
Proof.
  split; [|by vm_compute].
  intros sets Hne Hwf.
  destruct (bitSetAndMany_visits sets Hne Hwf) as (l & Hl & Hvis).
  exists l. split; [done|]. split; [|done].
  destruct sets as [|s0 rest]; [done|]. apply Forall_cons in Hwf as [H0 Hrest].
  destruct (and_reduce_visits rest s0 H0 Hrest) as (l' & Hl' & Hvis').
  simpl. rewrite Hl'. f_equal. symmetry.
  by apply (visits_unique l l' _ _ Hvis Hvis').
Qed.

Lemma bitSetAndMany_pairwise_witness :
  exists a b c,
    collect 1024 [1; 5; 1025] = Some a /\ collect 1024 [5; 1025; 2000] = Some b
    /\ collect 1024 [5; 1025] = Some c
    /\ exists l, bitSetAndMany [a; b; c] = Some l /\ pairwise_and [a; b; c] = Some l
                 /\ visits l (fun k => forall s, s ∈ [a; b; c] -> BitSet.has s k = true).
Proof.
  destruct (collect_wf 1024 [1; 5; 1025]) as (a & Ha & Hwa); [lia | repeat constructor; lia |].
  destruct (collect_wf 1024 [5; 1025; 2000]) as (b & Hb & Hwb); [lia | repeat constructor; lia |].
  destruct (collect_wf 1024 [5; 1025]) as (c & Hc & Hwc); [lia | repeat constructor; lia |].
  exists a, b, c. do 3 (split; [done|]).
  apply (proj1 bitSetAndMany_pairwise); [done|].
  do 3 (apply Forall_cons; split; [done|]). by apply Forall_nil.
Defined.

(** ** Reads and removals beyond the capacity *)

Lemma BitSet_remove_size s key :
  BitSet.capacity (BitSet.remove s key).2 = BitSet.capacity s
  /\ length (BitSet.bottom (BitSet.remove s key).2) = length (BitSet.bottom s)
  /\ length (BitSet.top (BitSet.remove s key).2) = length (BitSet.top s).
Proof.
  unfold BitSet.remove. destruct (key >=? BitSet.capacity s); [done|].
  destruct (negb _); [done|]. simpl. split; [done|].
  rewrite length_set32. split; [done|].
  case_bool_decide; [apply length_set32|done].
Qed.

Lemma QueryEntitySet_remove_size gid s e s' :
  QueryEntitySet.remove gid s e = Some s' ->
  QueryEntitySet.capacity s' = QueryEntitySet.capacity s
  /\ length (QueryEntitySet.bottom s') = length (QueryEntitySet.bottom s).
Proof.
  unfold QueryEntitySet.remove.
  destruct (gid e >=? QueryEntitySet.capacity s); [by intros [= <-]|].
  destruct (negb (JS.truthy _)); [by intros [= <-]|].
  destruct (negb (bool_decide _)); [by intros [= <-]|].
  destruct (QueryEntitySet._sparse s !! gid e) as [index|]; [|done].
  cbn [mbind option_bind]. case_bool_decide.
  - destruct (QueryEntitySet._dense s !! _) as [swapped|]; [|done].
    cbn [mbind option_bind]. intros [= <-]. simpl. by rewrite length_set32.
  - intros [= <-]. simpl. by rewrite length_set32.
Qed.

(** C10: a key at or beyond the capacity is reported absent by
    [BitSet.has], and [BitSet.remove] returns false leaving the set as it
    was; likewise [QueryEntitySet.has] is false and [QueryEntitySet.remove]
    has no effect for an entity whose slot index is at or beyond the
    capacity.  No removal, of any key, changes the capacity or the size of
    the arrays: only [add] grows. *)
Theorem beyond_capacity_no_growth :
  (forall s key, BitSet.capacity s <= key ->
     BitSet.has s key = false /\ BitSet.remove s key = (false, s))
  /\ (forall getEntityId s e, QueryEntitySet.capacity s <= getEntityId e ->
        QueryEntitySet.has getEntityId s e = false
        /\ QueryEntitySet.remove getEntityId s e = Some s)
  /\ (forall s key,
        BitSet.capacity (BitSet.remove s key).2 = BitSet.capacity s
        /\ length (BitSet.bottom (BitSet.remove s key).2) = length (BitSet.bottom s)
        /\ length (BitSet.top (BitSet.remove s key).2) = length (BitSet.top s))
  /\ (forall getEntityId s e s', QueryEntitySet.remove getEntityId s e = Some s' ->
        QueryEntitySet.capacity s' = QueryEntitySet.capacity s
        /\ length (QueryEntitySet.bottom s') = length (QueryEntitySet.bottom s)).
Proof.
  split; [|split; [|split]].
  - intros s key Hge. unfold BitSet.has, BitSet.remove.
    destruct (Z.geb_spec key (BitSet.capacity s)); [done|lia].
  - intros gid s e Hge. unfold QueryEntitySet.has, QueryEntitySet.remove.
    destruct (Z.geb_spec (gid e) (QueryEntitySet.capacity s)); [done|lia].
  - apply BitSet_remove_size.
  - apply QueryEntitySet_remove_size.
Qed.

Lemma beyond_capacity_no_growth_witness :
  (BitSet.has (BitSet.new 1024) 5000 = false
   /\ BitSet.remove (BitSet.new 1024) 5000 = (false, BitSet.new 1024))
  /\ (QueryEntitySet.has (fun e => Z.land e 1048575) (QueryEntitySet.new 1024) 5000 = false
      /\ QueryEntitySet.remove (fun e => Z.land e 1048575) (QueryEntitySet.new 1024) 5000
         = Some (QueryEntitySet.new 1024)).
Proof.
  split.
  - apply (proj1 beyond_capacity_no_growth). by vm_compute.
  - apply (proj1 (proj2 beyond_capacity_no_growth)). by vm_compute.
Defined.

(** ** Sequences of calls: invariant, parity and count *)

Lemma wf_two_level s : BitSet_wf s -> two_level s.
Proof. intros Hwf i Hi. by apply (wf_summary s Hwf). Qed.

Lemma has_add s k s' j :
  BitSet_wf s -> 0 <= k -> 0 <= j -> BitSet_wf s' ->
  (forall j, 0 <= j -> bit_at (BitSet.bottom s') j = bit_at (BitSet.bottom s) j || (j =? k)) ->
  BitSet.has s' j = xorb (BitSet.has s j) ((k =? j) && negb (BitSet.has s k)).
Proof.
  intros Hwf Hk Hj Hwf' Hbits. rewrite !has_spec, Hbits by done.
  rewrite (Z.eqb_sym k j).
  destruct (Z.eqb_spec j k) as [->|]; by destruct (bit_at (BitSet.bottom s) _).
Qed.

Lemma has_remove s k s' j :
  BitSet_wf s -> 0 <= k -> 0 <= j -> BitSet_wf s' ->
  (forall j, 0 <= j -> bit_at (BitSet.bottom s') j = bit_at (BitSet.bottom s) j && negb (j =? k)) ->
  BitSet.has s' j = xorb (BitSet.has s j) ((k =? j) && BitSet.has s k).
Proof.
  intros Hwf Hk Hj Hwf' Hbits. rewrite !has_spec, Hbits by done.
  rewrite (Z.eqb_sym k j).
  destruct (Z.eqb_spec j k) as [->|]; by destruct (bit_at (BitSet.bottom s) _).
Qed.

Lemma step_spec s o X :
  BitSet_wf s -> 0 <= op_key o < 2 ^ 30 -> counts s X ->
  exists r s' X',
    step s o = Some (r, s') /\ BitSet_wf s'
    /\ (forall j, 0 <= j -> BitSet.has s' j = xorb (BitSet.has s j) ((op_key o =? j) && r))
    /\ counts s' X'.
Proof.
  intros Hwf Hk [HX Hcount]. destruct o as [k|k]; simpl in *.
  - destruct (add_spec s k Hwf ltac:(lia) ltac:(right; lia))
      as (s' & Hadd & Hwf' & Hbits & Hcnt & _).
    assert (forall j, 0 <= j ->
      BitSet.has s' j = xorb (BitSet.has s j) ((k =? j) && negb (BitSet.has s k))) as Hhas
      by (intros; apply has_add; (done || lia)).
    destruct (BitSet.has s k) eqn:E.
    + exists false, s', X. split; [done|]. split; [done|]. split; [done|]. split; [|lia].
      intros j. rewrite HX. split; intros [Hj H]; (split; [done|]).
      * rewrite Hhas by done. by rewrite andb_false_r, xorb_false_r.
      * rewrite Hhas in H by done. by rewrite andb_false_r, xorb_false_r in H.
    + exists true, s', ({[k]} ∪ X). split; [done|]. split; [done|]. split; [done|].
      assert (k ∉ X) as Hnot by (rewrite HX; intros [_ ?]; congruence).
      split.
      * intros j. rewrite elem_of_union, elem_of_singleton, HX. split.
        -- intros [->|[Hj H]].
           ++ split; [lia|]. rewrite Hhas by lia. by rewrite E, Z.eqb_refl.
           ++ split; [done|]. rewrite Hhas, H by done.
              destruct (Z.eqb_spec k j) as [->|]; [congruence|done].
        -- intros [Hj H]. destruct (Z.eq_dec j k) as [->|Hne]; [by left|right].
           split; [done|]. rewrite Hhas in H by done.
           destruct (Z.eqb_spec k j) as [->|]; [done|]. simpl in H.
           by rewrite xorb_false_r in H.
      * rewrite size_union by (by apply disjoint_singleton_l).
        rewrite size_singleton. lia.
  - destruct (remove_spec s k Hwf ltac:(lia)) as (Hr & Hwf' & Hbits & Hcnt & _).
    destruct (BitSet.remove s k) as [r s'] eqn:Hrem. simpl in *. subst r.
    assert (forall j, 0 <= j ->
      BitSet.has s' j = xorb (BitSet.has s j) ((k =? j) && BitSet.has s k)) as Hhas
      by (intros; apply has_remove; (done || lia)).
    destruct (BitSet.has s k) eqn:E.
    + exists true, s', (X ∖ {[k]}). split; [done|]. split; [done|]. split; [done|].
      assert (k ∈ X) as Hin by (rewrite HX; split; [lia|done]).
      split.
      * intros j. rewrite elem_of_difference, elem_of_singleton, HX. split.
        -- intros [[Hj H] Hne]. split; [done|]. rewrite Hhas, H by done.
           destruct (Z.eqb_spec k j) as [->|]; done.
        -- intros [Hj H]. rewrite Hhas in H by done.
           destruct (Z.eqb_spec k j) as [->|Hne].
           ++ rewrite E in H. done.
           ++ simpl in H. rewrite xorb_false_r in H. split; [done|congruence].
      * rewrite size_difference by (by apply singleton_subseteq_l).
        rewrite size_singleton.
        assert (size X <> 0%nat).
        { intros Hz. apply size_empty_inv in Hz. rewrite Hz in Hin.
          by apply not_elem_of_empty in Hin. }
        lia.
    + exists false, s', X. split; [done|]. split; [done|]. split; [done|]. split; [|lia].
      intros j. rewrite HX. split; intros [Hj H]; (split; [done|]).
      * rewrite Hhas by done. by rewrite andb_false_r, xorb_false_r.
      * rewrite Hhas in H by done. by rewrite andb_false_r, xorb_false_r in H.
Qed.

Lemma run_spec ops : forall s X,
  BitSet_wf s -> Forall (fun o => 0 <= op_key o < 2 ^ 30) ops -> counts s X ->
  exists trace s' X',
    run s ops = Some (trace, s') /\ BitSet_wf s'
    /\ (forall k, 0 <= k -> BitSet.has s' k = xorb (BitSet.has s k) (Nat.odd (effective k trace)))
    /\ counts s' X'.
Proof.
  induction ops as [|o ops IH]; intros s X Hwf Hops HX.
  - exists [], s, X. split; [done|]. split; [done|]. split; [|done].
    intros k _. by rewrite xorb_false_r.
  - apply Forall_cons in Hops as [Ho Hops].
    destruct (step_spec s o X Hwf Ho HX) as (r & s1 & X1 & Hstep & Hwf1 & Hhas1 & HX1).
    destruct (IH s1 X1 Hwf1 Hops HX1) as (trace & s' & X' & Hrun & Hwf' & Hhas' & HX').
    exists ((o, r) :: trace), s', X'. cbn [run]. rewrite Hstep. cbn [mbind option_bind snd fst].
    rewrite Hrun. cbn [mbind option_bind snd fst].
    split; [done|]. split; [done|]. split; [|done].
    intros k Hk. rewrite Hhas', Hhas1 by done. cbn [effective].
    rewrite Nat.odd_add, <- xorb_assoc. f_equal. f_equal.
    by destruct ((op_key o =? k) && r).
Qed.

Lemma step_wf s o r s' :
  BitSet_wf s -> 0 <= op_key o < 2 ^ 30 -> step s o = Some (r, s') -> BitSet_wf s'.
Proof.
  intros Hwf Hk Hstep. destruct o as [k|k]; simpl in *.
  - destruct (add_spec s k Hwf ltac:(lia) ltac:(right; lia)) as (s1 & Hadd & Hwf' & _).
    rewrite Hadd in Hstep. by injection Hstep as <- <-.
  - destruct (remove_spec s k Hwf ltac:(lia)) as (_ & Hwf' & _).
    injection Hstep as Hrem. by rewrite Hrem in Hwf'.
Qed.

Lemma step_present s o r s' j :
  BitSet_wf s -> 0 <= op_key o < 2 ^ 30 -> 0 <= j -> step s o = Some (r, s') ->
  BitSet.has s' j =
    if op_key o =? j then match o with Add _ => true | Remove _ => false end
    else BitSet.has s j.
Proof.
  intros Hwf Hk Hj Hstep. destruct o as [k|k]; simpl in *.
  - destruct (add_spec s k Hwf ltac:(lia) ltac:(right; lia))
      as (s1 & Hadd & Hwf' & Hbits & _).
    rewrite Hadd in Hstep. injection Hstep as <- <-.
    rewrite !has_spec, Hbits by done. rewrite (Z.eqb_sym k j).
    destruct (Z.eqb_spec j k); [apply orb_true_r|apply orb_false_r].
  - destruct (remove_spec s k Hwf ltac:(lia)) as (_ & Hwf' & Hbits & _).
    injection Hstep as Hrem. rewrite Hrem in Hwf', Hbits. simpl in Hwf', Hbits.
    rewrite !has_spec, Hbits by done. rewrite (Z.eqb_sym k j).
    destruct (Z.eqb_spec j k); [apply andb_false_r|apply andb_true_r].
Qed.

Lemma run_present ops : forall s trace s' k,
  BitSet_wf s -> Forall (fun o => 0 <= op_key o < 2 ^ 30) ops -> 0 <= k ->
  run s ops = Some (trace, s') ->
  BitSet.has s' k = present_after k ops (BitSet.has s k).
Proof.
  induction ops as [|o ops IH]; intros s trace s' k Hwf Hops Hk Hrun.
  - by injection Hrun as <- <-.
  - apply Forall_cons in Hops as [Ho Hops]. cbn [run] in Hrun.
    destruct (step s o) as [[r s1]|] eqn:Hstep; [|done]. cbn [mbind option_bind snd fst] in Hrun.
    destruct (run s1 ops) as [[t s2]|] eqn:Hrest; [|done].
    cbn [mbind option_bind snd fst] in Hrun. injection Hrun as <- <-.
    assert (BitSet_wf s1) as Hwf1 by (by eapply step_wf).
    rewrite (IH s1 t s2 k Hwf1 Hops Hk Hrest).
    unfold present_after. cbn [foldl]. f_equal.
    by apply (step_present s o r s1 k).
Qed.

Lemma counts_new cap : 1 <= cap <= 2 ^ 31 -> counts (BitSet.new cap) ∅.
Proof.
  intros Hcap. split; [|done]. intros k. split; [by intros ?%not_elem_of_empty|].
  intros [Hk Hhas]. rewrite has_spec in Hhas by (by apply new_wf || done).
  unfold BitSet.new in Hhas. simpl in Hhas. by rewrite bit_at_zeros in Hhas.
Qed.

(** C8: the constructor establishes, and [add], [remove], [clear] and
    growth preserve, the structural invariant of the BitSet, of which the
    two-level invariant (a top bit is 1 iff its bottom word is non-zero) is
    a part; [add] always returns on it.  After any sequence of [add] and
    [remove] calls on a new BitSet, [has k] is the parity of the number of
    calls that affected [k] (those that returned true), which is also
    what the last call on [k] left, and [count] is the number of keys
    currently true. *)
Theorem BitSet_invariant_parity_count :
  (forall s, BitSet_wf s -> two_level s)
  /\ (forall cap, 1 <= cap <= 2 ^ 31 -> BitSet_wf (BitSet.new cap))
  /\ (forall s, BitSet_wf s ->
        (forall k, key_ok s k -> exists r s', BitSet.add s k = Some (r, s') /\ BitSet_wf s')
        /\ (forall k, 0 <= k -> BitSet_wf (BitSet.remove s k).2)
        /\ BitSet_wf (BitSet.clear s)
        /\ (forall key, BitSet.capacity s <= key < 2 ^ 30 ->
              exists s', BitSet.grow s (key + 1) = Some s' /\ BitSet_wf s'))
  /\ (forall cap ops,
        1 <= cap <= 2 ^ 31 -> Forall (fun o => 0 <= op_key o < 2 ^ 30) ops ->
        exists trace s,
          run (BitSet.new cap) ops = Some (trace, s)
          /\ BitSet_wf s
          /\ (forall k, 0 <= k -> BitSet.has s k = Nat.odd (effective k trace))
          /\ (forall k, 0 <= k -> BitSet.has s k = present_after k ops false)
          /\ exists X : gset Z,
               (forall k, k ∈ X <-> 0 <= k /\ BitSet.has s k = true)
               /\ BitSet.count s = Z.of_nat (size X)).
Proof.
  split; [apply wf_two_level|]. split; [apply new_wf|]. split.
  - intros s Hwf. split; [|split; [|split]].
    + intros k [Hk Hb]. destruct (add_spec s k Hwf Hk Hb) as (s' & Hadd & Hwf' & _).
      by exists (negb (BitSet.has s k)), s'.
    + intros k Hk. by destruct (remove_spec s k Hwf Hk) as (_ & ? & _).
    + by apply clear_wf.
    + intros key Hkey. destruct (grow_spec s key Hwf Hkey) as (s' & j & Hgrow & Hwf' & _).
      by exists s'.
  - intros cap ops Hcap Hops.
    destruct (run_spec ops (BitSet.new cap) ∅ (new_wf cap Hcap) Hops (counts_new cap Hcap))
      as (trace & s & X & Hrun & Hwf & Hhas & HX & Hcount).
    assert (forall k, 0 <= k -> BitSet.has (BitSet.new cap) k = false) as Hnew.
    { intros k Hk. rewrite has_spec by (by apply new_wf || done).
      unfold BitSet.new. simpl. by rewrite bit_at_zeros. }
    exists trace, s. split; [done|]. split; [done|]. split; [|split; [|by exists X]].
    + intros k Hk. rewrite Hhas by done. by rewrite Hnew.
    + intros k Hk. rewrite <- (Hnew k Hk).
      by apply (run_present ops (BitSet.new cap) trace s k (new_wf cap Hcap) Hops Hk).
Qed.

Lemma BitSet_invariant_parity_count_witness :
  exists trace s,
    run (BitSet.new 1024) [Add 5; Add 5; Add 2000; Remove 5; Remove 7; Add 5] = Some (trace, s)
    /\ BitSet_wf s
    /\ (forall k, 0 <= k -> BitSet.has s k = Nat.odd (effective k trace))
    /\ (forall k, 0 <= k ->
          BitSet.has s k
          = present_after k [Add 5; Add 5; Add 2000; Remove 5; Remove 7; Add 5] false)
    /\ exists X : gset Z,
         (forall k, k ∈ X <-> 0 <= k /\ BitSet.has s k = true)
         /\ BitSet.count s = Z.of_nat (size X).
Proof.
  apply (proj2 (proj2 (proj2 BitSet_invariant_parity_count))).
  - lia.
  - repeat (apply Forall_cons; split; [simpl; lia|]). by apply Forall_nil.
Defined.

(** ** Growth *)

Lemma QES_new_wf cap : 1 <= cap <= 2 ^ 31 -> QES_wf (QueryEntitySet.new cap).
Proof.
  intros Hcap. unfold QueryEntitySet.new. rewrite (words_of cap) by lia.
  assert (0 <= (cap + 31) / 32) by (apply Z.div_pos; lia).
  constructor; unfold two_level; simpl.
  - done.
  - rewrite length_replicate. lia.
  - apply Forall_replicate. unfold uint32. lia.
Qed.

Lemma QES_grow_spec s key :
  QES_wf s -> QueryEntitySet.capacity s <= key < 2 ^ 30 ->
  exists s',
    QueryEntitySet.grow s (key + 1) = Some s' /\ QES_wf s'
    /\ smallest_doubling (QueryEntitySet.capacity s) (QueryEntitySet.capacity s') (key + 1)
    /\ QueryEntitySet.capacity s <= QueryEntitySet.capacity s'
    /\ (exists n, QueryEntitySet.bottom s' = QueryEntitySet.bottom s ++ replicate n 0)
    /\ QueryEntitySet._dense s' = QueryEntitySet._dense s
    /\ QueryEntitySet._sparse s' = QueryEntitySet._sparse s
    /\ QueryEntitySet._cursor s' = QueryEntitySet._cursor s.
Proof.
  intros Hwf Hkey. pose proof (qwf_cap s Hwf) as Hcap.
  destruct (double_while_total (fun n => n <? key + 1) (key + 1) (QueryEntitySet.capacity s))
    as (j & Hj & Hrun & Hmin & Hleast); [done|lia|].
  assert (1 <= j) as Hj1.
  { destruct (Z.eq_dec j 0) as [->|]; [|lia]. simpl in Hmin. lia. }
  set (cap' := QueryEntitySet.capacity s * 2 ^ j) in *.
  assert (cap' < 2 ^ 31) as Hcap'.
  { specialize (Hleast (j - 1) ltac:(lia)). unfold cap'.
    replace j with (j - 1 + 1) by lia. rewrite Z.pow_add_r by lia. lia. }
  assert (QueryEntitySet.capacity s <= cap') as Hmono by lia.
  unfold QueryEntitySet.grow. rewrite Hrun. cbn [mbind option_bind].
  rewrite (words_of cap') by lia.
  pose proof (qwf_len s Hwf) as Hbl.
  assert (Z.of_nat (length (QueryEntitySet.bottom s)) <= (cap' + 31) / 32) as Hble.
  { rewrite Hbl. apply Z.div_le_mono; lia. }
  rewrite alloc_copy_ok by done. cbn [mbind option_bind].
  eexists. split; [done|]. split; [|simpl; split; [by exists j|by eauto 10]].
  constructor; unfold two_level; simpl.
  - lia.
  - rewrite length_app, length_replicate. lia.
  - apply Forall_app. split; [apply (qwf_range s Hwf)|].
    apply Forall_replicate. unfold uint32. lia.
Qed.

Lemma QES_has_grow gid s s' e n :
  QueryEntitySet.capacity s <= QueryEntitySet.capacity s' ->
  QueryEntitySet.bottom s' = QueryEntitySet.bottom s ++ replicate n 0 ->
  QueryEntitySet._dense s' = QueryEntitySet._dense s ->
  QueryEntitySet._sparse s' = QueryEntitySet._sparse s ->
  QueryEntitySet.has gid s e = true -> QueryEntitySet.has gid s' e = true.
Proof.
  intros Hcap Hbot Hd Hs. unfold QueryEntitySet.has, QueryEntitySet.stored.
  destruct (Z.geb_spec (gid e) (QueryEntitySet.capacity s)); [done|].
  destruct (Z.geb_spec (gid e) (QueryEntitySet.capacity s')); [lia|].
  by rewrite Hbot, num_get_app_zeros, Hd, Hs.
Qed.

Lemma get_app_l {A} (l l' : list A) i x : JS.get l i = Some x -> JS.get (l ++ l') i = Some x.
Proof.
  unfold JS.get. destruct (i <? 0); [done|]. intros H. by apply lookup_app_l_Some.
Qed.

Lemma mask_grow_spec masks g eid arr :
  JS.get masks g = Some arr -> 1 <= Z.of_nat (length arr) <= eid ->
  exists masks' grown,
    ensureEntityMaskSize masks g eid = Some masks'
    /\ JS.get masks' g = Some grown
    /\ smallest_doubling (Z.of_nat (length arr)) (Z.of_nat (length grown)) (eid + 1)
    /\ (length arr <= length grown)%nat
    /\ (forall i w, JS.get arr i = Some w -> JS.get grown i = Some w)
    /\ (forall g', g' <> g -> JS.get masks' g' = JS.get masks g')
    /\ length masks' = length masks.
Proof.
  intros Hrow Hlen. unfold ensureEntityMaskSize. rewrite Hrow. cbn [mbind option_bind].
  destruct (Z.ltb_spec eid (Z.of_nat (length arr))); [lia|].
  destruct (double_while_total (fun n => n <=? eid) (eid + 1) (Z.of_nat (length arr)))
    as (j & Hj & Hrun & Hmin & Hleast); [|lia|].
  { intros x. destruct (Z.leb_spec x eid), (Z.ltb_spec x (eid + 1)); (done || lia). }
  rewrite Hrun. cbn [mbind option_bind].
  assert (Z.of_nat (length arr) <= Z.of_nat (length arr) * 2 ^ j) as Hmono.
  { pose proof (Z.pow_pos_nonneg 2 j ltac:(lia) ltac:(lia)). nia. }
  rewrite alloc_copy_ok by done. cbn [mbind option_bind].
  pose proof (get_Some_lt _ _ _ Hrow) as Hg.
  eexists _, _. split; [done|]. split.
  { unfold JS.get. destruct (Z.ltb_spec g 0); [lia|].
    apply list_lookup_insert_eq. lia. }
  rewrite length_app, length_replicate.
  replace (Z.of_nat (length arr + (Z.to_nat (Z.of_nat (length arr) * 2 ^ j) - length arr)))
    with (Z.of_nat (length arr) * 2 ^ j) by lia.
  split; [by exists j|]. split; [lia|]. split; [|split].
  - intros i w Hi. by apply get_app_l.
  - intros g' Hne. unfold JS.get. destruct (Z.ltb_spec g' 0); [done|].
    apply list_lookup_insert_ne. lia.
  - apply length_insert.
Qed.

(** C7: every growth triggered by a key or index at or beyond the current
    capacity -- [BitSet.grow] as run by [BitSet.add], [QueryEntitySet.grow],
    and [ensureEntityMaskSize] -- returns, never shrinks the capacity, keeps
    every bit (every mask word) that was there at its position, and makes
    the capacity the smallest repeated doubling of the old one that is at
    least the requested index + 1. *)
Theorem growth_smallest_doubling :
  (forall s key, BitSet_wf s -> BitSet.capacity s <= key < 2 ^ 30 ->
     exists s',
       BitSet.grow s (key + 1) = Some s'
       /\ BitSet.capacity s <= BitSet.capacity s'
       /\ smallest_doubling (BitSet.capacity s) (BitSet.capacity s') (key + 1)
       /\ (forall k, 0 <= k -> BitSet.has s' k = BitSet.has s k)
       /\ BitSet.count s' = BitSet.count s
       /\ exists s'', BitSet.add s key = Some (true, s'')
                      /\ BitSet.capacity s'' = BitSet.capacity s'
                      /\ forall k, 0 <= k -> BitSet.has s k = true -> BitSet.has s'' k = true)
  /\ (forall s key, QES_wf s -> QueryEntitySet.capacity s <= key < 2 ^ 30 ->
        exists s',
          QueryEntitySet.grow s (key + 1) = Some s'
          /\ QueryEntitySet.capacity s <= QueryEntitySet.capacity s'
          /\ smallest_doubling (QueryEntitySet.capacity s) (QueryEntitySet.capacity s') (key + 1)
          /\ (forall k, bit_at (QueryEntitySet.bottom s') k = bit_at (QueryEntitySet.bottom s) k)
          /\ QueryEntitySet.size s' = QueryEntitySet.size s
          /\ forall getEntityId e,
               QueryEntitySet.has getEntityId s e = true ->
               QueryEntitySet.has getEntityId s' e = true)
  /\ (forall masks generationId eid arr,
        JS.get masks generationId = Some arr -> 1 <= Z.of_nat (length arr) <= eid ->
        exists masks' grown,
          ensureEntityMaskSize masks generationId eid = Some masks'
          /\ JS.get masks' generationId = Some grown
          /\ (length arr <= length grown)%nat
          /\ smallest_doubling (Z.of_nat (length arr)) (Z.of_nat (length grown)) (eid + 1)
          /\ (forall i w, JS.get arr i = Some w -> JS.get grown i = Some w)
          /\ forall g', g' <> generationId -> JS.get masks' g' = JS.get masks g').
Proof.
  split; [|split].
  - intros s key Hwf Hkey.
    destruct (grow_spec s key Hwf Hkey)
      as (s' & j & Hgrow & Hwf' & Hj & Hcap & Hfit & Hleast & Hcount & [n Hbot] & _).
    pose proof (wf_cap s Hwf) as Hc.
    assert (forall k, 0 <= k -> BitSet.has s' k = BitSet.has s k) as Hhas.
    { intros k Hk. rewrite !has_spec by done. by rewrite Hbot, bit_at_app_zeros. }
    exists s'. split; [done|]. split.
    { rewrite Hcap. pose proof (Z.pow_pos_nonneg 2 j ltac:(lia) ltac:(lia)). nia. }
    split; [exists j; split; [lia|done]|]. split; [done|]. split; [done|].
    destruct (add_fit s' key Hwf' ltac:(lia)) as (s'' & Hadd & Hwf'' & Hbits & _ & Hcap'').
    assert (BitSet.has s key = false) as Hno.
    { unfold BitSet.has. destruct (Z.geb_spec key (BitSet.capacity s)); [done|lia]. }
    exists s''. rewrite (add_after_grow s s' key) by (done || lia).
    rewrite Hadd, Hhas, Hno by lia. split; [done|]. split; [done|].
    intros k Hk Hin. rewrite has_spec, Hbits by done.
    rewrite <- has_spec, Hhas, Hin by done. done.
  - intros s key Hwf Hkey.
    destruct (QES_grow_spec s key Hwf Hkey)
      as (s' & Hgrow & Hwf' & Hdbl & Hmono & [n Hbot] & Hd & Hs & Hc).
    exists s'. do 3 (split; [done|]). split; [|split; [done|]].
    + intros k. by rewrite Hbot, bit_at_app_zeros.
    + intros gid e. by apply (QES_has_grow gid s s' e n).
  - intros masks g eid arr Hrow Hlen.
    destruct (mask_grow_spec masks g eid arr Hrow Hlen)
      as (masks' & grown & He & Hg & Hdbl & Hle & Hpre & Hoth & _).
    by exists masks', grown.
Qed.

Lemma growth_smallest_doubling_witness :
  (exists s', BitSet.grow (BitSet.new 1024) (5000 + 1) = Some s'
              /\ BitSet.capacity s' = 8192
              /\ smallest_doubling 1024 (BitSet.capacity s') (5000 + 1))
  /\ (exists s', QueryEntitySet.grow (QueryEntitySet.new 1024) (5000 + 1) = Some s'
                 /\ QueryEntitySet.capacity s' = 8192
                 /\ smallest_doubling 1024 (QueryEntitySet.capacity s') (5000 + 1))
  /\ (exists masks' grown,
        ensureEntityMaskSize [[1; 2]; [3]] 1 5 = Some masks'
        /\ JS.get masks' 1 = Some grown /\ grown = [3; 0; 0; 0; 0; 0; 0; 0]
        /\ smallest_doubling 1 (Z.of_nat (length grown)) (5 + 1)).
Proof.
  split; [|split].
  - destruct (proj1 growth_smallest_doubling (BitSet.new 1024) 5000)
      as (s' & Hgrow & _ & Hdbl & _); [by apply new_wf | by vm_compute |].
    exists s'. split; [done|]. split; [|done].
    vm_compute in Hgrow. by injection Hgrow as <-.
  - destruct (proj1 (proj2 growth_smallest_doubling) (QueryEntitySet.new 1024) 5000)
      as (s' & Hgrow & _ & Hdbl & _); [by apply QES_new_wf | by vm_compute |].
    exists s'. split; [done|]. split; [|done].
    unfold QueryEntitySet.grow in Hgrow. vm_compute in Hgrow. by injection Hgrow as <-.
  - destruct (proj2 (proj2 growth_smallest_doubling) [[1; 2]; [3]] 1 5 [3])
      as (masks' & grown & He & Hg & _ & Hdbl & _); [done | by vm_compute |].
    exists masks', grown. split; [done|]. split; [done|]. split; [|done].
    vm_compute in He. injection He as <-. vm_compute in Hg. by injection Hg as <-.
Defined.

(** ** QueryEntitySet: add then remove, and in-place overwrite *)

Lemma slot_test l eid :
  0 <= eid < 2 ^ 32 ->
  JS.truthy (JS.and (JS.num (JS.get l (JS.ushr eid 5))) (JS.shl 1 (JS.and eid 31)))
  = bit_at l eid.
Proof.
  intros Heid. rewrite ushr5, and31 by done.
  rewrite test_bit by (apply Z.mod_pos_bound; lia). done.
Qed.

Lemma QES_slot_bounds s eid :
  QES_wf s -> 0 <= eid < QueryEntitySet.capacity s ->
  eid < 2 ^ 31 /\ 0 <= eid / 32 < Z.of_nat (length (QueryEntitySet.bottom s)).
Proof.
  intros Hwf Heid. pose proof (qwf_cap s Hwf). rewrite (qwf_len s Hwf).
  Z.div_mod_to_equations. lia.
Qed.

(** [add] of a handle whose slot bit is clear, when no growth is needed,
    followed by [remove] of the same handle. *)
Lemma QES_add_remove_fit gid s e :
  QES_wf s -> 0 <= gid e < QueryEntitySet.capacity s ->
  bit_at (QueryEntitySet.bottom s) (gid e) = false ->
  exists s1 s2,
    QueryEntitySet.add gid s e = Some s1
    /\ QueryEntitySet.has gid s1 e = true
    /\ QueryEntitySet.size s1 = QueryEntitySet.size s + 1
    /\ QueryEntitySet.remove gid s1 e = Some s2
    /\ QueryEntitySet.has gid s2 e = false
    /\ QueryEntitySet.size s2 = QueryEntitySet.size s.
Proof.
  intros Hwf Heid Hbit. destruct (QES_slot_bounds s (gid e) Hwf Heid) as [H31 Hidx].
  assert (0 <= gid e < 2 ^ 32) as H32 by lia.
  set (s1 := {| QueryEntitySet.bottom :=
                  JS.set32 (QueryEntitySet.bottom s) (gid e / 32)
                    (JS.or (JS.num (JS.get (QueryEntitySet.bottom s) (gid e / 32)))
                           (JS.shl 1 (gid e mod 32)));
                QueryEntitySet.capacity := QueryEntitySet.capacity s;
                QueryEntitySet._dense := <[QueryEntitySet._cursor s := e]> (QueryEntitySet._dense s);
                QueryEntitySet._sparse := <[gid e := QueryEntitySet._cursor s]> (QueryEntitySet._sparse s);
                QueryEntitySet._cursor := QueryEntitySet._cursor s + 1 |}).
  assert (QueryEntitySet.add gid s e = Some s1) as Hadd.
  { unfold QueryEntitySet.add.
    destruct (Z.geb_spec (gid e) (QueryEntitySet.capacity s)); [lia|].
    cbn [mbind option_bind]. rewrite slot_test, Hbit by done.
    by rewrite ushr5, and31 by done. }
  assert (bit_at (QueryEntitySet.bottom s1) (gid e) = true) as Hbit1.
  { unfold s1. simpl. rewrite bit_at_set by lia. by rewrite Z.eqb_refl, orb_true_r. }
  assert (QueryEntitySet.stored s1 (gid e) = Some e) as Hstored.
  { unfold QueryEntitySet.stored, s1. simpl. rewrite lookup_insert_eq. simpl.
    by rewrite lookup_insert_eq. }
  exists s1. eexists. split; [done|]. split; [|split; [done|]].
  { unfold QueryEntitySet.has.
    destruct (Z.geb_spec (gid e) (QueryEntitySet.capacity s1)); [simpl in *; lia|].
    pose proof (slot_test (QueryEntitySet.bottom s1) (gid e) H32) as Ht.
    rewrite Hbit1 in Ht. unfold JS.truthy in Ht. apply negb_true_iff in Ht. rewrite Ht.
    by rewrite Hstored, bool_decide_eq_true_2. }
  split.
  { unfold QueryEntitySet.remove.
    destruct (Z.geb_spec (gid e) (QueryEntitySet.capacity s1)); [simpl in *; lia|].
    rewrite slot_test, Hbit1 by done. cbn [negb].
    rewrite Hstored, bool_decide_eq_true_2 by done. cbn [negb].
    unfold s1.
    cbn [QueryEntitySet._sparse QueryEntitySet._dense QueryEntitySet._cursor
         QueryEntitySet.bottom QueryEntitySet.capacity].
    rewrite lookup_insert_eq. cbn [mbind option_bind].
    rewrite bool_decide_eq_false_2 by lia. done. }
  split; [|unfold QueryEntitySet.size; simpl; lia].
  unfold QueryEntitySet.has. cbn [QueryEntitySet.capacity QueryEntitySet.bottom].
  destruct (Z.geb_spec (gid e) (QueryEntitySet.capacity s)); [done|].
  match goal with |- (if ?c then _ else _) = _ => assert (c = true) as ->; [|done] end.
  apply Z.eqb_eq.
  match goal with |- ?x = 0 =>
    assert (JS.truthy x = false) as Ht; [|unfold JS.truthy in Ht;
      apply negb_false_iff in Ht; by apply Z.eqb_eq in Ht] end.
  rewrite slot_test by done. rewrite !ushr5, !and31 by done.
  rewrite bit_at_clear; [by rewrite Z.eqb_refl, andb_false_r|lia| |lia].
  unfold s1. simpl. rewrite length_set32. lia.
Qed.

Lemma QES_add_after_grow gid s s1 e :
  QueryEntitySet.capacity s <= gid e -> QueryEntitySet.grow s (gid e + 1) = Some s1 ->
  gid e < QueryEntitySet.capacity s1 ->
  QueryEntitySet.add gid s e = QueryEntitySet.add gid s1 e.
Proof.
  intros Hge Hgrow Hlt. unfold QueryEntitySet.add.
  destruct (Z.geb_spec (gid e) (QueryEntitySet.capacity s)); [|lia].
  destruct (Z.geb_spec (gid e) (QueryEntitySet.capacity s1)); [lia|].
  by rewrite Hgrow.
Qed.

Lemma QES_add_remove gid s e :
  QES_wf s -> 0 <= gid e -> gid e < QueryEntitySet.capacity s \/ gid e < 2 ^ 30 ->
  bit_at (QueryEntitySet.bottom s) (gid e) = false ->
  exists s1 s2,
    QueryEntitySet.add gid s e = Some s1
    /\ QueryEntitySet.has gid s1 e = true
    /\ QueryEntitySet.size s1 = QueryEntitySet.size s + 1
    /\ QueryEntitySet.remove gid s1 e = Some s2
    /\ QueryEntitySet.has gid s2 e = false
    /\ QueryEntitySet.size s2 = QueryEntitySet.size s.
Proof.
  intros Hwf Hnn Hbound Hbit.
  destruct (Z.lt_ge_cases (gid e) (QueryEntitySet.capacity s)) as [Hlt|Hge].
  - by apply QES_add_remove_fit.
  - destruct (QES_grow_spec s (gid e) Hwf ltac:(lia))
      as (sg & Hgrow & Hwfg & (j & Hj & Hcap & Hfit & _) & _ & [n Hbot] & _ & _ & Hcur).
    destruct (QES_add_remove_fit gid sg e Hwfg ltac:(lia)) as (s1 & s2 & H).
    { by rewrite Hbot, bit_at_app_zeros. }
    exists s1, s2. rewrite (QES_add_after_grow gid s sg e) by (done || lia).
    unfold QueryEntitySet.size in *. rewrite <- Hcur. done.
Qed.

(** [add] of a handle whose slot bit is set and whose dense slot stores
    another handle. *)
Lemma QES_add_overwrite gid s e e' i :
  QES_wf s -> 0 <= gid e < QueryEntitySet.capacity s ->
  bit_at (QueryEntitySet.bottom s) (gid e) = true ->
  QueryEntitySet._sparse s !! gid e = Some i ->
  QueryEntitySet._dense s !! i = Some e' -> e' <> e ->
  exists s',
    QueryEntitySet.add gid s e = Some s'
    /\ QueryEntitySet._dense s' = <[i := e]> (QueryEntitySet._dense s)
    /\ QueryEntitySet.size s' = QueryEntitySet.size s
    /\ QueryEntitySet.bottom s' = QueryEntitySet.bottom s
    /\ QueryEntitySet._sparse s' = QueryEntitySet._sparse s
    /\ QueryEntitySet.capacity s' = QueryEntitySet.capacity s
    /\ QueryEntitySet.has gid s' e = true.
Proof.
  intros Hwf Heid Hbit Hsp Hd Hne.
  destruct (QES_slot_bounds s (gid e) Hwf Heid) as [H31 Hidx].
  assert (0 <= gid e < 2 ^ 32) as H32 by lia.
  eexists. split.
  { unfold QueryEntitySet.add.
    destruct (Z.geb_spec (gid e) (QueryEntitySet.capacity s)); [lia|].
    cbn [mbind option_bind]. rewrite slot_test, Hbit, Hsp by done.
    cbn [mbind option_bind]. rewrite bool_decide_eq_false_2; [done|].
    rewrite Hd. by intros [= ?]. }
  simpl. do 5 (split; [done|]).
  unfold QueryEntitySet.has, QueryEntitySet.stored. simpl.
  destruct (Z.geb_spec (gid e) (QueryEntitySet.capacity s)); [lia|].
  pose proof (slot_test (QueryEntitySet.bottom s) (gid e) H32) as Ht.
  rewrite Hbit in Ht. unfold JS.truthy in Ht. apply negb_true_iff in Ht. rewrite Ht.
  rewrite Hsp. simpl. by rewrite lookup_insert_eq, bool_decide_eq_true_2.
Qed.

(** C3, as stated, fails: on the set holding handle 7, [add 7] changes
    nothing and the following [remove 7] leaves the size one below its
    value before the [add]. *)
Lemma QueryEntitySet_add_remove_counterexample :
  ~ (forall (getEntityId : Z -> Z) e0 s e s1 s2,
       QueryEntitySet.add getEntityId (QueryEntitySet.new 1024) e0 = Some s ->
       QueryEntitySet.add getEntityId s e = Some s1 ->
       QueryEntitySet.remove getEntityId s1 e = Some s2 ->
       QueryEntitySet.has getEntityId s2 e = false
       /\ QueryEntitySet.size s2 = QueryEntitySet.size s).
Proof.
  intros H. pose (gid := fun e => Z.land e 1048575).
  destruct (QueryEntitySet.add gid (QueryEntitySet.new 1024) 7) as [s|] eqn:Hs;
    [|by vm_compute in Hs].
  destruct (QueryEntitySet.add gid s 7) as [s1|] eqn:Hs1;
    [|injection Hs as <-; by vm_compute in Hs1].
  destruct (QueryEntitySet.remove gid s1 7) as [s2|] eqn:Hs2;
    [|injection Hs as <-; injection Hs1 as <-; by vm_compute in Hs2].
  destruct (H gid 7 s 7 s1 s2 Hs Hs1 Hs2) as [_ Hsize].
  injection Hs as <-. injection Hs1 as <-. injection Hs2 as <-.
  by vm_compute in Hsize.
Qed.

(** C3 (amended): for every QueryEntitySet state and every handle [e] whose
    slot's membership bit is not set, [add e] then [remove e] both return,
    leave [has e] false and [size] at its value before the [add]; and [add]
    of a handle whose slot's bit is set while the dense slot stores a
    different handle overwrites the stored handle in place, leaving [size],
    the bits and the sparse map unchanged. *)
Theorem QueryEntitySet_add_remove_overwrite (getEntityId : Z -> Z) s e :
  QES_wf s ->
  (0 <= getEntityId e ->
   getEntityId e < QueryEntitySet.capacity s \/ getEntityId e < 2 ^ 30 ->
   bit_at (QueryEntitySet.bottom s) (getEntityId e) = false ->
   exists s1 s2,
     QueryEntitySet.add getEntityId s e = Some s1
     /\ QueryEntitySet.has getEntityId s1 e = true
     /\ QueryEntitySet.remove getEntityId s1 e = Some s2
     /\ QueryEntitySet.has getEntityId s2 e = false
     /\ QueryEntitySet.size s2 = QueryEntitySet.size s)
  /\ (forall e' i,
        0 <= getEntityId e < QueryEntitySet.capacity s ->
        bit_at (QueryEntitySet.bottom s) (getEntityId e) = true ->
        QueryEntitySet._sparse s !! getEntityId e = Some i ->
        QueryEntitySet._dense s !! i = Some e' -> e' <> e ->
        exists s',
          QueryEntitySet.add getEntityId s e = Some s'
          /\ QueryEntitySet._dense s' = <[i := e]> (QueryEntitySet._dense s)
          /\ QueryEntitySet.size s' = QueryEntitySet.size s
          /\ QueryEntitySet.bottom s' = QueryEntitySet.bottom s
          /\ QueryEntitySet._sparse s' = QueryEntitySet._sparse s
          /\ QueryEntitySet.has getEntityId s' e = true).
Proof.
  intros Hwf. split.
  - intros Hnn Hbound Hbit.
    destruct (QES_add_remove getEntityId s e Hwf Hnn Hbound Hbit)
      as (s1 & s2 & ? & ? & ? & ? & ? & ?).
    by exists s1, s2.
  - intros e' i Heid Hbit Hsp Hd Hne.
    destruct (QES_add_overwrite getEntityId s e e' i Hwf Heid Hbit Hsp Hd Hne)
      as (s' & ? & ? & ? & ? & ? & ? & ?).
    by exists s'.
Qed.

Lemma QueryEntitySet_add_remove_overwrite_witness :
  let getEntityId := fun e => Z.land e 1048575 in
  let s := {| QueryEntitySet.bottom := <[0%nat := 128]> (replicate 32 0);
              QueryEntitySet.capacity := 1024;
              QueryEntitySet._dense := {[0 := 7]};
              QueryEntitySet._sparse := {[7 := 0]};
              QueryEntitySet._cursor := 1 |} in
  QueryEntitySet.add getEntityId (QueryEntitySet.new 1024) 7 = Some s
  /\ (exists s1 s2,
        QueryEntitySet.add getEntityId s 9 = Some s1
        /\ QueryEntitySet.has getEntityId s1 9 = true
        /\ QueryEntitySet.remove getEntityId s1 9 = Some s2
        /\ QueryEntitySet.has getEntityId s2 9 = false
        /\ QueryEntitySet.size s2 = QueryEntitySet.size s)
  /\ (exists s',
        QueryEntitySet.add getEntityId s (7 + 2 ^ 20) = Some s'
        /\ QueryEntitySet._dense s' = <[0 := 7 + 2 ^ 20]> (QueryEntitySet._dense s)
        /\ QueryEntitySet.size s' = QueryEntitySet.size s
        /\ QueryEntitySet.bottom s' = QueryEntitySet.bottom s
        /\ QueryEntitySet._sparse s' = QueryEntitySet._sparse s
        /\ QueryEntitySet.has getEntityId s' (7 + 2 ^ 20) = true).
Proof.
  intros getEntityId s.
  assert (QES_wf s) as Hwf.
  { constructor; [simpl; lia | done |].
    apply Forall_insert; [apply Forall_replicate|]; unfold uint32; lia. }
  split; [by vm_compute|]. split.
  - apply (proj1 (QueryEntitySet_add_remove_overwrite getEntityId s 9 Hwf));
      [by vm_compute | left; by vm_compute | by vm_compute].
  - apply (proj2 (QueryEntitySet_add_remove_overwrite getEntityId s (7 + 2 ^ 20) Hwf) 7 0);
      [by vm_compute | by vm_compute | by vm_compute | by vm_compute | by vm_compute].
Defined.

(** ** Query matching *)

Lemma ToInt32_idem z : JS.ToInt32 (JS.ToInt32 z) = JS.ToInt32 z.
Proof. apply ToInt32_id, ToInt32_range. Qed.

Lemma and_or0 m x : JS.and (JS.or m 0) x = JS.and m x.
Proof.
  unfold JS.and, JS.or. change (JS.ToInt32 0) with 0.
  by rewrite Z.lor_0_r, ToInt32_idem.
Qed.

Lemma and_0_r m : JS.and m 0 = 0.
Proof. unfold JS.and. change (JS.ToInt32 0) with 0. apply Z.land_0_r. Qed.

Lemma and_0_l x : JS.and 0 x = 0.
Proof. unfold JS.and. change (JS.ToInt32 0) with 0. apply Z.land_0_l. Qed.

Lemma entityMaskOf_and w g eid x :
  JS.and (Query.entityMaskOf w g eid) x = JS.and (mask_word w g eid) x.
Proof.
  unfold Query.entityMaskOf, mask_word.
  destruct (JS.get (entityMasks w) g); [apply and_or0|done].
Qed.

Lemma bank_tests_passes b w g eid :
  Query.bank_tests b (Query.entityMaskOf w g eid) = passes b (mask_word w g eid).
Proof.
  unfold Query.bank_tests, passes, JS.truthy. rewrite !entityMaskOf_and.
  destruct (Z.eqb_spec (Query.forbidden b) 0) as [->|_];
  destruct (Z.eqb_spec (Query.required b) 0) as [->|_];
  destruct (Z.eqb_spec (Query.or b) 0) as [->|_];
  rewrite ?and_0_r; simpl;
  repeat match goal with |- context [?x =? ?y] => destruct (x =? y); simpl end; done.
Qed.

Lemma check_loop_spec w q eid gens : forall i,
  Query.check_loop w q eid gens i = true <->
  forall j g, gens !! j = Some g ->
    match Query.bitmaskAt q (i + j) with
    | None => True
    | Some b => empty_triple b = false /\ passes b (mask_word w g eid) = true
    end.
Proof.
  induction gens as [|g gens IH]; intros i; simpl.
  - split; [by intros _ j g' ?|done].
  - assert (forall b, (negb (JS.truthy (Query.forbidden b)) && negb (JS.truthy (Query.required b))
                       && negb (JS.truthy (Query.or b))) = empty_triple b) as Hempty.
    { intros b. unfold empty_triple, JS.truthy. rewrite !negb_involutive.
      by destruct (Query.forbidden b =? 0), (Query.required b =? 0), (Query.or b =? 0). }
    split.
    + intros Hloop j g' Hj. destruct j as [|j]; simpl in Hj.
      * injection Hj as <-. rewrite Nat.add_0_r.
        destruct (Query.bitmaskAt q i) as [b|]; [|done].
        rewrite Hempty, bank_tests_passes in Hloop.
        destruct (empty_triple b); [done|]. by destruct (passes b _).
      * replace (i + S j)%nat with (S i + j)%nat by lia.
        apply (proj1 (IH (S i))); [|done].
        destruct (Query.bitmaskAt q i) as [b|]; [|done].
        rewrite Hempty, bank_tests_passes in Hloop.
        destruct (empty_triple b); [done|]. by destruct (passes b _).
    + intros Hall. pose proof (Hall 0%nat g eq_refl) as H0. rewrite Nat.add_0_r in H0.
      assert (Query.check_loop w q eid gens (S i) = true) as Hrest.
      { apply IH. intros j g' Hj. replace (S i + j)%nat with (i + S j)%nat by lia.
        by apply Hall. }
      destruct (Query.bitmaskAt q i) as [b|]; [|done].
      destruct H0 as [He Hp]. by rewrite Hempty, bank_tests_passes, He, Hp.
Qed.

Lemma passes_land b mask :
  uint32 mask ->
  0 <= Query.required b < 2 ^ 31 -> 0 <= Query.forbidden b < 2 ^ 31 ->
  0 <= Query.or b < 2 ^ 31 ->
  passes b mask =
    (Z.land mask (Query.forbidden b) =? 0)
    && (Z.land mask (Query.required b) =? Query.required b)
    && ((Query.or b =? 0) || negb (Z.land mask (Query.or b) =? 0)).
Proof.
  intros Hm Hr Hf Ho.
  assert (forall x, 0 <= x < 2 ^ 31 -> JS.and mask x = Z.land mask x) as Hand.
  { intros x Hx. unfold JS.and. rewrite (ToInt32_id x) by (unfold int32; lia).
    apply Z.bits_inj'. intros i Hi. rewrite !Z.land_spec.
    destruct (Z.lt_ge_cases i 31).
    - by rewrite testbit_ToInt32 by lia.
    - rewrite (Z.bits_above_log2 x i); [by rewrite !andb_false_r|lia|].
      pose proof (log2_lt_31 x Hx). lia. }
  unfold passes. by rewrite !Hand.
Qed.

(** C2: for every compiled single-bank query (one touched bank, its bitmask
    present) and every entity, [checkQuery] returns, and returns true iff
    the query touches at least one trait and the bank's triple passes
    against the entity's mask word, a bank row or word the mask table does
    not have reading as 0; a query touching zero traits matches no entity,
    whatever its shape.  With required = bits {0,1} and forbidden = bit {2},
    mask 0b011 matches and mask 0b111 does not.  For bitmasks below 2^31
    the 32-bit [&] is the bitwise and of the unsigned values. *)
Theorem checkQuery_single_bank :
  (forall getEntityId w q e generationId b,
     Query.generations q = [generationId] -> Query.bitmaskAt q 0 = Some b ->
     Query.checkQuery getEntityId w q e =
       Query.Returns (negb (length (Query.traitInstances_all q) =? 0)%nat
                      && passes b (mask_word w generationId (getEntityId e))))
  /\ (forall getEntityId w q e,
        Query.traitInstances_all q = [] ->
        Query.checkQuery getEntityId w q e = Query.Returns false)
  /\ (forall b mask,
        uint32 mask -> 0 <= Query.required b < 2 ^ 31 ->
        0 <= Query.forbidden b < 2 ^ 31 -> 0 <= Query.or b < 2 ^ 31 ->
        passes b mask =
          (Z.land mask (Query.forbidden b) =? 0)
          && (Z.land mask (Query.required b) =? Query.required b)
          && ((Query.or b =? 0) || negb (Z.land mask (Query.or b) =? 0)))
  /\ (let q := Query.mkQuery [Some (Query.mkBitmask 3 4 0)] [0] [10; 11; 12] in
      Query.checkQuery (fun e => Z.land e 1048575) (mkWorld ∅ [] ∅ None [[3]]) q 0
        = Query.Returns true
      /\ Query.checkQuery (fun e => Z.land e 1048575) (mkWorld ∅ [] ∅ None [[7]]) q 0
        = Query.Returns false
      /\ Query.checkQuery (fun e => Z.land e 1048575) (mkWorld ∅ [] ∅ None []) q 0
        = Query.Returns false).
Proof.
  split; [|split; [|split]].
  - intros gid w q e g b Hgens Hb. unfold Query.checkQuery.
    destruct (length (Query.traitInstances_all q) =? 0)%nat; [done|].
    by rewrite Hgens, Hb, bank_tests_passes.
  - intros gid w q e Hnil. unfold Query.checkQuery. by rewrite Hnil.
  - apply passes_land.
  - by vm_compute.
Qed.

Lemma checkQuery_single_bank_witness :
  let q := Query.mkQuery [Some (Query.mkBitmask 3 4 8)] [1] [10; 11; 12] in
  let w := mkWorld ∅ [] ∅ None [[0; 0]; [0; 11]] in
  Query.checkQuery (fun e => Z.land e 1048575) w q 1
  = Query.Returns (negb (length (Query.traitInstances_all q) =? 0)%nat
                   && passes (Query.mkBitmask 3 4 8) (mask_word w 1 1))
  /\ passes (Query.mkBitmask 3 4 8) 11 = true.
Proof.
  intros q w. split; [|by vm_compute].
  by apply (proj1 checkQuery_single_bank (fun e => Z.land e 1048575) w q 1 1).
Defined.

(** C1, as stated, fails: a two-bank query whose second bank has a present
    but entirely empty triple rejects an entity that passes every
    non-empty triple. *)
Lemma checkQuery_empty_triple_counterexample :
  ~ (forall (getEntityId : Z -> Z) w q e,
       (1 < length (Query.generations q))%nat ->
       Query.traitInstances_all q <> [] ->
       (forall i g b, Query.generations q !! i = Some g -> Query.bitmaskAt q i = Some b ->
                      empty_triple b = false ->
                      passes b (mask_word w g (getEntityId e)) = true) ->
       Query.checkQuery getEntityId w q e = Query.Returns true).
Proof.
  intros H.
  specialize (H (fun e => Z.land e 1048575) (mkWorld ∅ [] ∅ None [[1]; [0]])
                (Query.mkQuery [Some (Query.mkBitmask 1 0 0); Some (Query.mkBitmask 0 0 0)]
                               [0; 1] [10])
                0).
  assert (Query.Returns false = Query.Returns true) as Habs; [|done].
  apply H; [simpl; lia | done |].
  intros i g b Hg Hb Hne.
  destruct i as [|[|i]]; simpl in Hg, Hb; [| |done].
  - injection Hg as <-. injection Hb as <-. by vm_compute.
  - injection Hb as <-. by vm_compute in Hne.
Qed.

(** C1 (amended): for every multi-bank compiled query (its number of
    touched banks is not 1) touching at least one trait and every entity,
    [checkQuery] returns, and returns true iff every touched bank whose
    bitmask entry is present has a triple that is not entirely empty and
    passes against the entity's mask word; a touched bank whose bitmask entry
    is absent is skipped. *)
Theorem checkQuery_multi_bank getEntityId w q e :
  length (Query.generations q) <> 1%nat -> Query.traitInstances_all q <> [] ->
  exists r,
    Query.checkQuery getEntityId w q e = Query.Returns r
    /\ (r = true <->
        forall i g, Query.generations q !! i = Some g ->
          match Query.bitmaskAt q i with
          | None => True
          | Some b => empty_triple b = false
                      /\ passes b (mask_word w g (getEntityId e)) = true
          end).
Proof.
  intros Hlen Htraits. unfold Query.checkQuery.
  destruct (Query.traitInstances_all q) as [|t ts] eqn:Ht; [done|]. simpl.
  exists (Query.check_loop w q (getEntityId e) (Query.generations q) 0). split.
  - by destruct (Query.generations q) as [|g [|g' gens]].
  - apply (check_loop_spec w q (getEntityId e) (Query.generations q) 0).
Qed.

Lemma checkQuery_multi_bank_witness :
  let getEntityId := fun e => Z.land e 1048575 in
  let w := mkWorld ∅ [] ∅ None [[1]; [6]] in
  let q := Query.mkQuery [Some (Query.mkBitmask 1 0 0); None; Some (Query.mkBitmask 2 1 4)]
                         [0; 5; 1] [10; 11] in
  Query.checkQuery getEntityId w q 0 = Query.Returns true
  /\ exists r,
       Query.checkQuery getEntityId w q 0 = Query.Returns r
       /\ (r = true <->
           forall i g, Query.generations q !! i = Some g ->
             match Query.bitmaskAt q i with
             | None => True
             | Some b => empty_triple b = false
                         /\ passes b (mask_word w g (getEntityId 0)) = true
             end).
Proof.
  intros getEntityId w q. split; [by vm_compute|].
  apply (checkQuery_multi_bank getEntityId w q 0); [simpl; lia | done].
Defined.

(** ** Entity destruction: the relation loop *)

Lemma world_has_true w e : world_has w e = true <-> e ∈ entityIndex w.
Proof. unfold world_has. apply bool_decide_eq_true. Qed.

Lemma shrunk_refl r : shrunk r r.
Proof. by split. Qed.

Lemma shrunk_trans r1 r2 r3 : shrunk r1 r2 -> shrunk r2 r3 -> shrunk r1 r3.
Proof.
  intros (Ha & Hp & Hl) (Ha' & Hp' & Hl'). split; [congruence|]. split; [|lia].
  intros p Hin. by apply Hp', Hp.
Qed.

Lemma shrunk_all_refl rs : Forall2 shrunk rs rs.
Proof. induction rs; constructor; [apply shrunk_refl|done]. Qed.

Lemma shrunk_all_trans rs1 rs2 rs3 :
  Forall2 shrunk rs1 rs2 -> Forall2 shrunk rs2 rs3 -> Forall2 shrunk rs1 rs3.
Proof.
  intros H12 H23. eapply Forall2_trans; [|done..].
  intros x y z. apply shrunk_trans.
Qed.

Lemma shrunk_total rs' rs :
  Forall2 shrunk rs' rs ->
  (sum_list_with (fun r => length (pairs r)) rs'
   <= sum_list_with (fun r => length (pairs r)) rs)%nat.
Proof.
  induction 1 as [|r' r rs' rs (_ & _ & Hl) _ IH]; simpl; [done|]. lia.
Qed.

Lemma shrunk_filter (P : Z * Z -> Prop) `{!forall p, Decision (P p)} r :
  shrunk (mkRelation (autoDestroy r) (filter P (pairs r))) r.
Proof.
  split; [done|]. simpl. split; [|apply length_filter].
  intros p Hp. by apply list_elem_of_filter in Hp as [_ ?].
Qed.

Lemma grows_refl st : grows 0 st st.
Proof.
  split; [done|]. split; [apply shrunk_all_refl|].
  exists []. split; [done|]. split; [done|]. by intros e ?%elem_of_nil.
Qed.

Lemma grows_trans n m st0 st1 st2 :
  grows n st0 st1 -> grows m st1 st2 -> grows (n + m) st0 st2.
Proof.
  intros (Ha1 & Hr1 & p1 & Hq1 & Hl1 & He1) (Ha2 & Hr2 & p2 & Hq2 & Hl2 & He2).
  split; [congruence|]. split; [by eapply shrunk_all_trans|].
  exists (p2 ++ p1). split; [by rewrite Hq2, Hq1, app_assoc|].
  split; [rewrite length_app; lia|].
  intros e He. apply elem_of_app in He as [He|He].
  - rewrite <- Ha1. by apply He2.
  - by apply He1.
Qed.

Lemma grows_weaken n m st0 st : grows n st0 st -> (n <= m)%nat -> grows m st0 st.
Proof.
  intros (Ha & Hr & p & Hq & Hl & He) Hnm.
  split; [done|]. split; [done|]. exists p. split; [done|]. split; [lia|done].
Qed.

Lemma grows_cleanup st ri source target :
  grows 0 st (cleanupRelationTarget st.1 ri source target, st.2).
Proof.
  split; [done|]. split.
  - simpl. apply Forall2_alter_l; [apply shrunk_all_refl|].
    intros x y _ _ Hxy. eapply shrunk_trans; [apply shrunk_filter|done].
  - exists []. split; [done|]. split; [done|]. by intros e ?%elem_of_nil.
Qed.

Lemma grows_push st e : e ∈ entityIndex st.1 -> grows 1 st (st.1, e :: st.2).
Proof.
  intros He. split; [done|]. split; [apply shrunk_all_refl|].
  exists [e]. split; [done|]. split; [done|]. by intros e' ->%list_elem_of_singleton.
Qed.

Lemma source_step_grows relation ri c st source :
  grows (match autoDestroy relation with destroy_source => 1 | _ => 0 end)
        st (source_step relation ri c st source).
Proof.
  unfold source_step. destruct (world_has st.1 source) eqn:Hhas.
  - apply world_has_true in Hhas.
    destruct (autoDestroy relation).
    + apply grows_cleanup.
    + apply (grows_trans 0 1 st (cleanupRelationTarget st.1 ri source c, st.2));
        [apply grows_cleanup|]. by apply (grows_push (_, st.2)).
    + apply grows_cleanup.
  - eapply grows_weaken; [apply grows_refl|lia].
Qed.

Lemma sources_loop_grows relation ri c sources : forall st,
  grows (match autoDestroy relation with destroy_source => length sources | _ => 0 end)
        st (foldl (source_step relation ri c) st sources).
Proof.
  induction sources as [|s sources IH]; intros st; simpl.
  - eapply grows_weaken; [apply grows_refl|]. by destruct (autoDestroy relation).
  - eapply grows_weaken.
    + eapply grows_trans; [apply (source_step_grows relation ri c st s)|apply IH].
    + destruct (autoDestroy relation); lia.
Qed.

Lemma targets_loop_grows w processed targets : forall queue,
  exists pushed,
    foldl (target_step w processed) queue targets = pushed ++ queue
    /\ (length pushed <= length targets)%nat
    /\ forall e, e ∈ pushed -> e ∈ entityIndex w /\ e ∉ processed.
Proof.
  induction targets as [|t targets IH]; intros queue; simpl.
  - exists []. split; [done|]. split; [done|]. by intros e ?%elem_of_nil.
  - destruct (IH (target_step w processed queue t)) as (pushed & Hq & Hl & He).
    unfold target_step in *.
    destruct (world_has w t && negb (bool_decide (t ∈ processed))) eqn:Hc.
    + exists (pushed ++ [t]). split; [by rewrite Hq, <- app_assoc|].
      split; [rewrite length_app; simpl; lia|].
      intros e Hin. apply elem_of_app in Hin as [Hin|Hin]; [by apply He|].
      apply list_elem_of_singleton in Hin as ->.
      apply andb_true_iff in Hc as [H1 H2]. split; [by apply world_has_true|].
      apply negb_true_iff in H2. by apply bool_decide_eq_false in H2.
    + exists pushed. split; [done|]. split; [lia|done].
Qed.

Lemma pairs_le_total w ri r :
  relations w !! ri = Some r -> (length (pairs r) <= total_pairs w)%nat.
Proof.
  intros Hr. unfold total_pairs.
  apply (sum_list_with_in r (fun r => length (pairs r))).
  by eapply list_elem_of_lookup_2.
Qed.

Lemma grows_total n st0 st : grows n st0 st -> (total_pairs st.1 <= total_pairs st0.1)%nat.
Proof. intros (_ & Hr & _). by apply shrunk_total. Qed.

Lemma relation_step_grows c processed st ri :
  grows (total_pairs st.1) st (relation_step c processed st ri).
Proof.
  unfold relation_step. destruct (relations st.1 !! ri) as [r|] eqn:Hr.
  2:{ eapply grows_weaken; [apply grows_refl|lia]. }
  pose proof (pairs_le_total st.1 ri r Hr) as Hle.
  pose proof (sources_loop_grows r ri c (getEntitiesWithRelationTo st.1 ri c) st) as Hsrc.
  assert (length (getEntitiesWithRelationTo st.1 ri c) <= length (pairs r))%nat as Hlen.
  { unfold getEntitiesWithRelationTo. rewrite Hr, length_fmap. apply length_filter. }
  set (st1 := foldl (source_step r ri c) st (getEntitiesWithRelationTo st.1 ri c)) in *.
  destruct (autoDestroy r) eqn:Hpol.
  - eapply grows_weaken; [done|lia].
  - eapply grows_weaken; [done|lia].
  - destruct (targets_loop_grows st1.1 processed (getRelationTargets st1.1 ri c) st1.2)
      as (pushed & Hq & Hl & He).
    destruct Hsrc as (Ha & Hrel & p0 & Hq0 & Hl0 & He0).
    assert (p0 = []) as -> by (destruct p0; [done|simpl in Hl0; lia]).
    split; [done|]. split; [done|]. exists pushed. simpl.
    split; [by rewrite Hq, Hq0|]. split.
    + etrans; [done|]. unfold getRelationTargets.
      destruct (relations st1.1 !! ri) as [r1|] eqn:Hr1; [|simpl; lia].
      rewrite length_fmap. etrans; [apply length_filter|].
      etrans; [by eapply pairs_le_total|]. by apply shrunk_total.
    + intros e Hin. rewrite <- Ha. by apply He.
Qed.

Lemma relations_loop_grows c processed idxs : forall st,
  grows (length idxs * total_pairs st.1) st (foldl (relation_step c processed) st idxs).
Proof.
  induction idxs as [|ri idxs IH]; intros st; simpl; [apply grows_refl|].
  pose proof (relation_step_grows c processed st ri) as Hstep.
  pose proof (grows_total _ _ _ Hstep) as Htot.
  eapply grows_weaken; [eapply grows_trans; [exact Hstep|apply IH]|].
  nia.
Qed.

(** ** Entity destruction: releasing the current entity *)

Lemma removeTraits_frame w c traits :
  entityIndex (foldl (fun w trait => removeTrait w c trait) w traits) = entityIndex w
  /\ relations (foldl (fun w trait => removeTrait w c trait) w traits) = relations w.
Proof.
  revert w. induction traits as [|t traits IH]; intros w; simpl; [done|].
  destruct (IH (removeTrait w c t)) as [-> ->]. done.
Qed.

Lemma release_step_alive gid w c :
  entityIndex (release_step gid w c) = entityIndex w ∖ {[c]}.
Proof.
  unfold release_step. simpl. destruct (entityTraits w !! c); [|done].
  by rewrite (proj1 (removeTraits_frame w c l)).
Qed.

Lemma release_step_relations gid w c : relations (release_step gid w c) = relations w.
Proof.
  unfold release_step. simpl. destruct (entityTraits w !! c); [|done].
  by rewrite (proj2 (removeTraits_frame w c l)).
Qed.

(** ** Entity destruction: one round of the cascade and its termination *)

Lemma not_elem_of_remove (X : gset Z) c : c ∉ X ∖ {[c]}.
Proof. intros [_ H]%elem_of_difference. apply H. by apply elem_of_singleton. Qed.

Lemma elem_of_remove (X : gset Z) e c : e ∈ X -> e <> c -> e ∈ X ∖ {[c]}.
Proof.
  intros He Hne. apply elem_of_difference. split; [done|]. by intros ?%elem_of_singleton.
Qed.

Lemma process_step gid n P w c q processed :
  length (relations w) = n -> (total_pairs w <= P)%nat ->
  cascade_inv w (c :: q) processed -> c ∉ processed ->
  let st := foldl (relation_step c ({[c]} ∪ processed)) (w, q) (seq 0 n) in
  let w1 := release_step gid st.1 c in
  length (relations w1) = n /\ (total_pairs w1 <= P)%nat
  /\ cascade_inv w1 st.2 ({[c]} ∪ processed)
  /\ (length st.2 + size (entityIndex w1) * S (n * P)
      < length (c :: q) + size (entityIndex w) * S (n * P))%nat
  /\ entityIndex w1 = entityIndex w ∖ {[c]}
  /\ exists pushed, st.2 = pushed ++ q.
Proof.
  intros Hn HP [Hproc Hqueue] Hc st w1.
  pose proof (relations_loop_grows c ({[c]} ∪ processed) (seq 0 n) (w, q)) as Hg.
  fold st in Hg. rewrite length_seq in Hg. simpl in Hg.
  destruct Hg as (Ha & Hrel & pushed & Hq & Hl & He).
  assert (c ∈ entityIndex w) as Halive.
  { destruct (Hqueue c ltac:(left)); done. }
  assert (entityIndex w1 = entityIndex w ∖ {[c]}) as Hw1.
  { unfold w1. by rewrite release_step_alive, Ha. }
  split; [|split; [|split; [|split; [|split; [done|by exists pushed]]]]].
  - unfold w1. rewrite release_step_relations.
    apply Forall2_length in Hrel. simpl in Hrel. congruence.
  - unfold w1, total_pairs. rewrite release_step_relations.
    etrans; [by apply shrunk_total|done].
  - split.
    + intros e Hin. rewrite Hw1. apply elem_of_union in Hin as [Hin|Hin].
      * apply elem_of_singleton in Hin as ->. apply not_elem_of_remove.
      * specialize (Hproc e Hin). by intros [? _]%elem_of_difference.
    + intros e Hin. rewrite Hq in Hin. rewrite Hw1.
      destruct (decide (e = c)) as [->|Hne];
        [right; by apply elem_of_union_l, elem_of_singleton|].
      apply elem_of_app in Hin as [Hin|Hin].
      * left. specialize (He e Hin). by apply elem_of_remove.
      * destruct (Hqueue e ltac:(by right));
          [left; by apply elem_of_remove | right; by apply elem_of_union_r].
  - rewrite Hw1, Hq, length_app.
    rewrite size_difference by (by apply singleton_subseteq_l).
    rewrite size_singleton. simpl.
    assert (size (entityIndex w) <> 0)%nat.
    { intros Hz. apply size_empty_inv in Hz. rewrite Hz in Halive.
      by apply not_elem_of_empty in Halive. }
    assert (n * total_pairs w <= n * P)%nat by nia.
    nia.
Qed.

Lemma cascade_spec gid n P : forall fuel w queue processed,
  length (relations w) = n -> (total_pairs w <= P)%nat ->
  cascade_inv w queue processed ->
  (length queue + size (entityIndex w) * S (n * P) <= fuel)%nat ->
  exists w',
    cascade gid fuel n w queue processed = Some w'
    /\ entityIndex w' ⊆ entityIndex w
    /\ forall e, e ∈ queue -> e ∉ entityIndex w'.
Proof.
  induction fuel as [|fuel IH]; intros w queue processed Hn HP Hinv Hfuel.
  - destruct queue; [|simpl in Hfuel; lia].
    exists w. split; [done|]. split; [done|]. by intros e ?%elem_of_nil.
  - destruct queue as [|c q].
    { exists w. split; [done|]. split; [done|]. by intros e ?%elem_of_nil. }
    cbn [cascade]. case_bool_decide as Hc.
    + destruct (IH w q processed Hn HP) as (w' & Hrun & Hsub & Hdead).
      * destruct Hinv as [Hp Hq]. split; [done|]. intros e He. apply Hq. by right.
      * simpl in Hfuel. lia.
      * exists w'. split; [done|]. split; [done|].
        intros e He. apply elem_of_cons in He as [->|He]; [|by apply Hdead].
        destruct Hinv as [Hp _]. specialize (Hp c Hc).
        intros Hin. by apply Hp, Hsub.
    + destruct (process_step gid n P w c q processed Hn HP Hinv Hc)
        as (Hn1 & HP1 & Hinv1 & Hlt & Hw1 & pushed & Hq).
      destruct (IH _ _ _ Hn1 HP1 Hinv1) as (w' & Hrun & Hsub & Hdead); [lia|].
      exists w'. split; [done|]. split.
      * rewrite Hw1 in Hsub. intros e He. apply Hsub in He.
        by apply elem_of_difference in He as [? _].
      * intros e He. apply elem_of_cons in He as [->|He].
        -- rewrite Hw1 in Hsub. intros Hin. apply Hsub in Hin.
           by apply not_elem_of_remove in Hin.
        -- apply Hdead. rewrite Hq. apply elem_of_app. by right.
Qed.

(** ** Entity destruction: who is pushed *)

Lemma source_step_other r ri c st s j :
  j <> ri -> relations (source_step r ri c st s).1 !! j = relations st.1 !! j.
Proof.
  intros Hne. unfold source_step. destruct (world_has st.1 s); [|done].
  simpl. by apply list_lookup_alter_ne.
Qed.

Lemma sources_loop_other r ri c sources j : forall st,
  j <> ri -> relations (foldl (source_step r ri c) st sources).1 !! j = relations st.1 !! j.
Proof.
  induction sources as [|s sources IH]; intros st Hne; simpl; [done|].
  rewrite IH by done. by apply source_step_other.
Qed.

Lemma relation_step_other c processed st ri j :
  j <> ri -> relations (relation_step c processed st ri).1 !! j = relations st.1 !! j.
Proof.
  intros Hne. unfold relation_step. destruct (relations st.1 !! ri) as [r|]; [|done].
  destruct (autoDestroy r); simpl; by apply sources_loop_other.
Qed.

Lemma relations_loop_other c processed idxs j : forall st,
  j ∉ idxs ->
  relations (foldl (relation_step c processed) st idxs).1 !! j = relations st.1 !! j.
Proof.
  induction idxs as [|ri idxs IH]; intros st Hj; simpl; [done|].
  apply not_elem_of_cons in Hj as [Hne Hj].
  rewrite IH by done. by apply relation_step_other.
Qed.

Lemma sources_loop_pushes r ri c sources : forall st s,
  autoDestroy r = destroy_source -> s ∈ sources -> s ∈ entityIndex st.1 ->
  s ∈ (foldl (source_step r ri c) st sources).2.
Proof.
  induction sources as [|s0 sources IH]; intros st s Hpol Hin Halive; [by apply elem_of_nil in Hin|].
  simpl. pose proof (source_step_grows r ri c st s0) as (Ha & _ & p & Hq & _).
  apply elem_of_cons in Hin as [->|Hin].
  - pose proof (sources_loop_grows r ri c sources (source_step r ri c st s0))
      as (_ & _ & p' & Hq' & _).
    rewrite Hq'. apply elem_of_app. right.
    unfold source_step. apply world_has_true in Halive. rewrite Halive, Hpol. left.
  - apply IH; [done..|]. by rewrite Ha.
Qed.

Lemma relations_loop_pushes c processed w q n ri r b :
  (ri < n)%nat -> relations w !! ri = Some r -> autoDestroy r = destroy_source ->
  (b, c) ∈ pairs r -> b ∈ entityIndex w ->
  b ∈ (foldl (relation_step c processed) (w, q) (seq 0 n)).2.
Proof.
  intros Hri Hr Hpol Hpair Halive.
  replace n with (ri + S (n - S ri))%nat by lia.
  rewrite seq_app, foldl_app. simpl.
  set (sta := foldl (relation_step c processed) (w, q) (seq 0 ri)).
  assert (relations sta.1 !! ri = Some r) as Hra.
  { unfold sta. rewrite relations_loop_other; [done|].
    rewrite elem_of_seq. lia. }
  assert (entityIndex sta.1 = entityIndex w) as Haa
    by apply (relations_loop_grows c processed (seq 0 ri) (w, q)).
  set (stb := relation_step c processed sta ri).
  assert (b ∈ stb.2) as Hb.
  { unfold stb, relation_step. rewrite Hra, Hpol.
    apply sources_loop_pushes; [done| |by rewrite Haa].
    unfold getEntitiesWithRelationTo. rewrite Hra.
    apply (list_elem_of_fmap_2' fst _ (b, c)); [|done].
    by apply list_elem_of_filter. }
  pose proof (relations_loop_grows c processed (seq (S ri) (n - S ri)) stb)
    as (_ & _ & p & Hq & _).
  rewrite Hq. apply elem_of_app. by right.
Qed.

Lemma grows_no_dependents n st0 st b :
  grows n st0 st -> no_dependents st0.1 b -> no_dependents st.1 b.
Proof.
  intros (Ha & Hrel & _) Hnd ri r' Hr'.
  destruct (Forall2_lookup_l _ _ _ _ _ Hrel Hr') as (r & Hr & Hpol & Hsub & _).
  destruct (Hnd ri r Hr) as [Hs Ht]. rewrite Ha. split.
  - intros Hp s Hin. apply Hs; [congruence|by apply Hsub].
  - intros Hp t Hin. apply Ht; [congruence|by apply Hsub].
Qed.

Lemma sources_loop_only r ri b sources : forall st,
  (autoDestroy r = destroy_source ->
   forall s, s ∈ sources -> s = b \/ s ∉ entityIndex st.1) ->
  exists pushed, (foldl (source_step r ri b) st sources).2 = pushed ++ st.2
                 /\ Forall (fun e => e = b) pushed.
Proof.
  induction sources as [|s sources IH]; intros st Hsrc; simpl.
  - by exists [].
  - pose proof (source_step_grows r ri b st s) as (Ha & _).
    destruct (IH (source_step r ri b st s)) as (pushed & Hq & Hall).
    { intros Hpol s' Hin. rewrite Ha. apply Hsrc; [done|by right]. }
    rewrite Hq. unfold source_step.
    destruct (world_has st.1 s) eqn:Hhas; [|by exists pushed].
    destruct (autoDestroy r) eqn:Hpol; simpl; try by exists pushed.
    exists (pushed ++ [s]). split; [by rewrite <- app_assoc|].
    apply Forall_app. split; [done|]. apply Forall_singleton.
    apply world_has_true in Hhas.
    destruct (Hsrc eq_refl s ltac:(left)); done.
Qed.

Lemma targets_loop_none w processed b targets : forall queue,
  b ∈ processed -> (forall t, t ∈ targets -> t = b \/ t ∉ entityIndex w) ->
  foldl (target_step w processed) queue targets = queue.
Proof.
  induction targets as [|t targets IH]; intros queue Hb Htg; simpl; [done|].
  rewrite IH; [|done|by intros t' ?; apply Htg; right].
  unfold target_step.
  destruct (Htg t ltac:(left)) as [->|Hdead].
  - rewrite (bool_decide_eq_true_2 (b ∈ processed)) by done. by rewrite andb_false_r.
  - unfold world_has. by rewrite bool_decide_eq_false_2.
Qed.

Lemma relation_step_only b processed st ri :
  no_dependents st.1 b -> b ∈ processed ->
  exists pushed, (relation_step b processed st ri).2 = pushed ++ st.2
                 /\ Forall (fun e => e = b) pushed.
Proof.
  intros Hnd Hb. unfold relation_step.
  destruct (relations st.1 !! ri) as [r|] eqn:Hr; [|by exists []].
  destruct (Hnd ri r Hr) as [Hs Ht].
  destruct (sources_loop_only r ri b (getEntitiesWithRelationTo st.1 ri b) st)
    as (pushed & Hq & Hall).
  { intros Hpol s Hin. apply Hs; [done|].
    unfold getEntitiesWithRelationTo in Hin. rewrite Hr in Hin.
    apply list_elem_of_fmap in Hin as ([s' t'] & -> & Hin).
    apply list_elem_of_filter in Hin as [Heq Hin]. simpl in *. by subst. }
  destruct (autoDestroy r) eqn:Hpol; try by exists pushed.
  simpl. rewrite targets_loop_none with (b := b); [by exists pushed|done|].
  intros t Hin.
  pose proof (sources_loop_grows r ri b (getEntitiesWithRelationTo st.1 ri b) st) as Hg.
  pose proof (grows_no_dependents _ _ _ b Hg Hnd) as Hnd1.
  unfold getRelationTargets in Hin.
  set (st1 := foldl (source_step r ri b) st (getEntitiesWithRelationTo st.1 ri b)) in *.
  destruct (relations st1.1 !! ri) as [r1|] eqn:E; [|by apply elem_of_nil in Hin].
  apply list_elem_of_fmap in Hin as ([s' t'] & -> & Hin).
  apply list_elem_of_filter in Hin as [Heq Hin]. simpl in *. subst s'.
  destruct Hg as (_ & Hrel & _).
  destruct (Forall2_lookup_l _ _ _ _ _ Hrel E) as (r0 & Hr0 & Hpol0 & _).
  rewrite Hr in Hr0. injection Hr0 as <-.
  destruct (Hnd1 ri r1 E) as [_ Ht1]. apply Ht1; [congruence|done].
Qed.

Lemma relations_loop_only b processed idxs : forall st,
  no_dependents st.1 b -> b ∈ processed ->
  exists pushed, (foldl (relation_step b processed) st idxs).2 = pushed ++ st.2
                 /\ Forall (fun e => e = b) pushed.
Proof.
  induction idxs as [|ri idxs IH]; intros st Hnd Hb; simpl; [by exists []|].
  destruct (relation_step_only b processed st ri Hnd Hb) as (p1 & Hq1 & Hall1).
  destruct (IH (relation_step b processed st ri)) as (p2 & Hq2 & Hall2); [|done|].
  { eapply grows_no_dependents; [apply relation_step_grows|done]. }
  exists (p2 ++ p1). split; [by rewrite Hq2, Hq1, app_assoc|].
  by apply Forall_app.
Qed.

Lemma cascade_skip gid n w processed queue : forall fuel,
  Forall (fun e => e ∈ processed) queue -> (length queue <= fuel)%nat ->
  cascade gid fuel n w queue processed = Some w.
Proof.
  induction queue as [|c q IH]; intros fuel Hall Hfuel; [by destruct fuel|].
  destruct fuel as [|fuel]; [simpl in Hfuel; lia|].
  apply Forall_cons in Hall as [Hc Hall]. cbn [cascade].
  rewrite bool_decide_eq_true_2 by done. apply IH; [done|]. simpl in Hfuel. lia.
Qed.

(** ** Entity destruction: the orchestrator *)

Lemma destroyEntity_unfold gid w e :
  e ∈ entityIndex w ->
  let n := length (relations w) in
  let st := foldl (relation_step e ({[e]} ∪ ∅)) (w, []) (seq 0 n) in
  let w1 := release_step gid st.1 e in
  destroyEntity gid w e =
    match cascade gid (size (entityIndex w) * S (n * total_pairs w)) n w1 st.2 ({[e]} ∪ ∅) with
    | Some w' => Destroyed w'
    | None => OutOfFuel
    end
  /\ length (relations w1) = n /\ (total_pairs w1 <= total_pairs w)%nat
  /\ cascade_inv w1 st.2 ({[e]} ∪ ∅)
  /\ (length st.2 + size (entityIndex w1) * S (n * total_pairs w)
      <= size (entityIndex w) * S (n * total_pairs w))%nat
  /\ entityIndex w1 = entityIndex w ∖ {[e]}.
Proof.
  intros Halive n st w1.
  assert (cascade_inv w [e] ∅) as Hinv.
  { split; [by intros e' ?%not_elem_of_empty|].
    intros e' ->%list_elem_of_singleton. by left. }
  destruct (process_step gid n (total_pairs w) w e [] ∅ eq_refl ltac:(done) Hinv
              ltac:(apply not_elem_of_empty))
    as (Hn1 & HP1 & Hinv1 & Hlt & Hw1 & _).
  fold st in Hn1, HP1, Hinv1, Hlt, Hw1. fold w1 in Hn1, HP1, Hinv1, Hlt, Hw1.
  change (length [e]) with 1%nat in Hlt.
  split; [|split; [done|split; [done|split; [done|split; [lia|done]]]]].
  unfold destroyEntity, cascade_fuel.
  apply world_has_true in Halive. rewrite Halive. cbn [negb cascade].
  rewrite bool_decide_eq_false_2 by apply not_elem_of_empty. done.
Qed.

Lemma destroy_cascades_to_source gid w ri r a b :
  relations w !! ri = Some r -> autoDestroy r = destroy_source -> (b, a) ∈ pairs r ->
  a ∈ entityIndex w -> b ∈ entityIndex w ->
  exists w', destroyEntity gid w a = Destroyed w'
             /\ (a ∉ entityIndex w') /\ (b ∉ entityIndex w')
             /\ entityIndex w' ⊆ entityIndex w.
Proof.
  intros Hr Hpol Hpair Ha Hb.
  destruct (destroyEntity_unfold gid w a Ha) as (Hrun & Hn1 & HP1 & Hinv1 & Hfuel & Hw1).
  destruct (cascade_spec gid _ _ _ _ _ _ Hn1 HP1 Hinv1 Hfuel) as (w' & Hc & Hsub & Hdead).
  exists w'. rewrite Hrun, Hc. split; [done|].
  assert (forall e, e ∈ entityIndex w' -> e ∈ entityIndex w /\ e <> a) as Hin.
  { intros e He. apply Hsub in He. rewrite Hw1 in He.
    apply elem_of_difference in He as [? Hne]. split; [done|].
    intros ->. apply Hne. by apply elem_of_singleton. }
  split; [|split].
  - intros Hin'. by destruct (Hin a Hin').
  - apply Hdead. apply (relations_loop_pushes a _ w [] _ ri r b); try done.
    by eapply lookup_lt_Some.
  - intros e He. by destruct (Hin e He).
Qed.

Lemma destroy_alone gid w b :
  b ∈ entityIndex w -> no_dependents w b ->
  exists w', destroyEntity gid w b = Destroyed w'
             /\ entityIndex w' = entityIndex w ∖ {[b]}.
Proof.
  intros Hb Hnd.
  destruct (destroyEntity_unfold gid w b Hb) as (Hrun & Hn1 & HP1 & Hinv1 & Hfuel & Hw1).
  destruct (relations_loop_only b ({[b]} ∪ ∅) (seq 0 (length (relations w))) (w, []))
    as (pushed & Hq & Hall); [done|by apply elem_of_union_l, elem_of_singleton|].
  eexists. rewrite Hrun, cascade_skip; [split; [done|exact Hw1]| |lia].
  rewrite Hq, app_nil_r. eapply Forall_impl; [done|].
  intros e ->. by apply elem_of_union_l, elem_of_singleton.
Qed.

(** C5: when [b] is linked to [a] through a relation of auto-destroy policy
    'source' and both exist, destroying [a] returns with [a] and [b]
    released ([b] is pushed as a source of [a] and processed); destroying an
    entity [b] that nothing depends on returns with exactly [b] released, so
    every other entity still exists.  In the scenario -- the world's only
    relation is ChildOf, of policy 'source', linking [b] to [a] -- destroying
    [a] releases [b] as well, and destroying [b] leaves [a] existing. *)
Theorem destroy_source_policy_cascade :
  (forall getEntityId w ri r a b,
     relations w !! ri = Some r -> autoDestroy r = destroy_source -> (b, a) ∈ pairs r ->
     a ∈ entityIndex w -> b ∈ entityIndex w ->
     exists w', destroyEntity getEntityId w a = Destroyed w'
                /\ (a ∉ entityIndex w') /\ b ∉ entityIndex w')
  /\ (forall getEntityId w a b,
        a <> b -> a ∈ entityIndex w -> b ∈ entityIndex w -> no_dependents w b ->
        exists w', destroyEntity getEntityId w b = Destroyed w'
                   /\ entityIndex w' = entityIndex w ∖ {[b]}
                   /\ a ∈ entityIndex w' /\ b ∉ entityIndex w')
  /\ (forall getEntityId a b alive traits allQ masks,
        a <> b -> a ∈ alive -> b ∈ alive ->
        let w := mkWorld alive [mkRelation destroy_source [(b, a)]] traits allQ masks in
        (exists w', destroyEntity getEntityId w a = Destroyed w'
                    /\ (a ∉ entityIndex w') /\ b ∉ entityIndex w')
        /\ (exists w', destroyEntity getEntityId w b = Destroyed w'
                       /\ a ∈ entityIndex w' /\ b ∉ entityIndex w')).
Proof.
  assert (forall getEntityId w a b,
    a <> b -> a ∈ entityIndex w -> b ∈ entityIndex w -> no_dependents w b ->
    exists w', destroyEntity getEntityId w b = Destroyed w'
               /\ entityIndex w' = entityIndex w ∖ {[b]}
               /\ a ∈ entityIndex w' /\ b ∉ entityIndex w') as Halone.
  { intros gid w a b Hne Ha Hb Hnd.
    destruct (destroy_alone gid w b Hb Hnd) as (w' & Hrun & Hw').
    exists w'. split; [done|]. split; [done|]. rewrite Hw'. split.
    - apply elem_of_difference. split; [done|]. by intros ?%elem_of_singleton.
    - intros [_ Hn]%elem_of_difference. apply Hn. by apply elem_of_singleton. }
  split; [|split; [exact Halone|]].
  - intros gid w ri r a b Hr Hpol Hpair Ha Hb.
    destruct (destroy_cascades_to_source gid w ri r a b Hr Hpol Hpair Ha Hb)
      as (w' & ? & ? & ? & _).
    by exists w'.
  - intros gid a b alive traits allQ masks Hne Ha Hb w. split.
    + destruct (destroy_cascades_to_source gid w 0 (mkRelation destroy_source [(b, a)]) a b)
        as (w' & ? & ? & ? & _); try done.
      * apply list_elem_of_singleton. done.
      * by exists w'.
    + destruct (Halone gid w a b Hne Ha Hb) as (w' & ? & _ & ? & ?); [|by exists w'].
      intros ri r Hr. destruct ri as [|ri]; [|done]. injection Hr as <-. split; [|done].
      intros _ s Hin. apply list_elem_of_singleton in Hin. congruence.
Qed.

Lemma destroy_source_policy_cascade_witness :
  let getEntityId := fun e => Z.land e 1048575 in
  let w := mkWorld {[1; 2; 3]} [mkRelation destroy_source [(2, 1)]]
                   {[1 := [5]; 2 := [5; 6]]} (Some {[1; 2; 3]}) [[0; 1; 3; 1]] in
  (exists w', destroyEntity getEntityId w 1 = Destroyed w'
              /\ (1 ∉ entityIndex w') /\ 2 ∉ entityIndex w')
  /\ (exists w', destroyEntity getEntityId w 2 = Destroyed w'
                 /\ 1 ∈ entityIndex w' /\ 2 ∉ entityIndex w')
  /\ (exists w', destroyEntity getEntityId w 1 = Destroyed w' /\ entityIndex w' = {[3]})
  /\ (exists w', destroyEntity getEntityId w 2 = Destroyed w' /\ entityIndex w' = {[1; 3]}).
Proof.
  intros getEntityId w. split; [|split; [|split]].
  - apply (proj1 (proj2 (proj2 destroy_source_policy_cascade) getEntityId 1 2
                   {[1; 2; 3]} {[1 := [5]; 2 := [5; 6]]} (Some {[1; 2; 3]}) [[0; 1; 3; 1]]
                   ltac:(done) ltac:(by vm_compute) ltac:(by vm_compute))).
  - apply (proj2 (proj2 (proj2 destroy_source_policy_cascade) getEntityId 1 2
                   {[1; 2; 3]} {[1 := [5]; 2 := [5; 6]]} (Some {[1; 2; 3]}) [[0; 1; 3; 1]]
                   ltac:(done) ltac:(by vm_compute) ltac:(by vm_compute))).
  - eexists. split; [by vm_compute|]. by vm_compute.
  - eexists. split; [by vm_compute|]. by vm_compute.
Defined.

(** C6: for every world and every handle that does not exist in it,
    [destroyEntity] throws the error "The entity being destroyed does not
    exist": the call never returns normally, and no step of the cascade is
    run (the existence test comes first). *)
Theorem destroy_missing_throws getEntityId w e :
  world_has w e = false ->
  destroyEntity getEntityId w e = Threw "Koota: The entity being destroyed does not exist."
  /\ forall w', destroyEntity getEntityId w e <> Destroyed w'.
Proof.
  intros Hno. unfold destroyEntity. rewrite Hno. simpl. split; [done|]. by intros w'.
Qed.

Lemma destroy_missing_throws_witness :
  let w := mkWorld {[1; 2]} [mkRelation destroy_source [(2, 1)]] ∅ None [[0; 1; 3]] in
  destroyEntity (fun e => Z.land e 1048575) w 7
  = Threw "Koota: The entity being destroyed does not exist."
  /\ forall w', destroyEntity (fun e => Z.land e 1048575) w 7 <> Destroyed w'.
Proof.
  intros w. apply (destroy_missing_throws (fun e => Z.land e 1048575) w 7). by vm_compute.
Defined.

(** * Further properties *)

(** ** Bit utilities *)






















Lemma low_bits_zero v :
  (forall j, 0 <= j < 32 -> Z.testbit v j = false) -> v mod 2 ^ 32 = 0.
Proof.
  intros H. apply Z.bits_inj'. intros i Hi. rewrite Z.bits_0.
  destruct (Z.ltb_spec i 32).
  - rewrite Z.mod_pow2_bits_low by lia. apply H. lia.
  - rewrite Z.mod_pow2_bits_high by lia. done.
Qed.

(** X1: for a 32-bit value [v] (signed or unsigned), [tzcnt32 v] is 32 when
    [v] is 0, and otherwise the index, between 0 and 31, of the lowest set
    bit of [v]: that bit is set and every lower bit is clear. *)
Theorem tzcnt32_lowest_set_bit v :
  - 2 ^ 31 <= v < 2 ^ 32 ->
  if v =? 0 then tzcnt32 v = 32
  else 0 <= tzcnt32 v < 32
       /\ Z.testbit v (tzcnt32 v) = true
       /\ forall j, 0 <= j < tzcnt32 v -> Z.testbit v j = false.
Proof.
  intros Hv. destruct (Z.eqb_spec v 0) as [->|Hnz]; [reflexivity|].
  destruct (find_lowest v 32 0) as [(k & _ & Hk)|Hnone]; [lia|lia|intros; lia| |].
  - rewrite (tzcnt32_lowest v k Hk). exact Hk.
  - exfalso. apply Hnz. pose proof (low_bits_zero v Hnone) as Hm.
    apply Z.mod_divide in Hm; [|lia]. destruct Hm as [c Hc]. lia.
Qed.

Lemma tzcnt32_lowest_set_bit_witness :
  tzcnt32 (-8) = 3
  /\ Z.testbit (-8) (tzcnt32 (-8)) = true
  /\ forall j, 0 <= j < tzcnt32 (-8) -> Z.testbit (-8) j = false.
Proof.
  split; [reflexivity|]. apply (tzcnt32_lowest_set_bit (-8)). lia.
Defined.

(** Canonical representation *)
Lemma uint32_eq_bits a b :
  uint32 a -> uint32 b -> (forall i, 0 <= i < 32 -> Z.testbit a i = Z.testbit b i) -> a = b.
Proof.
  intros Ha Hb H. apply Z.bits_inj'. intros i Hi.
  destruct (Z.ltb_spec i 32); [apply H; lia|].
  rewrite !uint32_high by (done || lia). done.
Qed.

Lemma words_ext l1 l2 :
  length l1 = length l2 -> Forall uint32 l1 -> Forall uint32 l2 ->
  (forall k, 0 <= k -> bit_at l1 k = bit_at l2 k) -> l1 = l2.
Proof.
  intros Hlen H1 H2 Hbits. apply list_eq_same_length with (length l1); [done|done|].
  intros i x y Hi Hx Hy.
  assert (JS.get l1 (Z.of_nat i) = Some x) as Gx.
  { unfold JS.get. destruct (Z.ltb_spec (Z.of_nat i) 0); [lia|]. by rewrite Nat2Z.id. }
  assert (JS.get l2 (Z.of_nat i) = Some y) as Gy.
  { unfold JS.get. destruct (Z.ltb_spec (Z.of_nat i) 0); [lia|]. by rewrite Nat2Z.id. }
  apply uint32_eq_bits.
  - exact (Forall_lookup_1 _ _ _ _ H1 Hx).
  - exact (Forall_lookup_1 _ _ _ _ H2 Hy).
  - intros b Hb.
    pose proof (top_bit_at l1 (Z.of_nat i) b ltac:(lia) Hb) as T1.
    pose proof (top_bit_at l2 (Z.of_nat i) b ltac:(lia) Hb) as T2.
    rewrite Gx in T1. rewrite Gy in T2. simpl in T1, T2.
    rewrite T1, T2. apply Hbits. lia.
Qed.

Lemma BitSet_ext s1 s2 :
  BitSet_wf s1 -> BitSet_wf s2 ->
  BitSet.capacity s1 = BitSet.capacity s2 -> BitSet.count s1 = BitSet.count s2 ->
  (forall k, 0 <= k -> bit_at (BitSet.bottom s1) k = bit_at (BitSet.bottom s2) k) ->
  s1 = s2.
Proof.
  intros W1 W2 Hcap Hcount Hbits.
  assert (length (BitSet.bottom s1) = length (BitSet.bottom s2)) as Hbl.
  { pose proof (wf_bottom_len s1 W1) as E1. pose proof (wf_bottom_len s2 W2) as E2.
    rewrite Hcap, <- E2 in E1. lia. }
  assert (length (BitSet.top s1) = length (BitSet.top s2)) as Htl.
  { pose proof (wf_top_len s1 W1) as E1. pose proof (wf_top_len s2 W2) as E2.
    rewrite Hbl, <- E2 in E1. lia. }
  assert (BitSet.bottom s1 = BitSet.bottom s2) as Hb.
  { apply words_ext; [done|apply W1|apply W2|done]. }
  assert (BitSet.top s1 = BitSet.top s2) as Ht.
  { apply words_ext; [done|apply W1|apply W2|].
    intros i Hi. apply eq_true_iff_eq.
    rewrite (wf_summary s1 W1 i Hi), (wf_summary s2 W2 i Hi). by rewrite Hb. }
  destruct s1, s2; simpl in *; congruence.
Qed.

(** X3: on a well-formed BitSet and a key below its capacity, [add] and
    [remove] undo each other exactly. If the key is a member, [remove]
    returns true and a following [add] returns true and restores the very
    same state (words, summary words, count, capacity); if it is not, [add]
    returns true and a following [remove] returns true and restores the
    state. *)
Theorem add_remove_round_trip s k :
  BitSet_wf s -> 0 <= k < BitSet.capacity s ->
  if BitSet.has s k
  then exists s1, BitSet.remove s k = (true, s1) /\ BitSet.add s1 k = Some (true, s)
  else exists s1, BitSet.add s k = Some (true, s1) /\ BitSet.remove s1 k = (true, s).
Proof.
  intros Hwf Hk. destruct (BitSet.has s k) eqn:Hhas.
  - destruct (remove_spec s k Hwf ltac:(lia)) as (Hr & Hwf1 & Hbits1 & Hcnt1 & Hcap1).
    rewrite Hhas in Hr, Hcnt1.
    destruct (BitSet.remove s k) as [r s1] eqn:Hrem. simpl in *. subst r.
    exists s1. split; [done|].
    assert (BitSet.has s1 k = false) as Hhas1.
    { rewrite has_spec, Hbits1 by (done || lia). by rewrite Z.eqb_refl, andb_false_r. }
    destruct (add_fit s1 k Hwf1 ltac:(lia)) as (s2 & Hadd & Hwf2 & Hbits2 & Hcnt2 & Hcap2).
    rewrite Hhas1 in Hadd, Hcnt2. simpl in Hadd. rewrite Hadd. do 2 f_equal.
    apply BitSet_ext; [done|done|lia|lia|].
    intros j Hj. rewrite Hbits2, Hbits1 by done.
    destruct (Z.eqb_spec j k) as [->|].
    + rewrite orb_true_r. rewrite <- has_spec by (done || lia). done.
    + by rewrite andb_true_r, orb_false_r.
  - destruct (add_fit s k Hwf Hk) as (s1 & Hadd & Hwf1 & Hbits1 & Hcnt1 & Hcap1).
    rewrite Hhas in Hadd, Hcnt1. simpl in Hadd. exists s1. split; [done|].
    destruct (remove_spec s1 k Hwf1 ltac:(lia)) as (Hr & Hwf2 & Hbits2 & Hcnt2 & Hcap2).
    assert (BitSet.has s1 k = true) as Hhas1.
    { rewrite has_spec, Hbits1 by (done || lia). by rewrite Z.eqb_refl, orb_true_r. }
    rewrite Hhas1 in Hr, Hcnt2.
    destruct (BitSet.remove s1 k) as [r s2] eqn:Hrem. simpl in *. subst r. f_equal.
    apply BitSet_ext; [done|done|lia|lia|].
    intros j Hj. rewrite Hbits2, Hbits1 by done.
    destruct (Z.eqb_spec j k) as [->|].
    + rewrite andb_false_r. rewrite <- has_spec by (done || lia). done.
    + by rewrite andb_true_r, orb_false_r.
Qed.

Lemma add_remove_round_trip_witness :
  exists s1, BitSet.add (BitSet.new 64) 37 = Some (true, s1)
             /\ BitSet.remove s1 37 = (true, BitSet.new 64).
Proof.
  assert (W : BitSet_wf (BitSet.new 64)) by (apply new_wf; lia).
  assert (K : 0 <= 37 < BitSet.capacity (BitSet.new 64)) by (simpl; lia).
  exact (add_remove_round_trip (BitSet.new 64) 37 W K).
Defined.

Lemma for_range_nil body : forall n i,
  (forall j, body j = Some []) -> for_range n i body = Some [].
Proof.
  induction n as [|n IH]; intros i Hb; [done|].
  cbn [for_range]. rewrite Hb. cbn [mbind option_bind]. rewrite IH by done. done.
Qed.

Lemma num_get_zeros n i : JS.num (JS.get (replicate n 0) i) = 0.
Proof.
  unfold JS.get. destruct (i <? 0); [done|].
  destruct (replicate n 0 !! Z.to_nat i) eqn:E; [|done].
  apply lookup_replicate in E as [-> _]. done.
Qed.

(** X4: after [clear], whatever the BitSet held, [has] is false for every
    key, [forEach] visits nothing, [count] is 0, the capacity and the sizes
    of both arrays are unchanged, and a second [clear] changes nothing. *)
Theorem clear_empties s :
  (forall k, BitSet.has (BitSet.clear s) k = false)
  /\ BitSet.forEach (BitSet.clear s) = Some []
  /\ BitSet.count (BitSet.clear s) = 0
  /\ BitSet.capacity (BitSet.clear s) = BitSet.capacity s
  /\ length (BitSet.bottom (BitSet.clear s)) = length (BitSet.bottom s)
  /\ length (BitSet.top (BitSet.clear s)) = length (BitSet.top s)
  /\ BitSet.clear (BitSet.clear s) = BitSet.clear s.
Proof.
  split_and!.
  - intros k. unfold BitSet.has, BitSet.clear. cbn [BitSet.bottom BitSet.capacity].
    destruct (k >=? BitSet.capacity s); [done|].
    rewrite num_get_zeros, and_0_l. done.
  - unfold BitSet.forEach, BitSet.clear, walk. cbn [BitSet.bottom BitSet.top].
    apply for_range_nil. intros j. rewrite num_get_zeros. done.
  - done.
  - done.
  - apply length_replicate.
  - apply length_replicate.
  - unfold BitSet.clear. cbn [BitSet.bottom BitSet.top BitSet.capacity].
    by rewrite !length_replicate.
Qed.

(** X7: [add] with a negative 32-bit key on a well-formed BitSet does not
    grow the set and stores nothing, yet returns true and increments
    [count]: the key was not a member, is not a member afterwards, and
    [remove] of it returns false and leaves the inflated count. *)
Theorem add_negative_key s k :
  BitSet_wf s -> - 2 ^ 31 <= k < 0 ->
  let s' := {| BitSet.bottom := BitSet.bottom s; BitSet.top := BitSet.top s;
               BitSet.count := BitSet.count s + 1; BitSet.capacity := BitSet.capacity s |} in
  BitSet.has s k = false
  /\ BitSet.add s k = Some (true, s')
  /\ BitSet.has s' k = false
  /\ BitSet.remove s' k = (false, s').
Proof.
  intros Hwf Hk s'. pose proof (wf_cap s Hwf) as Hcap.
  pose proof (wf_bottom_len s Hwf) as Hbl. pose proof (wf_top_len s Hwf) as Htl.
  assert (JS.ushr k 5 = (k + 2 ^ 32) / 32) as Hidx.
  { unfold JS.ushr, JS.ToUint32. change (5 mod 2 ^ 32 mod 32) with 5.
    rewrite Z.shiftr_div_pow2 by lia. change (2 ^ 5) with 32. f_equal.
    rewrite <- (Z.mod_add k 1 (2 ^ 32)) by lia. apply Z.mod_small. lia. }
  assert (2 ^ 26 <= (k + 2 ^ 32) / 32 < 2 ^ 27) as Hrange by (Z.div_mod_to_equations; lia).
  assert (Z.of_nat (length (BitSet.bottom s)) <= 2 ^ 26) as Hbl'
    by (rewrite Hbl; Z.div_mod_to_equations; lia).
  assert (Z.of_nat (length (BitSet.top s)) <= 2 ^ 21) as Htl'
    by (rewrite Htl; Z.div_mod_to_equations; lia).
  assert (JS.get (BitSet.bottom s) (JS.ushr k 5) = None) as Hget
    by (apply get_ge; rewrite Hidx; lia).
  assert (forall v, JS.set32 (BitSet.bottom s) (JS.ushr k 5) v = BitSet.bottom s) as Hsetb.
  { intros v. unfold JS.set32. rewrite Hidx. destruct (Z.ltb_spec ((k + 2 ^ 32) / 32) 0); [done|].
    apply list_insert_ge. lia. }
  assert (JS.ushr (JS.ushr k 5) 5 = (k + 2 ^ 32) / 32 / 32) as Hidx2
    by (rewrite Hidx; apply ushr5; lia).
  assert (forall v, JS.set32 (BitSet.top s) (JS.ushr (JS.ushr k 5) 5) v = BitSet.top s) as Hsett.
  { intros v. unfold JS.set32. rewrite Hidx2.
    destruct (Z.ltb_spec ((k + 2 ^ 32) / 32 / 32) 0); [done|].
    apply list_insert_ge. Z.div_mod_to_equations. lia. }
  assert (forall t, BitSet.bottom t = BitSet.bottom s -> BitSet.capacity t = BitSet.capacity s ->
            BitSet.has t k = false) as Hhas.
  { intros t Hb Hc. unfold BitSet.has. rewrite Hb, Hc.
    destruct (Z.geb_spec k (BitSet.capacity s)); [done|].
    rewrite Hget. cbn [JS.num default]. rewrite and_0_l. done. }
  split_and!.
  - by apply Hhas.
  - unfold BitSet.add. destruct (Z.geb_spec k (BitSet.capacity s)); [lia|].
    cbn [mbind option_bind]. rewrite Hget. cbn [JS.num default]. rewrite and_0_l.
    cbn [JS.truthy Z.eqb negb]. rewrite Hsetb, Hsett. done.
  - by apply Hhas.
  - unfold BitSet.remove. cbn [BitSet.capacity BitSet.bottom s'].
    destruct (Z.geb_spec k (BitSet.capacity s)); [done|].
    rewrite Hget. cbn [JS.num default]. rewrite and_0_l. done.
Qed.

Lemma add_negative_key_witness :
  BitSet.add (BitSet.new 64) (-1)
  = Some (true, {| BitSet.bottom := [0; 0]; BitSet.top := [0];
                   BitSet.count := 1; BitSet.capacity := 64 |})
  /\ BitSet.has {| BitSet.bottom := [0; 0]; BitSet.top := [0];
                   BitSet.count := 1; BitSet.capacity := 64 |} (-1) = false.
Proof.
  assert (W : BitSet_wf (BitSet.new 64)) by (apply new_wf; lia).
  destruct (add_negative_key (BitSet.new 64) (-1) W ltac:(lia)) as (_ & Hadd & Hhas & _).
  split; [exact Hadd | exact Hhas].
Defined.

Lemma sorted_NoDup (l : list Z) : StronglySorted Z.lt l -> NoDup l.
Proof.
  induction 1 as [|x l Hs IH Hall]; constructor; [|done].
  intros Hin. rewrite Forall_forall in Hall. specialize (Hall x Hin). lia.
Qed.

(** X5: after any sequence of [add] and [remove] calls with keys in
    [0, 2^30) on a new BitSet, [toArray] returns the members in strictly
    ascending order (so without repetition): a key is in the array exactly
    when [has] holds, and the array's length is [count]. *)
Theorem toArray_sorted_members_count cap ops :
  1 <= cap <= 2 ^ 31 -> Forall (fun o => 0 <= op_key o < 2 ^ 30) ops ->
  exists trace s l,
    run (BitSet.new cap) ops = Some (trace, s)
    /\ BitSet.toArray s = Some l
    /\ StronglySorted Z.lt l
    /\ (forall k, k ∈ l <-> 0 <= k /\ BitSet.has s k = true)
    /\ Z.of_nat (length l) = BitSet.count s.
Proof.
  intros Hcap Hops.
  destruct (run_spec ops (BitSet.new cap) ∅ (new_wf cap Hcap) Hops (counts_new cap Hcap))
    as (trace & s & X & Hrun & Hwf & _ & HX & Hcount).
  destruct (forEach_visits s Hwf) as (l & Hl & Hsorted & Hmem).
  exists trace, s, l. split_and!; try done.
  rewrite Hcount. f_equal.
  assert (X = list_to_set l) as ->.
  { apply set_eq. intros k. rewrite elem_of_list_to_set, HX, Hmem. done. }
  symmetry. apply size_list_to_set. by apply sorted_NoDup.
Qed.

Lemma toArray_sorted_members_count_witness :
  exists trace s l,
    run (BitSet.new 64) [Add 40; Add 3; Remove 40; Add 63; Add 3] = Some (trace, s)
    /\ BitSet.toArray s = Some l
    /\ StronglySorted Z.lt l
    /\ (forall k, k ∈ l <-> 0 <= k /\ BitSet.has s k = true)
    /\ Z.of_nat (length l) = BitSet.count s.
Proof.
  apply (toArray_sorted_members_count 64); [lia|].
  repeat (apply Forall_cons_2; [simpl; lia|]). apply Forall_nil_2.
Defined.

Lemma out_get_set out c key i :
  0 <= key < 2 ^ 32 ->
  BitSet.out_get (BitSet.out_set out c key) i
  = if (i =? c) && out_writable out i then Some key else BitSet.out_get out i.
Proof.
  intros Hkey. destruct out as [elems len|words]; cbn [BitSet.out_get BitSet.out_set out_writable].
  - rewrite andb_true_r. destruct (Z.eqb_spec i c) as [->|Hne].
    + apply lookup_insert_eq.
    + apply lookup_insert_ne. done.
  - destruct (Z.eqb_spec i c) as [->|Hne]; cbn [andb].
    + destruct (Z.leb_spec 0 c); cbn [andb].
      * destruct (Z.ltb_spec c (Z.of_nat (length words))).
        -- rewrite get_set32_eq by lia. by rewrite ToUint32_id.
        -- rewrite !get_ge; rewrite ?length_set32; done.
      * unfold JS.set32. destruct (Z.ltb_spec c 0); [done|lia].
    + apply get_set32_ne. done.
Qed.

Lemma out_writable_set out c key i :
  out_writable (BitSet.out_set out c key) i = out_writable out i.
Proof.
  destruct out as [elems len|words]; cbn [BitSet.out_set out_writable]; [done|].
  by rewrite length_set32.
Qed.

Lemma out_fill_spec keys : forall out c,
  Forall (fun key => 0 <= key < 2 ^ 32) keys ->
  let st := foldl (fun (st : BitSet.OutBuffer * Z) key => (BitSet.out_set st.1 st.2 key, st.2 + 1))
                  (out, c) keys in
  st.2 = c + Z.of_nat (length keys)
  /\ (forall i, out_writable st.1 i = out_writable out i)
  /\ (forall i,
        BitSet.out_get st.1 i =
          if (c <=? i) && (i <? c + Z.of_nat (length keys)) && out_writable out i
          then keys !! Z.to_nat (i - c) else BitSet.out_get out i).
Proof.
  induction keys as [|key keys IH]; intros out c Hkeys.
  - cbn [foldl length]. split_and!; [simpl; lia|done|].
    intros i. cbn [length]. change (Z.of_nat 0) with 0.
    destruct (Z.leb_spec c i), (Z.ltb_spec i (c + 0)); try done; lia.
  - apply Forall_cons in Hkeys as [Hkey Hkeys].
    cbn [foldl fst snd]. destruct (IH (BitSet.out_set out c key) (c + 1) Hkeys) as (Hc & Hw & Hget).
    cbn zeta. split_and!.
    + rewrite Hc. cbn [length]. lia.
    + intros i. rewrite Hw. apply out_writable_set.
    + intros i. rewrite Hget. rewrite out_writable_set, out_get_set by done.
      cbn [length]. rewrite Nat2Z.inj_succ.
      destruct (out_writable out i); rewrite ?andb_true_r, ?andb_false_r; [|done].
      destruct (Z.eqb_spec i c) as [->|Hne].
      * replace (c - c) with 0 by lia. cbn [Z.to_nat lookup list_lookup].
        destruct (Z.leb_spec (c + 1) c); [lia|]. cbn [andb].
        destruct (Z.leb_spec c c); [|lia].
        destruct (Z.ltb_spec c (c + Z.succ (Z.of_nat (length keys)))); [done|lia].
      * destruct (Z.leb_spec (c + 1) i), (Z.leb_spec c i); try lia; cbn [andb]; [|done].
        destruct (Z.ltb_spec i (c + 1 + Z.of_nat (length keys))),
                 (Z.ltb_spec i (c + Z.succ (Z.of_nat (length keys))));
          try lia; [|done].
        replace (Z.to_nat (i - c)) with (S (Z.to_nat (i - (c + 1)))) by lia. done.
Qed.

(** X6: [toArrayInto s out offset] on a well-formed BitSet returns the
    number of keys [toArray] lists. Afterwards the j-th of those keys is at
    index [offset + j] wherever the buffer takes the store (always on a
    [number[]], within the bounds on a [Uint32Array]); every index before
    [offset], from [offset +] that number on, or where the buffer takes no
    store reads as before; a [Uint32Array] keeps its length and a
    [number[]] never shrinks. *)
Theorem toArrayInto_layout s out offset :
  BitSet_wf s ->
  exists l out',
    BitSet.toArray s = Some l
    /\ BitSet.toArrayInto s out offset = Some (out', Z.of_nat (length l))
    /\ (forall j key, l !! j = Some key -> out_writable out (offset + Z.of_nat j) = true ->
          BitSet.out_get out' (offset + Z.of_nat j) = Some key)
    /\ (forall i, i < offset \/ offset + Z.of_nat (length l) <= i \/ out_writable out i = false ->
          BitSet.out_get out' i = BitSet.out_get out i)
    /\ match out, out' with
       | BitSet.Uint32Array words, BitSet.Uint32Array words' => length words' = length words
       | BitSet.NumberArray _ len, BitSet.NumberArray _ len' => len <= len'
       | _, _ => False
       end.
Proof.
  intros Hwf. destruct (forEach_visits s Hwf) as (l & Hl & Hsorted & Hmem).
  assert (Forall (fun key => 0 <= key < 2 ^ 32) l) as Hrange.
  { apply Forall_forall. intros key Hin. apply Hmem in Hin as [H0 Hhas].
    rewrite has_spec in Hhas by done. apply (wf_below s Hwf) in Hhas; [|done].
    pose proof (wf_cap s Hwf). lia. }
  destruct (out_fill_spec l out offset Hrange) as (Hc & Hw & Hget).
  eexists l, _. split; [exact Hl|]. unfold BitSet.toArrayInto. rewrite Hl.
  cbn [mbind option_bind]. split_and!.
  - f_equal. f_equal. cbn zeta in Hc. lia.
  - intros j key Hj Hwr. cbn zeta in Hget. rewrite Hget, Hwr.
    pose proof (lookup_lt_Some _ _ _ Hj).
    destruct (Z.leb_spec offset (offset + Z.of_nat j)); [|lia].
    destruct (Z.ltb_spec (offset + Z.of_nat j) (offset + Z.of_nat (length l))); [|lia].
    cbn [andb]. replace (Z.to_nat (offset + Z.of_nat j - offset)) with j by lia. done.
  - intros i Hi. cbn zeta in Hget. rewrite Hget.
    destruct Hi as [Hi|[Hi|Hi]].
    + destruct (Z.leb_spec offset i); [lia|done].
    + destruct (Z.ltb_spec i (offset + Z.of_nat (length l))); [lia|]. by rewrite andb_false_r.
    + rewrite Hi. by rewrite andb_false_r.
  - clear Hc Hw Hget Hl Hsorted Hmem Hrange. revert out offset.
    induction l as [|key l IH]; intros out offset.
    + cbn [foldl fst]. destruct out; [lia|done].
    + cbn [foldl fst snd]. specialize (IH (BitSet.out_set out offset key) (offset + 1)).
      destruct out as [elems len|words]; cbn [BitSet.out_set] in *.
      * destruct (foldl _ _ l).1; [|done].
        destruct ((0 <=? offset) && (offset <? 2 ^ 32 - 1)); lia.
      * destruct (foldl _ _ l).1; [done|]. by rewrite length_set32 in IH.
Qed.

Lemma toArrayInto_layout_witness :
  exists s,
    collect 64 [40; 5] = Some s
    /\ BitSet.toArrayInto s (BitSet.Uint32Array [9; 9; 9]) 2
       = Some (BitSet.Uint32Array [9; 9; 5], 2)
    /\ exists l out',
         BitSet.toArray s = Some l
         /\ BitSet.toArrayInto s (BitSet.Uint32Array [9; 9; 9]) 2 = Some (out', Z.of_nat (length l))
         /\ (forall j key, l !! j = Some key ->
               out_writable (BitSet.Uint32Array [9; 9; 9]) (2 + Z.of_nat j) = true ->
               BitSet.out_get out' (2 + Z.of_nat j) = Some key)
         /\ (forall i, i < 2 \/ 2 + Z.of_nat (length l) <= i
                       \/ out_writable (BitSet.Uint32Array [9; 9; 9]) i = false ->
               BitSet.out_get out' i = BitSet.out_get (BitSet.Uint32Array [9; 9; 9]) i)
         /\ match out' with
            | BitSet.Uint32Array words' => length words' = 3%nat
            | BitSet.NumberArray _ _ => False
            end.
Proof.
  destruct (collect_wf 64 [40; 5]) as (s & Hs & Hwf); [lia | repeat constructor; lia |].
  exists s. split; [done|].
  vm_compute in Hs. injection Hs as <-.
  split; [by vm_compute|].
  apply (toArrayInto_layout _ (BitSet.Uint32Array [9; 9; 9]) 2 Hwf).
Defined.

(** ** Intersection and inclusion tests *)

Lemma scan_until_scan stop : forall fuel bits l,
  scan fuel bits (fun b => Some [b]) = Some l ->
  scan_until fuel bits stop = Some (existsb stop l).
Proof.
  induction fuel as [|fuel IH]; intros bits l; cbn [scan scan_until];
    destruct (bits =? 0); try (intros [= <-]; done); try done.
  cbn [mbind option_bind].
  destruct (scan fuel (JS.and bits (bits - 1)) (fun b => Some [b])) as [rest|] eqn:E; [|done].
  cbn [mbind option_bind]. intros [= <-]. cbn [app existsb].
  destruct (stop (tzcnt32 bits)); [done|]. by apply IH.
Qed.

Lemma concat_singletons (l : list Z) : concat ((fun b => [b]) <$> l) = l.
Proof. induction l as [|x l IH]; [done|]. cbn. by rewrite IH. Qed.

Lemma scan_until_word stop w :
  word32 w ->
  scan_until 32 w stop = Some (existsb stop (select (Z.testbit w) 32 0)).
Proof.
  intros Hw. apply scan_until_scan.
  rewrite (scan32 (fun b => [b])) by done. by rewrite concat_singletons.
Qed.

Lemma existsb_select stop P n lo :
  existsb stop (select P n lo) = true <->
  exists b, lo <= b < lo + Z.of_nat n /\ P b = true /\ stop b = true.
Proof.
  rewrite existsb_exists. split.
  - intros (b & Hin & Hs). apply list_elem_of_In, elem_of_select in Hin as [? ?]. eauto.
  - intros (b & Hb & HP & Hs). exists b. split; [|done].
    apply list_elem_of_In, elem_of_select. done.
Qed.

Lemma for_until_spec body f : forall n i,
  (forall j, i <= j < i + Z.of_nat n -> body j = Some (f j)) ->
  exists r, for_until n i body = Some r
            /\ (r = true <-> exists j, i <= j < i + Z.of_nat n /\ f j = true).
Proof.
  induction n as [|n IH]; intros i Hbody.
  - exists false. split; [done|]. split; [done|]. intros (j & ? & _). lia.
  - cbn [for_until]. rewrite (Hbody i) by lia.
    destruct (f i) eqn:Hfi.
    + exists true. split; [done|]. split; [|done]. intros _. exists i. split; [lia|done].
    + destruct (IH (i + 1)) as (r & Hr & Hiff); [intros; apply Hbody; lia|].
      exists r. split; [done|]. rewrite Hiff. split.
      * intros (j & ? & ?). exists j. split; [lia|done].
      * intros (j & ? & Hj). exists j. split; [|done].
        destruct (Z.eq_dec j i) as [->|]; [congruence|lia].
Qed.

(** X8: on well-formed BitSets, [bitSetAndAny a b] returns, and returns
    true exactly when some key is a member of both. *)
Theorem bitSetAndAny_intersects a b :
  BitSet_wf a -> BitSet_wf b ->
  exists r, bitSetAndAny a b = Some r
            /\ (r = true <-> exists k, 0 <= k /\ BitSet.has a k = true /\ BitSet.has b k = true).
Proof.
  intros Wa Wb. unfold bitSetAndAny.
  set (n := Nat.min (length (BitSet.top a)) (length (BitSet.top b))).
  pose proof (wf_top_len_bound a Wa) as Hla. pose proof (wf_top_len_bound b Wb) as Hlb.
  set (T := fun ti => JS.and (JS.num (JS.get (BitSet.top a) ti)) (JS.num (JS.get (BitSet.top b) ti))).
  set (W := fun bi => JS.and (JS.num (JS.get (BitSet.bottom a) bi))
                             (JS.num (JS.get (BitSet.bottom b) bi))).
  set (f := fun ti => existsb (fun tb => negb (W (32 * ti + tb) =? 0)) (select (Z.testbit (T ti)) 32 0)).
  destruct (for_until_spec
              (fun ti => scan_until 32 (T ti)
                 (fun topBit => negb (W (JS.or (JS.shl ti 5) topBit) =? 0))) f n 0)
    as (r & Hr & Hiff).
  { intros ti Hti. rewrite scan_until_word by apply word32_and. unfold f. f_equal.
    assert (forall l, Forall (fun tb => 0 <= tb < 32) l ->
              existsb (fun topBit => negb (W (JS.or (JS.shl ti 5) topBit) =? 0)) l
              = existsb (fun tb => negb (W (32 * ti + tb) =? 0)) l) as Hext.
    { induction 1 as [|tb l Htb _ IHl]; [done|]. cbn [existsb].
      rewrite index_or by lia. by rewrite IHl. }
    apply Hext. apply Forall_forall. intros tb Hin. apply elem_of_select in Hin. lia. }
  exists r. split; [exact Hr|]. rewrite Hiff. clear Hr Hiff. split.
  - intros (ti & Hti & Hf). unfold f in Hf.
    apply existsb_select in Hf as (tb & Htb & _ & Hnz).
    apply negb_true_iff, Z.eqb_neq in Hnz.
    assert (word32 (W (32 * ti + tb))) as Hw by apply word32_and.
    destruct (find_lowest (W (32 * ti + tb)) 32 0) as [(i & _ & Hi & Hset & _)|Hnone];
      [lia|lia|intros; lia| |].
    + unfold W in Hset. rewrite and_low_bit in Hset by done.
      apply andb_true_iff in Hset as [Ha Hb].
      exists (32 * (32 * ti + tb) + i). split; [lia|].
      rewrite !has_spec by (done || lia). unfold bit_at.
      replace ((32 * (32 * ti + tb) + i) / 32) with (32 * ti + tb) by (Z.div_mod_to_equations; lia).
      replace ((32 * (32 * ti + tb) + i) mod 32) with i by (Z.div_mod_to_equations; lia).
      done.
    + exfalso. apply Hnz. apply Hw. intros. apply Hnone. lia.
  - intros (k & Hk & Ha & Hb). rewrite has_spec in Ha, Hb by done.
    destruct (wf_top_of_bit a k Wa Hk Ha) as (Hta & Hka & _).
    destruct (wf_top_of_bit b k Wb Hk Hb) as (Htb & Hkb & _).
    exists (k / 1024). split; [unfold n; Z.div_mod_to_equations; lia|].
    unfold f. apply existsb_select. exists ((k / 32) mod 32).
    assert (32 * (k / 1024) + (k / 32) mod 32 = k / 32) as Hidx by (Z.div_mod_to_equations; lia).
    split; [Z.div_mod_to_equations; lia|]. split.
    + unfold T. rewrite and_low_bit by (Z.div_mod_to_equations; lia).
      rewrite !key_top_bit by done. by rewrite Hta, Htb.
    + rewrite Hidx. apply negb_true_iff, Z.eqb_neq.
      apply (nonzero_of_bit _ (k mod 32)). unfold W.
      rewrite and_low_bit by (apply Z.mod_pos_bound; lia).
      unfold bit_at in Ha, Hb. by rewrite Ha, Hb.
Qed.

Lemma and_eq_iff wa wb :
  uint32 wa -> uint32 wb ->
  (JS.and wa wb = wa <->
   (forall i, 0 <= i < 32 -> Z.testbit wa i = true -> Z.testbit wb i = true)
   /\ Z.testbit wa 31 = false).
Proof.
  intros Ha Hb. split.
  - intros Heq.
    assert (Z.testbit wa 31 = false) as H31.
    { pose proof (and_bits wa wb 32 ltac:(lia)) as H32.
      pose proof (and_bits wa wb 31 ltac:(lia)) as H31.
      rewrite Heq in H32, H31. rewrite (uint32_high wa 32) in H32 by (done || lia).
      replace (Z.min 32 31) with 31 in H32 by lia.
      replace (Z.min 31 31) with 31 in H31 by lia.
      rewrite <- H32 in H31. done. }
    split; [|done]. intros i Hi Hset.
    pose proof (and_low_bit wa wb i Hi) as Hbit. rewrite Heq, Hset in Hbit. done.
  - intros [Hsub H31]. apply Z.bits_inj'. intros i Hi. rewrite and_bits by done.
    destruct (Z.ltb_spec i 31).
    + rewrite !Z.min_l by lia. destruct (Z.testbit wa i) eqn:E; [|done].
      rewrite (Hsub i) by (done || lia). done.
    + rewrite !Z.min_r by lia. rewrite H31. cbn [andb].
      destruct (Z.eq_dec i 31) as [->|]; [done|].
      symmetry. apply uint32_high; [done|lia].
Qed.

(** X9: on well-formed BitSets, [bitSetIsSubset a b] returns, and returns
    true exactly when every member of [a] is a member of [b] and is not the
    last key of its word ([k mod 32 <> 31]). A member of [a] at bit 31 of a
    word makes the comparison [(aWord & bWord) !== aWord] hold, the left side
    being a signed and the right an unsigned number, so the function answers
    false even for [a] against itself. *)
Theorem bitSetIsSubset_spec a b :
  BitSet_wf a -> BitSet_wf b ->
  exists r, bitSetIsSubset a b = Some r
            /\ (r = true <->
                forall k, 0 <= k -> BitSet.has a k = true ->
                  BitSet.has b k = true /\ k mod 32 <> 31).
Proof.
  intros Wa Wb. unfold bitSetIsSubset.
  pose proof (wf_top_len_bound a Wa) as Hla.
  set (T := fun ti => JS.num (JS.get (BitSet.top a) ti)).
  set (V := fun bi =>
    negb (bool_decide
      (Some (JS.and (JS.num (JS.get (BitSet.bottom a) bi))
               (if bi <? Z.of_nat (length (BitSet.bottom b))
                then JS.num (JS.get (BitSet.bottom b) bi) else 0))
       = JS.get (BitSet.bottom a) bi))).
  set (f := fun ti => existsb (fun tb => V (32 * ti + tb)) (select (Z.testbit (T ti)) 32 0)).
  destruct (for_until_spec
              (fun ti => scan_until 32 (T ti) (fun topBit => V (JS.or (JS.shl ti 5) topBit)))
              f (length (BitSet.top a)) 0)
    as (r & Hr & Hiff).
  { intros ti Hti. rewrite scan_until_word
      by (apply word32_num_get, (wf_top_range a Wa)).
    unfold f. f_equal.
    assert (forall l, Forall (fun tb => 0 <= tb < 32) l ->
              existsb (fun topBit => V (JS.or (JS.shl ti 5) topBit)) l
              = existsb (fun tb => V (32 * ti + tb)) l) as Hext.
    { induction 1 as [|tb l Htb _ IHl]; [done|]. cbn [existsb].
      rewrite index_or by lia. by rewrite IHl. }
    apply Hext. apply Forall_forall. intros tb Hin. apply elem_of_select in Hin. lia. }
  change (for_until (length (BitSet.top a)) 0 _) with
    (for_until (length (BitSet.top a)) 0
       (fun ti => scan_until 32 (T ti) (fun topBit => V (JS.or (JS.shl ti 5) topBit)))).
  rewrite Hr. cbn [mbind option_bind]. exists (negb r). split; [done|].
  rewrite negb_true_iff. 
  assert (Hword : forall ti tb, 0 <= ti < Z.of_nat (length (BitSet.top a)) -> 0 <= tb < 32 ->
            Z.testbit (T ti) tb = true ->
            exists wa, JS.get (BitSet.bottom a) (32 * ti + tb) = Some wa /\ uint32 wa
              /\ (V (32 * ti + tb) = false <->
                  JS.and wa (JS.num (JS.get (BitSet.bottom b) (32 * ti + tb))) = wa)).
  { intros ti tb Hti Htb Hset.
    destruct (wf_bottom_defined a ti tb Wa ltac:(lia) Htb Hset) as [wa Hwa].
    exists wa. split; [done|]. split; [by eapply get_uint32; [apply Wa|]|].
    unfold V. rewrite andNot_word, Hwa. cbn [JS.num default].
    rewrite negb_false_iff, bool_decide_eq_true.
    split; [intros [= E]; exact E | intros E; f_equal; exact E]. }
  split.
  - intros Hfalse k Hk Ha. rewrite has_spec in Ha by done. rewrite has_spec by done.
    destruct (wf_top_of_bit a k Wa Hk Ha) as (Hta & Hka & _).
    assert (32 * (k / 1024) + (k / 32) mod 32 = k / 32) as Hidx by (Z.div_mod_to_equations; lia).
    assert (0 <= (k / 32) mod 32 < 32) as Htb by (apply Z.mod_pos_bound; lia).
    assert (0 <= k / 1024 < Z.of_nat (length (BitSet.top a))) as Hti
      by (Z.div_mod_to_equations; lia).
    assert (Z.testbit (T (k / 1024)) ((k / 32) mod 32) = true) as Hset
      by (unfold T; by rewrite key_top_bit).
    destruct (Hword _ _ Hti Htb Hset) as (wa & Hwa & Hu & HV). rewrite Hidx in *.
    assert (V (k / 32) = false) as Hv.
    { destruct (V (k / 32)) eqn:E; [|done]. exfalso.
      assert (r = true) as Hrt; [|congruence].
      apply Hiff. exists (k / 1024). split; [lia|]. unfold f. apply existsb_select.
      exists ((k / 32) mod 32). split; [lia|]. split; [done|]. by rewrite Hidx. }
    apply HV in Hv.
    apply and_eq_iff in Hv as [Hsub H31];
      [|done|apply num_get_uint32, (wf_bottom_range b Wb)].
    unfold bit_at in Ha |- *. rewrite Hwa in Ha. change (JS.num (Some wa)) with wa in Ha.
    assert (0 <= k mod 32 < 32) by (apply Z.mod_pos_bound; lia).
    split; [by apply Hsub|]. intros E31. rewrite E31 in Ha. congruence.
  - intros Hall. destruct r; [|done]. exfalso.
    destruct (proj1 Hiff eq_refl) as (ti & Hti & Hf). unfold f in Hf.
    apply existsb_select in Hf as (tb & Htb & Hset & HVt).
    destruct (Hword ti tb ltac:(lia) ltac:(lia) Hset) as (wa & Hwa & Hu & HV).
    assert (V (32 * ti + tb) = false); [|congruence].
    apply HV. apply and_eq_iff; [done|apply num_get_uint32, (wf_bottom_range b Wb)|].
    assert (forall i, 0 <= i < 32 -> Z.testbit wa i = true ->
              Z.testbit (JS.num (JS.get (BitSet.bottom b) (32 * ti + tb))) i = true /\ i <> 31)
      as Hbits.
    { intros i Hi Hbit.
      destruct (Hall (32 * (32 * ti + tb) + i)) as [Hb Hne]; [lia| |].
      - rewrite has_spec by (done || lia). unfold bit_at.
        replace ((32 * (32 * ti + tb) + i) / 32) with (32 * ti + tb) by (Z.div_mod_to_equations; lia).
        replace ((32 * (32 * ti + tb) + i) mod 32) with i by (Z.div_mod_to_equations; lia).
        rewrite Hwa. done.
      - rewrite has_spec in Hb by (done || lia). unfold bit_at in Hb.
        replace ((32 * (32 * ti + tb) + i) / 32) with (32 * ti + tb) in Hb
          by (Z.div_mod_to_equations; lia).
        replace ((32 * (32 * ti + tb) + i) mod 32) with i in *
          by (Z.div_mod_to_equations; lia).
        done. }
    split.
    + intros i Hi Hbit. by apply Hbits.
    + destruct (Z.testbit wa 31) eqn:E; [|done].
      destruct (Hbits 31 ltac:(lia) E) as [_ Hne]. done.
Qed.

Lemma bitSetAndAny_intersects_witness :
  exists a b,
    collect 64 [5; 40] = Some a /\ collect 2048 [40; 1500] = Some b
    /\ bitSetAndAny a b = Some true
    /\ exists r, bitSetAndAny a b = Some r
         /\ (r = true <-> exists k, 0 <= k /\ BitSet.has a k = true /\ BitSet.has b k = true).
Proof.
  destruct (collect_wf 64 [5; 40]) as (a & Ha & Hwa); [lia | repeat constructor; lia |].
  destruct (collect_wf 2048 [40; 1500]) as (b & Hb & Hwb); [lia | repeat constructor; lia |].
  exists a, b. split; [done|]. split; [done|].
  vm_compute in Ha, Hb. injection Ha as <-. injection Hb as <-.
  split; [by vm_compute|]. apply (bitSetAndAny_intersects _ _ Hwa Hwb).
Defined.

Lemma bitSetIsSubset_spec_witness :
  exists a b c,
    collect 64 [5; 40] = Some a /\ collect 64 [5; 7; 40] = Some b /\ collect 64 [31] = Some c
    /\ bitSetIsSubset a b = Some true
    /\ bitSetIsSubset b a = Some false
    /\ bitSetIsSubset c c = Some false
    /\ exists r, bitSetIsSubset c c = Some r
         /\ (r = true <->
             forall k, 0 <= k -> BitSet.has c k = true ->
               BitSet.has c k = true /\ k mod 32 <> 31).
Proof.
  destruct (collect_wf 64 [5; 40]) as (a & Ha & Hwa); [lia | repeat constructor; lia |].
  destruct (collect_wf 64 [5; 7; 40]) as (b & Hb & Hwb); [lia | repeat constructor; lia |].
  destruct (collect_wf 64 [31]) as (c & Hc & Hwc); [lia | repeat constructor; lia |].
  exists a, b, c. do 3 (split; [done|]).
  vm_compute in Ha, Hb, Hc. injection Ha as <-. injection Hb as <-. injection Hc as <-.
  do 3 (split; [by vm_compute|]). apply (bitSetIsSubset_spec _ _ Hwc Hwc).
Defined.

(** ** Entity mask storage *)

Lemma double_while_exit cond : forall fuel n m,
  double_while fuel cond n = Some m -> cond m = false.
Proof.
  induction fuel as [|fuel IH]; intros n m; cbn [double_while];
    destruct (cond n) eqn:E; try done; try (intros [= <-]; done).
  apply IH.
Qed.

(** X10: when [ensureEntityMaskSize masks generationId eid] returns, the
    generation's row is longer than [eid], the number of generations is
    unchanged, and a second call with the same arguments changes nothing. *)
Theorem ensureEntityMaskSize_idempotent masks generationId eid masks' :
  ensureEntityMaskSize masks generationId eid = Some masks' ->
  (exists row, JS.get masks' generationId = Some row /\ eid < Z.of_nat (length row))
  /\ length masks' = length masks
  /\ ensureEntityMaskSize masks' generationId eid = Some masks'.
Proof.
  unfold ensureEntityMaskSize.
  destruct (JS.get masks generationId) as [arr|] eqn:Harr; [|done].
  cbn [mbind option_bind].
  destruct (Z.ltb_spec eid (Z.of_nat (length arr))) as [Hlt|Hge].
  - intros [= <-]. rewrite Harr. cbn [mbind option_bind].
    destruct (Z.ltb_spec eid (Z.of_nat (length arr))); [|lia]. eauto.
  - destruct (double_while _ _ _) as [newLen|] eqn:Hloop; [|done].
    cbn [mbind option_bind].
    apply double_while_exit in Hloop. apply Z.leb_gt in Hloop.
    unfold JS.alloc_copy.
    destruct (Z.leb_spec (Z.of_nat (length arr)) newLen) as [Hfit|]; [|done].
    cbn [mbind option_bind]. intros [= <-].
    apply get_Some_lt in Harr as Hg.
    set (grown := arr ++ replicate (Z.to_nat newLen - length arr) 0).
    assert (Z.of_nat (length grown) = newLen) as Hlen.
    { unfold grown. rewrite length_app, length_replicate. lia. }
    assert (JS.get (<[Z.to_nat generationId := grown]> masks) generationId = Some grown) as Hget.
    { unfold JS.get. destruct (Z.ltb_spec generationId 0); [lia|].
      apply list_lookup_insert_eq. lia. }
    split; [exists grown; split; [done|lia]|]. split; [apply length_insert|].
    rewrite Hget. cbn [mbind option_bind].
    destruct (Z.ltb_spec eid (Z.of_nat (length grown))); [done|lia].
Qed.

Lemma ensureEntityMaskSize_idempotent_witness :
  ensureEntityMaskSize [[1; 2]; [3]] 1 5 = Some [[1; 2]; [3; 0; 0; 0; 0; 0; 0; 0]]
  /\ ensureEntityMaskSize [[1; 2]; [3; 0; 0; 0; 0; 0; 0; 0]] 1 5
     = Some [[1; 2]; [3; 0; 0; 0; 0; 0; 0; 0]].
Proof.
  assert (H : ensureEntityMaskSize [[1; 2]; [3]] 1 5 = Some [[1; 2]; [3; 0; 0; 0; 0; 0; 0; 0]])
    by reflexivity.
  split; [exact H|].
  exact (proj2 (proj2 (ensureEntityMaskSize_idempotent _ _ _ _ H))).
Defined.

(** ** QueryEntitySet *)

Section QES.

Variable gid : Z -> Z.
Hypothesis Hgid : forall e, 0 <= gid e < 2 ^ 30.

Lemma QES_has_eq s e :
  QES_inv gid s ->
  QueryEntitySet.has gid s e
  = bit_at (QueryEntitySet.bottom s) (gid e)
    && bool_decide (QueryEntitySet.stored s (gid e) = Some e).
Proof.
  intros Hinv. pose proof (Hgid e) as He. unfold QueryEntitySet.has.
  destruct (Z.geb_spec (gid e) (QueryEntitySet.capacity s)) as [Hge|Hlt].
  - destruct (bit_at (QueryEntitySet.bottom s) (gid e)) eqn:Hbit; [|done]. exfalso.
    destruct (qi_bits gid s Hinv (gid e) ltac:(lia) Hbit) as (i & e0 & Hsp & Hi & Hdn & Hg).
    destruct (qi_dense gid s Hinv i Hi) as (e1 & Hdn1 & Hr & _). 
    rewrite Hdn in Hdn1. injection Hdn1 as <-. lia.
  - pose proof (slot_test (QueryEntitySet.bottom s) (gid e) ltac:(lia)) as Ht.
    unfold JS.truthy in Ht. rewrite <- Ht.
    destruct (_ =? 0); done.
Qed.

Lemma QES_has_iff s e :
  QES_inv gid s ->
  (QueryEntitySet.has gid s e = true <->
   exists i, 0 <= i < QueryEntitySet._cursor s /\ QueryEntitySet._dense s !! i = Some e).
Proof.
  intros Hinv. rewrite QES_has_eq by done. rewrite andb_true_iff, bool_decide_eq_true.
  pose proof (Hgid e) as He. split.
  - intros [Hbit Hst].
    destruct (qi_bits gid s Hinv (gid e) ltac:(lia) Hbit) as (i & e0 & Hsp & Hi & Hdn & Hg).
    exists i. split; [done|]. unfold QueryEntitySet.stored in Hst. rewrite Hsp in Hst.
    exact Hst.
  - intros (i & Hi & Hdn).
    destruct (qi_dense gid s Hinv i Hi) as (e1 & Hdn1 & Hr & Hbit & Hsp).
    rewrite Hdn in Hdn1. injection Hdn1 as <-.
    split; [done|]. unfold QueryEntitySet.stored. rewrite Hsp. exact Hdn.
Qed.

Lemma QES_slot_of s i e :
  QES_inv gid s -> 0 <= i < QueryEntitySet._cursor s ->
  QueryEntitySet._dense s !! i = Some e ->
  0 <= gid e < QueryEntitySet.capacity s
  /\ bit_at (QueryEntitySet.bottom s) (gid e) = true
  /\ QueryEntitySet._sparse s !! gid e = Some i.
Proof.
  intros Hinv Hi Hdn. destruct (qi_dense gid s Hinv i Hi) as (e1 & Hdn1 & H).
  rewrite Hdn in Hdn1. by injection Hdn1 as <-.
Qed.

Lemma QES_new_inv cap : 1 <= cap <= 2 ^ 31 -> QES_inv gid (QueryEntitySet.new cap).
Proof.
  intros Hcap. constructor.
  - by apply QES_new_wf.
  - simpl. lia.
  - simpl. intros i Hi. lia.
  - unfold QueryEntitySet.new. cbn [QueryEntitySet.bottom]. intros k _.
    by rewrite bit_at_zeros.
Qed.

Lemma QES_new_has cap e : QueryEntitySet.has gid (QueryEntitySet.new cap) e = false.
Proof.
  unfold QueryEntitySet.has, QueryEntitySet.new.
  cbn [QueryEntitySet.bottom QueryEntitySet.capacity].
  destruct (gid e >=? cap); [done|]. by rewrite num_get_zeros, and_0_l.
Qed.

Lemma QES_grow_inv s key :
  QES_inv gid s -> QueryEntitySet.capacity s <= key < 2 ^ 30 ->
  exists s',
    QueryEntitySet.grow s (key + 1) = Some s' /\ QES_inv gid s'
    /\ key < QueryEntitySet.capacity s'
    /\ QueryEntitySet._cursor s' = QueryEntitySet._cursor s
    /\ QueryEntitySet._dense s' = QueryEntitySet._dense s.
Proof.
  intros Hinv Hkey.
  destruct (QES_grow_spec s key (qi_wf gid s Hinv) Hkey)
    as (s' & Hgrow & Hwf' & (j & _ & _ & Hfit & _) & Hmono & [n Hbot] & Hdn & Hsp & Hcur).
  exists s'. split; [done|]. split; [|split; [lia|done]].
  constructor.
  - done.
  - rewrite Hcur. apply Hinv.
  - rewrite Hcur, Hdn, Hsp, Hbot. intros i Hi.
    destruct (qi_dense gid s Hinv i Hi) as (e & ? & ? & ? & ?).
    exists e. rewrite bit_at_app_zeros. split_and!; try done; lia.
  - rewrite Hcur, Hdn, Hsp, Hbot. intros k Hk. rewrite bit_at_app_zeros.
    apply (qi_bits gid s Hinv k Hk).
Qed.

Lemma QES_add_fit_inv s e :
  QES_inv gid s -> gid e < QueryEntitySet.capacity s ->
  exists s',
    QueryEntitySet.add gid s e = Some s' /\ QES_inv gid s'
    /\ QueryEntitySet.capacity s' = QueryEntitySet.capacity s
    /\ QueryEntitySet._cursor s'
       = QueryEntitySet._cursor s
         + (if bit_at (QueryEntitySet.bottom s) (gid e) then 0 else 1)
    /\ (forall e', QueryEntitySet.has gid s' e' = true <->
          e' = e \/ (QueryEntitySet.has gid s e' = true /\ gid e' <> gid e)).
Proof.
  intros Hinv Hlt. pose proof (Hgid e) as He.
  pose proof (qi_wf gid s Hinv) as Hwf. pose proof (qi_cursor gid s Hinv) as Hcur.
  destruct (QES_slot_bounds s (gid e) Hwf ltac:(lia)) as [_ Hidx].
  unfold QueryEntitySet.add.
  destruct (Z.geb_spec (gid e) (QueryEntitySet.capacity s)); [lia|].
  cbn [mbind option_bind]. rewrite slot_test by lia. rewrite ushr5, and31 by lia.
  destruct (bit_at (QueryEntitySet.bottom s) (gid e)) eqn:Hbit.
  - destruct (qi_bits gid s Hinv (gid e) ltac:(lia) Hbit) as (i & e0 & Hsp & Hi & Hdn & Hg).
    rewrite Hsp. cbn [mbind option_bind]. case_bool_decide as Hsame.
    + exists s. split; [done|]. split; [done|]. split; [done|]. split; [lia|].
      intros e'. split.
      * intros Hhas. destruct (Z.eq_dec (gid e') (gid e)) as [Heq|Hne]; [left|right; done].
        apply QES_has_iff in Hhas as (j & Hj & Hdj); [|done].
        destruct (QES_slot_of s j e' Hinv Hj Hdj) as (_ & _ & Hsj).
        rewrite Heq, Hsp in Hsj. injection Hsj as <-. congruence.
      * intros [->|[Hhas _]]; [|done]. apply QES_has_iff; [done|]. by exists i.
    + set (s' := {| QueryEntitySet.bottom := QueryEntitySet.bottom s;
                    QueryEntitySet.capacity := QueryEntitySet.capacity s;
                    QueryEntitySet._dense := <[i := e]> (QueryEntitySet._dense s);
                    QueryEntitySet._sparse := QueryEntitySet._sparse s;
                    QueryEntitySet._cursor := QueryEntitySet._cursor s |}).
      assert (QES_inv gid s') as Hinv'.
      { constructor; cbn.
        - destruct Hwf. by constructor.
        - done.
        - intros j Hj. destruct (Z.eq_dec j i) as [->|Hne].
          + exists e. rewrite lookup_insert_eq. split_and!; (done || lia).
          + destruct (qi_dense gid s Hinv j Hj) as (ej & ? & ? & ? & ?).
            exists ej. rewrite lookup_insert_ne by done. done.
        - intros k Hk Hbk.
          destruct (qi_bits gid s Hinv k Hk Hbk) as (ik & ek & Hspk & Hik & Hdk & Hgk).
          destruct (Z.eq_dec ik i) as [->|Hne].
          + exists i, e. rewrite lookup_insert_eq.
            assert (ek = e0) as -> by congruence. split_and!; first [done | lia | congruence].
          + exists ik, ek. rewrite lookup_insert_ne by done. done. }
      exists s'. split; [done|]. split; [done|]. split; [done|]. split; [cbn; lia|].
      intros e'. rewrite (QES_has_iff s') by done. cbn. split.
      * intros (j & Hj & Hdj). destruct (Z.eq_dec j i) as [->|Hne].
        -- rewrite lookup_insert_eq in Hdj. left. congruence.
        -- rewrite lookup_insert_ne in Hdj by done. right. split.
           ++ apply QES_has_iff; [done|]. by exists j.
           ++ intros Heq. destruct (QES_slot_of s j e' Hinv Hj Hdj) as (_ & _ & Hsj).
              rewrite Heq, Hsp in Hsj. congruence.
      * intros [->|[Hhas Hne]].
        -- exists i. by rewrite lookup_insert_eq.
        -- apply QES_has_iff in Hhas as (j & Hj & Hdj); [|done].
           exists j. split; [done|]. rewrite lookup_insert_ne; [done|].
           intros <-. rewrite Hdn in Hdj. injection Hdj as <-. done.
  - set (s' := {| QueryEntitySet.bottom :=
                    JS.set32 (QueryEntitySet.bottom s) (gid e / 32)
                      (JS.or (JS.num (JS.get (QueryEntitySet.bottom s) (gid e / 32)))
                             (JS.shl 1 (gid e mod 32)));
                  QueryEntitySet.capacity := QueryEntitySet.capacity s;
                  QueryEntitySet._dense :=
                    <[QueryEntitySet._cursor s := e]> (QueryEntitySet._dense s);
                  QueryEntitySet._sparse :=
                    <[gid e := QueryEntitySet._cursor s]> (QueryEntitySet._sparse s);
                  QueryEntitySet._cursor := QueryEntitySet._cursor s + 1 |}).
    assert (forall k, 0 <= k ->
              bit_at (JS.set32 (QueryEntitySet.bottom s) (gid e / 32)
                        (JS.or (JS.num (JS.get (QueryEntitySet.bottom s) (gid e / 32)))
                               (JS.shl 1 (gid e mod 32)))) k
              = bit_at (QueryEntitySet.bottom s) k || (k =? gid e)) as Hbits
      by (intros; apply bit_at_set; lia).
    assert (QES_inv gid s') as Hinv'.
    { constructor; cbn - [bit_at].
      - destruct Hwf. constructor; cbn; [done|by rewrite length_set32|by apply Forall_set32].
      - lia.
      - intros j Hj. destruct (Z.eq_dec j (QueryEntitySet._cursor s)) as [->|Hne].
        + exists e. rewrite !lookup_insert_eq. rewrite (Hbits (gid e)) by lia.
          rewrite Z.eqb_refl, orb_true_r. split_and!; (done || lia).
        + destruct (qi_dense gid s Hinv j ltac:(lia)) as (ej & Hdj & Hrj & Hbj & Hsj).
          exists ej. rewrite lookup_insert_ne by done.
          rewrite (Hbits (gid ej)) by lia. rewrite Hbj.
          rewrite lookup_insert_ne by congruence. done.
      - intros k Hk. rewrite (Hbits k Hk). intros Hor.
        destruct (Z.eqb_spec k (gid e)) as [->|Hne].
        + exists (QueryEntitySet._cursor s), e. rewrite !lookup_insert_eq.
          split_and!; (done || lia).
        + rewrite orb_false_r in Hor.
          destruct (qi_bits gid s Hinv k Hk Hor) as (ik & ek & Hspk & Hik & Hdk & Hgk).
          exists ik, ek. rewrite !lookup_insert_ne by (done || lia).
          split_and!; (done || lia). }
    exists s'. split; [done|]. split; [done|]. split; [done|]. split; [cbn; lia|].
    intros e'. rewrite (QES_has_iff s') by done. cbn. split.
    + intros (j & Hj & Hdj). destruct (Z.eq_dec j (QueryEntitySet._cursor s)) as [->|Hne].
      * rewrite lookup_insert_eq in Hdj. left. congruence.
      * rewrite lookup_insert_ne in Hdj by done. right.
        destruct (QES_slot_of s j e' Hinv ltac:(lia) Hdj) as (_ & Hbj & _).
        split; [|congruence]. apply QES_has_iff; [done|]. exists j. split; [lia|done].
    + intros [->|[Hhas Hne]].
      * exists (QueryEntitySet._cursor s). rewrite lookup_insert_eq. split; [lia|done].
      * apply QES_has_iff in Hhas as (j & Hj & Hdj); [|done].
        exists j. split; [lia|]. rewrite lookup_insert_ne by lia. done.
Qed.

Lemma QES_remove_absent s e :
  QueryEntitySet.has gid s e = false -> QueryEntitySet.remove gid s e = Some s.
Proof.
  unfold QueryEntitySet.has, QueryEntitySet.remove, JS.truthy.
  destruct (gid e >=? QueryEntitySet.capacity s); [done|].
  destruct (_ =? 0); [done|]. cbn [negb].
  intros ->. done.
Qed.

Lemma QES_remove_inv s e :
  QES_inv gid s ->
  exists s',
    QueryEntitySet.remove gid s e = Some s' /\ QES_inv gid s'
    /\ QueryEntitySet.capacity s' = QueryEntitySet.capacity s
    /\ QueryEntitySet._cursor s'
       = QueryEntitySet._cursor s - (if QueryEntitySet.has gid s e then 1 else 0)
    /\ (forall e', QueryEntitySet.has gid s' e' = true <->
          QueryEntitySet.has gid s e' = true /\ e' <> e).
Proof.
  intros Hinv. pose proof (Hgid e) as He.
  pose proof (qi_wf gid s Hinv) as Hwf. pose proof (qi_cursor gid s Hinv) as Hcur.
  destruct (QueryEntitySet.has gid s e) eqn:Hhas.
  2:{ exists s. rewrite QES_remove_absent by done. split_and!; try done; [lia|].
      intros e'. split; [|by intros [? _]]. intros H'. split; [done|]. congruence. }
  pose proof Hhas as Hmem. rewrite QES_has_eq in Hmem by done.
  apply andb_true_iff in Hmem as [Hbit Hst]. apply bool_decide_eq_true in Hst.
  destruct (qi_bits gid s Hinv (gid e) ltac:(lia) Hbit) as (i & e0 & Hsp & Hi & Hdn & Hg).
  assert (e0 = e) as ->.
  { unfold QueryEntitySet.stored in Hst. rewrite Hsp in Hst. cbn in Hst. congruence. }
  destruct (QES_slot_of s i e Hinv Hi Hdn) as (Hr & _ & _).
  destruct (QES_slot_bounds s (gid e) Hwf ltac:(lia)) as [_ Hidx].
  assert (forall k, 0 <= k ->
            bit_at (JS.set32 (QueryEntitySet.bottom s) (gid e / 32)
                      (JS.and (JS.num (JS.get (QueryEntitySet.bottom s) (gid e / 32)))
                              (JS.not (JS.shl 1 (gid e mod 32))))) k
            = bit_at (QueryEntitySet.bottom s) k && negb (k =? gid e)) as Hbits
    by (intros; apply bit_at_clear; lia).
  assert (forall j ej, 0 <= j < QueryEntitySet._cursor s ->
            QueryEntitySet._dense s !! j = Some ej -> j <> i -> gid ej <> gid e) as Hother.
  { intros j ej Hj Hdj Hne Heq. destruct (QES_slot_of s j ej Hinv Hj Hdj) as (_ & _ & Hsj).
    rewrite Heq, Hsp in Hsj. congruence. }
  unfold QueryEntitySet.remove.
  destruct (Z.geb_spec (gid e) (QueryEntitySet.capacity s)); [lia|].
  rewrite slot_test by lia. rewrite Hbit. cbn [negb].
  rewrite (bool_decide_eq_true_2 _ Hst). cbn [negb].
  rewrite ushr5, and31 by lia. rewrite Hsp. cbn [mbind option_bind].
  case_bool_decide as Hlast.
  - destruct (qi_dense gid s Hinv (QueryEntitySet._cursor s - 1) ltac:(lia))
      as (es & Hds & Hrs & Hbs & Hss).
    rewrite Hds. cbn [mbind option_bind].
    assert (gid es <> gid e) as Hes by (eapply (Hother (QueryEntitySet._cursor s - 1)); [lia|done|lia]).
    match goal with |- exists s', Some ?t = Some s' /\ _ => set (s' := t) end.
    assert (QES_inv gid s') as Hinv'.
    { constructor; cbn - [bit_at].
      - destruct Hwf. constructor; cbn; [done|by rewrite length_set32|by apply Forall_set32].
      - lia.
      - intros j Hj. destruct (Z.eq_dec j i) as [->|Hne].
        + exists es. rewrite !lookup_insert_eq. rewrite (Hbits (gid es)) by lia.
          rewrite Hbs. destruct (Z.eqb_spec (gid es) (gid e)); [done|].
          split_and!; (done || lia).
        + destruct (qi_dense gid s Hinv j ltac:(lia)) as (ej & Hdj & Hrj & Hbj & Hsj).
          exists ej. rewrite lookup_insert_ne by done.
          rewrite (Hbits (gid ej)) by lia. rewrite Hbj.
          assert (gid ej <> gid e) by (eapply (Hother j); [lia|done|done]).
          destruct (Z.eqb_spec (gid ej) (gid e)); [done|].
          rewrite lookup_insert_ne; [split_and!; (done || lia)|].
          intros Heq. rewrite <- Heq, Hss in Hsj. injection Hsj as ?. lia.
      - intros k Hk. rewrite (Hbits k Hk). intros Hand.
        apply andb_true_iff in Hand as [Hbk Hne]. apply negb_true_iff, Z.eqb_neq in Hne.
        destruct (qi_bits gid s Hinv k Hk Hbk) as (ik & ek & Hspk & Hik & Hdk & Hgk).
        destruct (Z.eq_dec k (gid es)) as [->|Hks].
        + exists i, es. rewrite !lookup_insert_eq. split_and!; (done || lia).
        + assert (ik <> QueryEntitySet._cursor s - 1) as Hnl.
          { intros ->. rewrite Hds in Hdk. injection Hdk as <-. done. }
          assert (ik <> i) as Hni.
          { intros ->. rewrite Hdn in Hdk. injection Hdk as <-. done. }
          exists ik, ek. rewrite !lookup_insert_ne by done.
          split_and!; (done || lia). }
    exists s'. split; [done|]. split; [done|]. split; [done|]. split; [cbn; lia|].
    intros e'. rewrite (QES_has_iff s'), (QES_has_iff s) by done. cbn. split.
    + intros (j & Hj & Hdj). destruct (Z.eq_dec j i) as [->|Hne].
      * rewrite lookup_insert_eq in Hdj. injection Hdj as <-.
        split; [|congruence]. exists (QueryEntitySet._cursor s - 1). split; [lia|done].
      * rewrite lookup_insert_ne in Hdj by done. split; [exists j; split; [lia|done]|].
        intros ->. apply (Hother j e); (done || lia).
    + intros [(j & Hj & Hdj) Hne].
      destruct (Z.eq_dec j (QueryEntitySet._cursor s - 1)) as [->|Hnl].
      * exists i. rewrite lookup_insert_eq. split; [lia|congruence].
      * exists j. split; [lia|]. rewrite lookup_insert_ne; [done|].
        intros <-. congruence.
  - 
    match goal with |- exists s', Some ?t = Some s' /\ _ => set (s' := t) end.
    assert (QES_inv gid s') as Hinv'.
    { constructor; cbn - [bit_at].
      - destruct Hwf. constructor; cbn; [done|by rewrite length_set32|by apply Forall_set32].
      - lia.
      - intros j Hj.
        destruct (qi_dense gid s Hinv j ltac:(lia)) as (ej & Hdj & Hrj & Hbj & Hsj).
        exists ej. rewrite (Hbits (gid ej)) by lia. rewrite Hbj.
        assert (gid ej <> gid e) by (eapply (Hother j); [lia|done|lia]).
        destruct (Z.eqb_spec (gid ej) (gid e)); [done|].
        split_and!; (done || lia).
      - intros k Hk. rewrite (Hbits k Hk). intros Hand.
        apply andb_true_iff in Hand as [Hbk Hne]. apply negb_true_iff, Z.eqb_neq in Hne.
        destruct (qi_bits gid s Hinv k Hk Hbk) as (ik & ek & Hspk & Hik & Hdk & Hgk).
        assert (ik <> i) as Hni.
        { intros ->. rewrite Hdn in Hdk. injection Hdk as <-. done. }
        exists ik, ek. split_and!; (done || lia). }
    exists s'. split; [done|]. split; [done|]. split; [done|]. split; [cbn; lia|].
    intros e'. rewrite (QES_has_iff s'), (QES_has_iff s) by done. cbn. split.
    + intros (j & Hj & Hdj). split; [exists j; split; [lia|done]|].
      intros ->. apply (Hother j e); (done || lia).
    + intros [(j & Hj & Hdj) Hne]. exists j. split; [|done].
      assert (j <> i) by (intros ->; congruence). lia.
Qed.

Lemma QES_add_inv s e :
  QES_inv gid s ->
  exists s',
    QueryEntitySet.add gid s e = Some s' /\ QES_inv gid s'
    /\ QueryEntitySet.capacity s <= QueryEntitySet.capacity s'
    /\ QueryEntitySet._cursor s'
       = QueryEntitySet._cursor s
         + (if bit_at (QueryEntitySet.bottom s) (gid e) then 0 else 1)
    /\ (forall e', QueryEntitySet.has gid s' e' = true <->
          e' = e \/ (QueryEntitySet.has gid s e' = true /\ gid e' <> gid e)).
Proof.
  intros Hinv. pose proof (Hgid e) as He.
  destruct (Z.lt_ge_cases (gid e) (QueryEntitySet.capacity s)) as [Hlt|Hge].
  - destruct (QES_add_fit_inv s e Hinv Hlt) as (s' & ? & ? & ? & ? & ?).
    exists s'. split_and!; (done || lia).
  - destruct (QES_grow_inv s (gid e) Hinv ltac:(lia)) as (s0 & Hgrow & Hinv0 & Hfit & Hcur & Hdn).
    destruct (QES_add_fit_inv s0 e Hinv0 Hfit) as (s' & Hadd & Hinv' & Hcap & Hc & Hhas).
    assert (QueryEntitySet.capacity s <= QueryEntitySet.capacity s0) as Hmono.
    { destruct (QES_grow_spec s (gid e) (qi_wf gid s Hinv) ltac:(lia)) as (s1 & Hg1 & _ & _ & ? & _).
      rewrite Hgrow in Hg1. by injection Hg1 as <-. }
    assert (forall k, bit_at (QueryEntitySet.bottom s0) k = bit_at (QueryEntitySet.bottom s) k)
      as Hbits.
    { destruct (QES_grow_spec s (gid e) (qi_wf gid s Hinv) ltac:(lia))
        as (s1 & Hg1 & _ & _ & _ & [n Hb] & _).
      rewrite Hgrow in Hg1. injection Hg1 as <-. intros k. by rewrite Hb, bit_at_app_zeros. }
    assert (forall e', QueryEntitySet.has gid s0 e' = true <-> QueryEntitySet.has gid s e' = true)
      as Hsame.
    { intros e'. rewrite !QES_has_iff by done. by rewrite Hcur, Hdn. }
    exists s'. rewrite (QES_add_after_grow gid s s0 e) by (done || lia).
    split; [done|]. split; [done|]. split; [lia|]. split.
    + rewrite Hc, Hcur, Hbits. done.
    + intros e'. rewrite Hhas, Hsame. done.
Qed.

Lemma bit_at_zero_word b w k :
  bit_at (JS.set32 b w 0) k = bit_at b k && negb (k / 32 =? w).
Proof.
  unfold bit_at. destruct (Z.eq_dec w (k / 32)) as [Heq|Hne].
  - subst w. rewrite Z.eqb_refl, andb_false_r.
    destruct (Z.lt_ge_cases (k / 32) 0) as [Hneg|Hpos].
    { unfold JS.get. destruct (Z.ltb_spec (k / 32) 0); [|lia]. apply Z.bits_0. }
    destruct (Z.lt_ge_cases (k / 32) (Z.of_nat (length b))) as [Hin|Hout].
    + rewrite get_set32_eq by lia. apply Z.bits_0.
    + rewrite get_ge by (rewrite length_set32; lia). apply Z.bits_0.
  - rewrite get_set32_ne by done. destruct (Z.eqb_spec (k / 32) w); [congruence|].
    by rewrite andb_true_r.
Qed.

Lemma QES_clear_fold (dn : gmap Z Z) : forall idxs b,
  (forall i, i ∈ idxs -> is_Some (dn !! i)) ->
  exists b',
    foldl (fun acc i => b ← acc; e ← dn !! i; Some (JS.set32 b (JS.ushr (gid e) 5) 0))
          (Some b) idxs = Some b'
    /\ length b' = length b
    /\ (Forall uint32 b -> Forall uint32 b')
    /\ (forall k, bit_at b' k = true -> bit_at b k = true)
    /\ (forall i e k, i ∈ idxs -> dn !! i = Some e -> k / 32 = gid e / 32 -> bit_at b' k = false).
Proof.
  induction idxs as [|i idxs IH]; intros b Hdef.
  - exists b. split_and!; try done. intros i e k Hin. by apply elem_of_nil in Hin.
  - destruct (Hdef i) as [e He]; [left|].
    cbn [foldl mbind option_bind]. rewrite He. cbn [mbind option_bind].
    pose proof (Hgid e) as Hr. rewrite ushr5 by lia.
    destruct (IH (JS.set32 b (gid e / 32) 0)) as (b' & Hfold & Hlen & Hrange & Hmono & Hzero).
    { intros j Hj. apply Hdef. by right. }
    exists b'. split; [done|]. split; [by rewrite Hlen, length_set32|].
    split; [intros; by apply Hrange, Forall_set32|]. split.
    + intros k Hk. apply Hmono in Hk. rewrite bit_at_zero_word in Hk.
      by apply andb_true_iff in Hk as [? _].
    + intros j ej k Hj Hdj Hk. apply elem_of_cons in Hj as [->|Hj].
      * rewrite He in Hdj. injection Hdj as <-.
        destruct (bit_at b' k) eqn:E; [|done]. apply Hmono in E.
        rewrite bit_at_zero_word, Hk, Z.eqb_refl, andb_false_r in E. done.
      * by eapply Hzero.
Qed.

Lemma QES_clear_inv s :
  QES_inv gid s ->
  exists s',
    QueryEntitySet.clear gid s = Some s' /\ QES_inv gid s'
    /\ QueryEntitySet.capacity s' = QueryEntitySet.capacity s
    /\ QueryEntitySet._cursor s' = 0
    /\ (forall k, 0 <= k -> bit_at (QueryEntitySet.bottom s') k = false).
Proof.
  intros Hinv. pose proof (qi_wf gid s Hinv) as Hwf.
  destruct (QES_clear_fold (QueryEntitySet._dense s) (seqZ 0 (QueryEntitySet._cursor s))
              (QueryEntitySet.bottom s)) as (b' & Hfold & Hlen & Hrange & Hmono & Hzero).
  { intros i Hi. apply elem_of_seqZ in Hi.
    destruct (qi_dense gid s Hinv i ltac:(lia)) as (e & -> & _). done. }
  unfold QueryEntitySet.clear. rewrite Hfold. cbn [mbind option_bind].
  assert (forall k, 0 <= k -> bit_at b' k = false) as Hnone.
  { intros k Hk. destruct (bit_at b' k) eqn:E; [|done].
    pose proof (Hmono k E) as Hb.
    destruct (qi_bits gid s Hinv k Hk Hb) as (i & e & _ & Hi & Hdn & Hg).
    rewrite (Hzero i e k) in E; [done| |done|by rewrite Hg].
    apply elem_of_seqZ. lia. }
  eexists. split; [done|]. split; [|split; [done|split; [done|exact Hnone]]].
  constructor; cbn - [bit_at].
  - destruct Hwf. constructor; cbn; [done|by rewrite Hlen|by apply Hrange].
  - lia.
  - intros i Hi. lia.
  - intros k Hk Hbit. rewrite Hnone in Hbit by done. done.
Qed.


Lemma QES_members s :
  QES_inv gid s ->
  exists l,
    (forall i, 0 <= i < QueryEntitySet._cursor s ->
       exists e, l !! Z.to_nat i = Some e /\ QueryEntitySet._dense s !! i = Some e)
    /\ Z.of_nat (length l) = QueryEntitySet._cursor s
    /\ NoDup l
    /\ NoDup (gid <$> l)
    /\ (forall e, e ∈ l <-> QueryEntitySet.has gid s e = true)
    /\ (fun i => QueryEntitySet._dense s !! i) <$> seqZ 0 (QueryEntitySet._cursor s)
       = Some <$> l.
Proof.
  intros Hinv. pose proof (qi_cursor gid s Hinv) as Hcur.
  set (f := fun i => default 0 (QueryEntitySet._dense s !! i)).
  exists (f <$> seqZ 0 (QueryEntitySet._cursor s)).
  assert (forall i, 0 <= i < QueryEntitySet._cursor s ->
            QueryEntitySet._dense s !! i = Some (f i)) as Hf.
  { intros i Hi. unfold f. destruct (qi_dense gid s Hinv i Hi) as (e & -> & _). done. }
  assert (forall i j, i ∈ seqZ 0 (QueryEntitySet._cursor s) ->
            j ∈ seqZ 0 (QueryEntitySet._cursor s) -> gid (f i) = gid (f j) -> i = j) as Hinj.
  { intros i j Hi Hj Heq. apply elem_of_seqZ in Hi, Hj.
    destruct (QES_slot_of s i (f i) Hinv ltac:(lia) (Hf i ltac:(lia))) as (_ & _ & Hsi).
    destruct (QES_slot_of s j (f j) Hinv ltac:(lia) (Hf j ltac:(lia))) as (_ & _ & Hsj).
    rewrite Heq, Hsj in Hsi. congruence. }
  split_and!.
  - intros i Hi. exists (f i). split; [|by apply Hf].
    rewrite list_lookup_fmap, lookup_seqZ_lt by lia. cbn. f_equal. f_equal. lia.
  - rewrite length_fmap, length_seqZ. lia.
  - apply NoDup_fmap_2_strong; [|apply NoDup_seqZ].
    intros i j Hi Hj Heq. apply Hinj; [done|done|by rewrite Heq].
  - rewrite <- list_fmap_compose. apply NoDup_fmap_2_strong; [|apply NoDup_seqZ].
    intros i j Hi Hj Heq. by apply Hinj.
  - intros e. rewrite QES_has_iff by done. rewrite list_elem_of_fmap. split.
    + intros (i & -> & Hi). apply elem_of_seqZ in Hi. exists i. split; [lia|]. apply Hf. lia.
    + intros (i & Hi & Hd). exists i. split; [|apply elem_of_seqZ; lia].
      rewrite Hf in Hd by done. congruence.
  - rewrite <- list_fmap_compose. apply list_fmap_ext. intros n i Hn.
    apply lookup_seqZ in Hn as [-> Hn]. cbn. apply Hf. lia.
Qed.

Lemma QES_size_le_capacity s :
  QES_inv gid s -> QueryEntitySet._cursor s <= QueryEntitySet.capacity s.
Proof.
  intros Hinv. destruct (QES_members s Hinv) as (l & Hat & Hlen & _ & Hnd & Hmem & _).
  pose proof (qi_wf gid s Hinv) as Hwf. pose proof (qwf_cap s Hwf) as Hcap.
  assert (gid <$> l ⊆+ seqZ 0 (QueryEntitySet.capacity s)) as Hsub.
  { apply NoDup_submseteq; [done|]. intros k Hk.
    apply list_elem_of_fmap in Hk as (e & -> & He). apply Hmem in He.
    apply QES_has_iff in He as (i & Hi & Hd); [|done].
    destruct (QES_slot_of s i e Hinv Hi Hd) as (Hr & _). apply elem_of_seqZ. lia. }
  apply submseteq_length in Hsub. rewrite length_fmap, length_seqZ in Hsub. lia.
Qed.

Lemma qrun_inv ops : forall s,
  QES_inv gid s -> exists s', qrun gid s ops = Some s' /\ QES_inv gid s'.
Proof.
  unfold qrun. induction ops as [|o ops IH]; intros s Hinv; [by exists s|].
  cbn [foldl mbind option_bind].
  assert (exists s1, qstep gid s o = Some s1 /\ QES_inv gid s1) as (s1 & -> & Hinv1).
  { destruct o as [e|e|]; cbn [qstep].
    - destruct (QES_add_inv s e Hinv) as (s1 & ? & ? & _). by exists s1.
    - destruct (QES_remove_inv s e Hinv) as (s1 & ? & ? & _). by exists s1.
    - destruct (QES_clear_inv s Hinv) as (s1 & ? & ? & _). by exists s1. }
  by apply IH.
Qed.

(** X11: from [new] with a capacity in [1, 2^31], every sequence of [add],
    [remove] and [clear] calls returns (no slot is read as undefined), and
    the set it reaches keeps its three layers consistent and has
    [0 <= size <= capacity]. Entity ids are taken below 2^30. *)
Theorem QueryEntitySet_reachable cap ops :
  1 <= cap <= 2 ^ 31 ->
  exists s, qrun gid (QueryEntitySet.new cap) ops = Some s
            /\ QES_inv gid s
            /\ 0 <= QueryEntitySet.size s <= QueryEntitySet.capacity s.
Proof.
  intros Hcap. destruct (qrun_inv ops _ (QES_new_inv cap Hcap)) as (s & Hrun & Hinv).
  exists s. split; [done|]. split; [done|]. unfold QueryEntitySet.size.
  split; [apply Hinv|by apply QES_size_le_capacity].
Qed.

(** X12: [add] on a consistent QueryEntitySet returns a consistent set
    whose members are the handle added and the former members with another
    entity id. The size is unchanged when a member with that entity id was
    present (the new handle takes its slot), and one more otherwise. *)
Theorem QueryEntitySet_add_membership s e :
  QES_inv gid s ->
  exists s',
    QueryEntitySet.add gid s e = Some s'
    /\ QES_inv gid s'
    /\ (forall e', QueryEntitySet.has gid s' e' = true <->
          e' = e \/ (QueryEntitySet.has gid s e' = true /\ gid e' <> gid e))
    /\ ((exists e0, QueryEntitySet.has gid s e0 = true /\ gid e0 = gid e) ->
        QueryEntitySet.size s' = QueryEntitySet.size s)
    /\ ((forall e0, QueryEntitySet.has gid s e0 = true -> gid e0 <> gid e) ->
        QueryEntitySet.size s' = QueryEntitySet.size s + 1).
Proof.
  intros Hinv. destruct (QES_add_inv s e Hinv) as (s' & Hadd & Hinv' & _ & Hcur & Hhas).
  exists s'. split; [done|]. split; [done|]. split; [done|].
  unfold QueryEntitySet.size. pose proof (Hgid e) as He. split.
  - intros (e0 & H0 & Hg). rewrite QES_has_eq in H0 by done.
    apply andb_true_iff in H0 as [Hbit _]. rewrite Hg in Hbit. rewrite Hcur, Hbit. lia.
  - intros Hnone. destruct (bit_at (QueryEntitySet.bottom s) (gid e)) eqn:Hbit; [|lia].
    exfalso. destruct (qi_bits gid s Hinv (gid e) ltac:(lia) Hbit) as (i & e0 & _ & Hi & Hd & Hg).
    apply (Hnone e0); [|done]. apply QES_has_iff; [done|]. by exists i.
Qed.




End QES.

Lemma entity_id_mask_range e : 0 <= Z.land e 1048575 < 2 ^ 30.
Proof.
  change 1048575 with (Z.ones 20). rewrite Z.land_ones by lia.
  pose proof (Z.mod_pos_bound e (2 ^ 20)). lia.
Qed.

Lemma QueryEntitySet_reachable_witness :
  exists s, qrun (fun e => Z.land e 1048575) (QueryEntitySet.new 64)
                 [QAdd 5; QAdd 1048581; QAdd 9; QRemove 1048581; QClear; QAdd 9] = Some s
            /\ QES_inv (fun e => Z.land e 1048575) s
            /\ 0 <= QueryEntitySet.size s <= QueryEntitySet.capacity s.
Proof.
  apply (QueryEntitySet_reachable (fun e => Z.land e 1048575) entity_id_mask_range 64). lia.
Defined.

Lemma QueryEntitySet_add_membership_witness :
  exists s',
    QueryEntitySet.add (fun e => Z.land e 1048575) (QueryEntitySet.new 64) 1048581 = Some s'
    /\ QueryEntitySet.has (fun e => Z.land e 1048575) s' 1048581 = true
    /\ QueryEntitySet.has (fun e => Z.land e 1048575) s' 5 = false
    /\ QueryEntitySet.size s' = 1.
Proof.
  destruct (QueryEntitySet_add_membership (fun e => Z.land e 1048575) entity_id_mask_range
              (QueryEntitySet.new 64) 1048581
              (QES_new_inv _ 64 ltac:(lia)))
    as (s' & Hadd & _ & Hhas & _ & Hsize).
  exists s'. split; [exact Hadd|]. split; [apply Hhas; by left|]. split.
  - destruct (QueryEntitySet.has _ s' 5) eqn:E; [|done].
    apply Hhas in E as [E|[E _]]; [done|]. by rewrite QES_new_has in E.
  - rewrite Hsize; [done|]. intros e0 E. by rewrite QES_new_has in E.
Defined.




(** ** Query matching *)

Lemma check_loop_local w w' q eid gens : forall i,
  (forall g, g ∈ gens -> mask_word w g eid = mask_word w' g eid) ->
  Query.check_loop w q eid gens i = Query.check_loop w' q eid gens i.
Proof.
  induction gens as [|g gens IH]; intros i Hsame; [done|].
  cbn [Query.check_loop]. destruct (Query.bitmaskAt q i) as [b|].
  - rewrite !bank_tests_passes, (Hsame g) by left.
    rewrite IH by (intros; apply Hsame; by right). done.
  - apply IH. intros; apply Hsame; by right.
Qed.

Lemma checkQuery_local getEntityId w w' q e :
  (forall g, g ∈ Query.generations q ->
     mask_word w g (getEntityId e) = mask_word w' g (getEntityId e)) ->
  Query.checkQuery getEntityId w q e = Query.checkQuery getEntityId w' q e.
Proof.
  intros Hsame. unfold Query.checkQuery.
  destruct (length (Query.traitInstances_all q) =? 0)%nat; [done|].
  destruct (Query.generations q) as [|g [|g' gens]] eqn:Hg.
  - done.
  - destruct (Query.bitmaskAt q 0); [|done].
    rewrite !bank_tests_passes, (Hsame g) by left. done.
  - f_equal. by apply check_loop_local.
Qed.

(** X16: [checkQuery] depends on the world only through the mask words of
    the entity's own id in the query's generations: two worlds that agree on
    those words give the same result (also the same failure). *)
Theorem checkQuery_reads_only_own_words getEntityId w w' q e :
  (forall g, g ∈ Query.generations q ->
     mask_word w g (getEntityId e) = mask_word w' g (getEntityId e)) ->
  Query.checkQuery getEntityId w q e = Query.checkQuery getEntityId w' q e.
Proof. apply checkQuery_local. Qed.

Lemma checkQuery_reads_only_own_words_witness :
  let q := Query.mkQuery [Some (Query.mkBitmask 1 0 0); Some (Query.mkBitmask 2 0 0)]
                         [0; 1] [10; 11] in
  Query.checkQuery (fun e => Z.land e 1048575) (mkWorld ∅ [] ∅ None [[1; 0]; [2; 7]; [9]]) q 0
  = Query.checkQuery (fun e => Z.land e 1048575) (mkWorld ∅ [] ∅ None [[1; 5]; [2]]) q 0.
Proof.
  apply checkQuery_reads_only_own_words. intros g Hg.
  cbn in Hg. apply elem_of_cons in Hg as [->|Hg]; [reflexivity|].
  apply elem_of_cons in Hg as [->|Hg]; [reflexivity|]. by apply elem_of_nil in Hg.
Defined.

(** X17: [checkQueryWithRelations] returns true exactly when [checkQuery]
    returns true, the query has relation filters and the entity has a pair
    for every one of them. It returns false as soon as [checkQuery] does,
    without looking at the filters; with an empty filter list it is
    [checkQuery]; and with no filter list on a matching entity it raises a
    TypeError. *)
Theorem checkQueryWithRelations_spec getEntityId (RelationFilter : Type)
    (hasRelationPair : World -> Z -> RelationFilter -> bool) w q relationFilters e :
  (Query.checkQueryWithRelations getEntityId RelationFilter hasRelationPair w q relationFilters e
   = Query.Returns true
   <-> Query.checkQuery getEntityId w q e = Query.Returns true
       /\ exists filters, relationFilters = Some filters
            /\ forall filter, filter ∈ filters -> hasRelationPair w e filter = true)
  /\ (Query.checkQuery getEntityId w q e = Query.Returns false ->
      Query.checkQueryWithRelations getEntityId RelationFilter hasRelationPair w q relationFilters e
      = Query.Returns false)
  /\ (Query.checkQueryWithRelations getEntityId RelationFilter hasRelationPair w q (Some []) e
      = Query.checkQuery getEntityId w q e)
  /\ (Query.checkQuery getEntityId w q e = Query.Returns true ->
      Query.checkQueryWithRelations getEntityId RelationFilter hasRelationPair w q None e
      = Query.TypeError).
Proof.
  assert (Hloop : forall filters,
            Query.filters_loop RelationFilter hasRelationPair w e filters = true
            <-> forall filter, filter ∈ filters -> hasRelationPair w e filter = true).
  { induction filters as [|f filters IH]; cbn [Query.filters_loop].
    - split; [|done]. intros _ f Hf. by apply elem_of_nil in Hf.
    - destruct (hasRelationPair w e f) eqn:Hf; cbn [negb].
      + rewrite IH. split.
        * intros H f' Hin. apply elem_of_cons in Hin as [->|Hin]; [done|by apply H].
        * intros H f' Hin. apply H. by right.
      + split; [done|]. intros H. rewrite H in Hf by left. done. }
  unfold Query.checkQueryWithRelations. split_and!.
  - destruct (Query.checkQuery getEntityId w q e) as [[|]|]; try (split; [done|by intros [? _]]).
    destruct relationFilters as [filters|].
    + split.
      * intros [= H]. split; [done|]. exists filters. split; [done|]. by apply Hloop.
      * intros (_ & filters' & [= <-] & H). f_equal. by apply Hloop.
    + split; [done|]. by intros (_ & ? & ? & _).
  - by intros ->.
  - by destruct (Query.checkQuery getEntityId w q e) as [[|]|].
  - by intros ->.
Qed.

Lemma checkQueryWithRelations_spec_witness :
  let gid := fun e => Z.land e 1048575 in
  let w := mkWorld ∅ [mkRelation destroy_source [(0, 1)]] ∅ None [[3]] in
  let q := Query.mkQuery [Some (Query.mkBitmask 3 4 0)] [0] [10; 11] in
  let hasPair := fun (w : World) (e : Z) (f : nat * Z) =>
                   match relations w !! f.1 with
                   | Some r => bool_decide ((e, f.2) ∈ pairs r)
                   | None => false
                   end in
  Query.checkQueryWithRelations gid (nat * Z) hasPair w q (Some [(0%nat, 1)]) 0
  = Query.Returns true
  /\ Query.checkQueryWithRelations gid (nat * Z) hasPair w q (Some [(0%nat, 1); (0%nat, 2)]) 0
     = Query.Returns false
  /\ Query.checkQueryWithRelations gid (nat * Z) hasPair w q None 0 = Query.TypeError.
Proof.
  intros gid w q hasPair.
  pose proof (checkQueryWithRelations_spec gid (nat * Z) hasPair w q None 0) as (_ & _ & _ & H).
  split; [by vm_compute|]. split; [by vm_compute|]. apply H. by vm_compute.
Defined.

(** ** Entity destruction *)

Lemma unlinked_refl c r : unlinked c r r.
Proof. split; [done|]. split; [done|]. intros p ?. by left. Qed.

Lemma unlinked_trans c r1 r2 r3 : unlinked c r1 r2 -> unlinked c r2 r3 -> unlinked c r1 r3.
Proof.
  intros (Hp1 & Hs1 & Hk1) (Hp2 & Hs2 & Hk2). split; [congruence|]. split.
  - intros p Hp. by apply Hs2, Hs1.
  - intros p Hp. destruct (Hk2 p Hp) as [H2|?]; [|by right]. by apply Hk1.
Qed.

Lemma unlinked_all_refl c rs : Forall2 (unlinked c) rs rs.
Proof. apply Forall_Forall2_diag, Forall_forall. intros r _. apply unlinked_refl. Qed.

Lemma unlinked_all_trans c rs1 rs2 rs3 :
  Forall2 (unlinked c) rs1 rs2 -> Forall2 (unlinked c) rs2 rs3 -> Forall2 (unlinked c) rs1 rs3.
Proof.
  intros H12. revert rs3. induction H12 as [|r1 r2 rs1 rs2 H _ IH]; intros rs3 H23.
  - by inversion H23.
  - inversion H23 as [|? r3 ? rs3' H' H23']; subst. constructor; [by eapply unlinked_trans|by apply IH].
Qed.

Lemma tracks_refl c st : tracks c st st.
Proof.
  do 4 (split; [done|]). split; [apply unlinked_all_refl|].
  exists []. split; [done|]. by intros x ?%elem_of_nil.
Qed.

Lemma destroys_tracks c st0 st x : tracks c st0 st -> destroys st.1 c x -> destroys st0.1 c x.
Proof.
  intros (Ha & _ & _ & _ & Hrel & _) (Hx & ri & r & Hr & Hcase).
  destruct (Forall2_lookup_l _ _ _ _ _ Hrel Hr) as (r0 & Hr0 & Hpol & Hsub & _).
  split; [by rewrite <- Ha|]. exists ri, r0. split; [done|].
  destruct Hcase as [[? ?]|[? ?]]; [left|right]; (split; [congruence|by apply Hsub]).
Qed.

Lemma tracks_trans c st0 st1 st2 : tracks c st0 st1 -> tracks c st1 st2 -> tracks c st0 st2.
Proof.
  intros H01 H12.
  pose proof H01 as (Ha1 & Ht1 & Hq1 & Hm1 & Hr1 & p1 & Hp1 & Hd1).
  destruct H12 as (Ha2 & Ht2 & Hq2 & Hm2 & Hr2 & p2 & Hp2 & Hd2).
  split; [congruence|]. split; [congruence|]. split; [congruence|]. split; [congruence|].
  split; [by eapply unlinked_all_trans|].
  exists (p2 ++ p1). split; [by rewrite Hp2, Hp1, app_assoc|].
  intros x Hx. apply elem_of_app in Hx as [Hx|Hx]; [|by apply Hd1].
  eapply destroys_tracks; [exact H01|]. by apply Hd2.
Qed.

Lemma sources_loop_tracks relation ri c r0 sources st0 : forall st,
  tracks c st0 st -> relations st0.1 !! ri = Some r0 ->
  autoDestroy relation = autoDestroy r0 ->
  (forall s, s ∈ sources -> (s, c) ∈ pairs r0) ->
  tracks c st0 (foldl (source_step relation ri c) st sources).
Proof.
  induction sources as [|s sources IH]; intros st Htr Hr0 Hpol Hsrc; [done|].
  cbn [foldl]. apply IH; [|done|done|intros; apply Hsrc; by right].
  unfold source_step. destruct (world_has st.1 s) eqn:Hhas; [|done].
  apply world_has_true in Hhas.
  destruct Htr as (Ha & Ht & Hq & Hm & Hrel & p & Hp & Hd).
  do 4 (split; [done|]). split.
  - cbn. apply Forall2_alter_l; [done|].
    intros x y _ _ Hxy. eapply unlinked_trans; [|exact Hxy].
    split; [done|]. cbn. split.
    + intros p' Hp'. by apply list_elem_of_filter in Hp' as [_ ?].
    + intros p' Hp'. destruct (decide (p' = (s, c))) as [->|Hne]; [by right|].
      left. by apply list_elem_of_filter.
  - cbn. destruct (autoDestroy relation) eqn:Hpl; try by exists p.
    exists (s :: p). split; [by rewrite Hp|].
    intros x Hx. apply elem_of_cons in Hx as [->|Hx]; [|by apply Hd].
    split; [by rewrite <- Ha|]. exists ri, r0. split; [done|]. left.
    split; [congruence|]. apply Hsrc. by left.
Qed.

Lemma relation_step_tracks c processed st0 st ri :
  tracks c st0 st -> tracks c st0 (relation_step c processed st ri).
Proof.
  intros Htr. unfold relation_step.
  destruct (relations st.1 !! ri) as [r|] eqn:Hr; [|done].
  pose proof Htr as (_ & _ & _ & _ & Hrel & _).
  destruct (Forall2_lookup_l _ _ _ _ _ Hrel Hr) as (r0 & Hr0 & Hpol & Hsub & _).
  assert (tracks c st0 (foldl (source_step r ri c) st (getEntitiesWithRelationTo st.1 ri c)))
    as Hsrc.
  { apply (sources_loop_tracks r ri c r0); [done|done|done|].
    intros s Hs. unfold getEntitiesWithRelationTo in Hs. rewrite Hr in Hs.
    apply list_elem_of_fmap in Hs as ([s' t'] & -> & Hin).
    apply list_elem_of_filter in Hin as [Heq Hin]. cbn in *. subst t'. by apply Hsub. }
  set (st1 := foldl (source_step r ri c) st (getEntitiesWithRelationTo st.1 ri c)) in *.
  destruct (autoDestroy r) eqn:Hp; try done.
  destruct Hsrc as (Ha & Ht & Hq & Hm & Hrel1 & p & Hp1 & Hd).
  do 4 (split; [done|]). split; [done|]. cbn [fst snd].
  destruct (targets_loop_grows st1.1 processed (getRelationTargets st1.1 ri c) st1.2)
    as (pushed & Hpq & _ & He).
  assert (forall t, t ∈ getRelationTargets st1.1 ri c -> (c, t) ∈ pairs r0) as Htg.
  { intros t Hin. unfold getRelationTargets in Hin.
    destruct (relations st1.1 !! ri) as [r1|] eqn:Hr1; [|by apply elem_of_nil in Hin].
    apply list_elem_of_fmap in Hin as ([s' t'] & -> & Hin).
    apply list_elem_of_filter in Hin as [Heq Hin]. cbn in *. subst s'.
    destruct (Forall2_lookup_l _ _ _ _ _ Hrel1 Hr1) as (r0' & Hr0' & _ & Hsub1 & _).
    rewrite Hr0 in Hr0'. injection Hr0' as <-. by apply Hsub1. }
  assert (exists pushed', foldl (target_step st1.1 processed) st1.2 (getRelationTargets st1.1 ri c)
                          = pushed' ++ st1.2
                          /\ forall x, x ∈ pushed' -> x ∈ entityIndex st1.1
                                                    /\ x ∈ getRelationTargets st1.1 ri c)
    as (pushed' & Hpq' & He').
  { clear. generalize (getRelationTargets st1.1 ri c) as targets. generalize st1.2 as queue.
    intros queue targets. revert queue.
    induction targets as [|t targets IH]; intros queue; cbn [foldl].
    - exists []. split; [done|]. by intros x ?%elem_of_nil.
    - destruct (IH (target_step st1.1 processed queue t)) as (p' & Hq' & H').
      unfold target_step in *.
      destruct (world_has st1.1 t && negb (bool_decide (t ∈ processed))) eqn:Hc.
      + exists (p' ++ [t]). split; [by rewrite Hq', <- app_assoc|].
        intros x Hx. apply elem_of_app in Hx as [Hx|Hx].
        * destruct (H' x Hx). split; [done|by right].
        * apply list_elem_of_singleton in Hx as ->.
          apply andb_true_iff in Hc as [H1 _]. split; [by apply world_has_true|by left].
      + exists p'. split; [done|]. intros x Hx. destruct (H' x Hx). split; [done|by right]. }
  exists (pushed' ++ p). split; [by rewrite Hpq', Hp1, app_assoc|].
  intros x Hx. apply elem_of_app in Hx as [Hx|Hx]; [|by apply Hd].
  destruct (He' x Hx) as [Hal Hin]. split; [by rewrite <- Ha|].
  exists ri, r0. split; [done|]. right. split; [congruence|by apply Htg].
Qed.

Lemma relations_loop_tracks c processed idxs st0 : forall st,
  tracks c st0 st -> tracks c st0 (foldl (relation_step c processed) st idxs).
Proof.
  induction idxs as [|ri idxs IH]; intros st Htr; [done|].
  cbn [foldl]. apply IH. by apply relation_step_tracks.
Qed.

Lemma targets_loop_pushes w processed targets t : forall queue,
  t ∈ targets -> t ∈ entityIndex w -> t ∉ processed ->
  t ∈ foldl (target_step w processed) queue targets.
Proof.
  induction targets as [|t0 targets IH]; intros queue Hin Hal Hnp; [by apply elem_of_nil in Hin|].
  cbn [foldl]. apply elem_of_cons in Hin as [<-|Hin]; [|by apply IH].
  destruct (targets_loop_grows w processed targets (target_step w processed queue t))
    as (pushed & -> & _). apply elem_of_app. right.
  unfold target_step. apply world_has_true in Hal. rewrite Hal.
  rewrite (bool_decide_eq_false_2 (t ∈ processed)) by done. left.
Qed.

Lemma relations_loop_pushes_target c processed w q n ri r x :
  (ri < n)%nat -> relations w !! ri = Some r -> autoDestroy r = destroy_target ->
  (c, x) ∈ pairs r -> x ∈ entityIndex w -> x ∉ processed -> x <> c ->
  x ∈ (foldl (relation_step c processed) (w, q) (seq 0 n)).2.
Proof.
  intros Hri Hr Hpol Hpair Halive Hnp Hne.
  replace n with (ri + S (n - S ri))%nat by lia.
  rewrite seq_app, foldl_app. cbn [seq foldl Nat.add].
  set (sta := foldl (relation_step c processed) (w, q) (seq 0 ri)).
  assert (relations sta.1 !! ri = Some r) as Hra.
  { unfold sta. rewrite relations_loop_other; [done|]. rewrite elem_of_seq. lia. }
  assert (entityIndex sta.1 = entityIndex w) as Haa
    by apply (relations_loop_grows c processed (seq 0 ri) (w, q)).
  set (stb := relation_step c processed sta ri).
  assert (x ∈ stb.2) as Hb.
  { unfold stb, relation_step. rewrite Hra, Hpol. cbn [snd].
    pose proof (sources_loop_tracks r ri c r (getEntitiesWithRelationTo sta.1 ri c) sta sta
                  (tracks_refl c sta) Hra eq_refl) as Htr.
    destruct Htr as (Ha1 & _ & _ & _ & Hrel1 & _).
    { intros s Hs. unfold getEntitiesWithRelationTo in Hs. rewrite Hra in Hs.
      apply list_elem_of_fmap in Hs as ([s' t'] & -> & Hin).
      apply list_elem_of_filter in Hin as [Heq Hin]. cbn in *. by subst t'. }
    set (st1 := foldl (source_step r ri c) sta (getEntitiesWithRelationTo sta.1 ri c)) in *.
    destruct (Forall2_lookup_r _ _ _ _ _ Hrel1 Hra) as (r1 & Hr1 & _ & _ & Hkeep).
    apply targets_loop_pushes; [|by rewrite Ha1, Haa|done].
    unfold getRelationTargets. rewrite Hr1.
    apply (list_elem_of_fmap_2' snd _ (c, x)); [|done].
    apply list_elem_of_filter. split; [done|].
    destruct (Hkeep (c, x) Hpair) as [?|Heq]; [done|]. cbn in Heq. done. }
  pose proof (relations_loop_grows c processed (seq (S ri) (n - S ri)) stb)
    as (_ & _ & p & Hq & _).
  rewrite Hq. apply elem_of_app. by right.
Qed.

Lemma cascade_invariant gid n (Inv : World -> list Z -> gset Z -> Prop) :
  (forall w c q P, Inv w (c :: q) P -> c ∈ P -> Inv w q P) ->
  (forall w c q P, Inv w (c :: q) P -> c ∉ P ->
     let st := foldl (relation_step c ({[c]} ∪ P)) (w, q) (seq 0 n) in
     Inv (release_step gid st.1 c) st.2 ({[c]} ∪ P)) ->
  forall fuel w q P w',
    Inv w q P -> cascade gid fuel n w q P = Some w' -> exists P', Inv w' [] P'.
Proof.
  intros Hskip Hstep. induction fuel as [|fuel IH]; intros w q P w' HI Hrun.
  - destruct q; [|done]. injection Hrun as <-. by exists P.
  - destruct q as [|c q]; [injection Hrun as <-; by exists P|].
    cbn [cascade] in Hrun. case_bool_decide as Hc.
    + eapply IH; [|exact Hrun]. by eapply Hskip.
    + eapply IH; [|exact Hrun]. by apply Hstep.
Qed.

Lemma destroyEntity_returns gid w e :
  e ∈ entityIndex w ->
  exists w', destroyEntity gid w e = Destroyed w'
             /\ cascade gid (cascade_fuel w) (length (relations w)) w [e] ∅ = Some w'.
Proof.
  intros He.
  destruct (cascade_spec gid (length (relations w)) (total_pairs w) (cascade_fuel w) w [e] ∅)
    as (w' & Hrun & _); [done|done| |unfold cascade_fuel; cbn [length]; lia|].
  { split; [by intros x ?%not_elem_of_empty|]. intros x ->%list_elem_of_singleton. by left. }
  exists w'. split; [|done]. unfold destroyEntity.
  apply world_has_true in He. rewrite He. cbn [negb]. by rewrite Hrun.
Qed.

Lemma destroyEntity_cascade gid w e w' :
  destroyEntity gid w e = Destroyed w' ->
  e ∈ entityIndex w
  /\ cascade gid (cascade_fuel w) (length (relations w)) w [e] ∅ = Some w'.
Proof.
  unfold destroyEntity. destruct (world_has w e) eqn:He; [|done]. cbn [negb].
  apply world_has_true in He.
  destruct (cascade _ _ _ _ _ _) eqn:Hrun; [|done]. intros [= <-]. done.
Qed.

Lemma reach_inv_skip w0 e w c q P :
  reach_inv w0 e w (c :: q) P -> c ∈ P -> reach_inv w0 e w q P.
Proof.
  intros (Ha & Hrel & Hreach & He & Hclosed) Hc.
  split; [done|]. split; [done|]. split; [|split].
  - intros x [Hx|Hx]; apply Hreach; [by left|right; by right].
  - destruct He as [?|He]; [by left|].
    apply elem_of_cons in He as [->|?]; [by left|by right].
  - intros c' x Hc' Hd. destruct (Hclosed c' x Hc' Hd) as [?|Hx]; [by left|].
    apply elem_of_cons in Hx as [->|?]; [by left|by right].
Qed.

Lemma reach_inv_step gid w0 e w c q P :
  reach_inv w0 e w (c :: q) P -> c ∉ P ->
  let st := foldl (relation_step c ({[c]} ∪ P)) (w, q) (seq 0 (length (relations w0))) in
  reach_inv w0 e (release_step gid st.1 c) st.2 ({[c]} ∪ P).
Proof.
  intros (Ha & Hrel & Hreach & He & Hclosed) Hc st.
  pose proof (relations_loop_tracks c ({[c]} ∪ P) (seq 0 (length (relations w0))) (w, q) (w, q)
                (tracks_refl c (w, q))) as Htr.
  fold st in Htr. destruct Htr as (Ha1 & _ & _ & _ & Hrel1 & pushed & Hq & Hpushed).
  cbn [fst snd] in Ha1, Hrel1, Hq, Hpushed.
  assert (length (relations w) = length (relations w0)) as Hlen by (by eapply Forall2_length).
  assert (forall x, destroys w c x -> destroys w0 c x) as Hmono.
  { intros x (Hx & ri & r & Hr & Hcase).
    destruct (Forall2_lookup_l _ _ _ _ _ Hrel Hr) as (r0 & Hr0 & Hpol & Hsub & _).
    split; [rewrite Ha in Hx; by apply elem_of_difference in Hx as [? _]|].
    exists ri, r0. split; [done|].
    destruct Hcase as [[? ?]|[? ?]]; [left|right]; (split; [congruence|by apply Hsub]). }
  assert (rtc (destroys w0) e c) as Hec by (apply Hreach; right; by left).
  split; [|split; [|split; [|split]]].
  - rewrite release_step_alive, Ha1, Ha. apply set_eq. intros x.
    rewrite !elem_of_difference, elem_of_union, elem_of_singleton. tauto.
  - rewrite release_step_relations.
    apply Forall2_same_length_lookup. split.
    { apply Forall2_length in Hrel1. congruence. }
    intros i r2 r0 Hr2 Hr0.
    destruct (Forall2_lookup_l _ _ _ _ _ Hrel1 Hr2) as (r1 & Hr1 & Hp1 & Hs1 & Hk1).
    destruct (Forall2_lookup_l _ _ _ _ _ Hrel Hr1) as (r0' & Hr0' & Hp0 & Hs0 & Hk0).
    rewrite Hr0 in Hr0'. injection Hr0' as <-.
    split; [congruence|]. split; [intros p Hp; by apply Hs0, Hs1|].
    intros p Hp. destruct (Hk0 p Hp) as [Hin|Hin].
    + destruct (Hk1 p Hin) as [?|Heq]; [by left|].
      right. rewrite Heq. by apply elem_of_union_l, elem_of_singleton.
    + right. by apply elem_of_union_r.
  - intros x [Hx|Hx].
    + apply elem_of_union in Hx as [->%elem_of_singleton|Hx]; [done|]. apply Hreach. by left.
    + rewrite Hq in Hx. apply elem_of_app in Hx as [Hx|Hx].
      * eapply rtc_r; [exact Hec|]. by apply Hmono, Hpushed.
      * apply Hreach. right. by right.
  - destruct He as [He|He]; [left; by apply elem_of_union_r|].
    apply elem_of_cons in He as [->|He]; [left; by apply elem_of_union_l, elem_of_singleton|].
    right. rewrite Hq. apply elem_of_app. by right.
  - intros c' x Hc' Hd.
    apply elem_of_union in Hc' as [->%elem_of_singleton|Hc'].
    + destruct (decide (x ∈ ({[c]} ∪ P : gset Z))) as [?|Hnew]; [by left|]. right.
      assert (x <> c) as Hxc.
      { intros ->. apply Hnew. by apply elem_of_union_l, elem_of_singleton. }
      assert (x ∉ P) as HxP by (intros ?; apply Hnew; by apply elem_of_union_r).
      destruct Hd as (Hx0 & ri & r0 & Hr0 & Hcase).
      assert (x ∈ entityIndex w) as Hxw by (rewrite Ha; by apply elem_of_difference).
      destruct (Forall2_lookup_r _ _ _ _ _ Hrel Hr0) as (r & Hr & Hpol & _ & Hkeep).
      assert (ri < length (relations w0))%nat as Hri by (by eapply lookup_lt_Some).
      destruct Hcase as [[Hp Hpair]|[Hp Hpair]].
      * apply (relations_loop_pushes c _ w q _ ri r x); [done|done|congruence| |done].
        destruct (Hkeep _ Hpair) as [?|Hin]; [done|]. cbn in Hin. done.
      * apply (relations_loop_pushes_target c _ w q _ ri r x); [done|done|congruence| |done|done|done].
        destruct (Hkeep _ Hpair) as [?|Hin]; [done|]. cbn in Hin. done.
    + destruct (Hclosed c' x Hc' Hd) as [Hx|Hx]; [left; by apply elem_of_union_r|].
      apply elem_of_cons in Hx as [->|Hx]; [left; by apply elem_of_union_l, elem_of_singleton|].
      right. rewrite Hq. apply elem_of_app. by right.
Qed.

(** X18: [destroyEntity] on an existing entity returns, and the entities
    it releases are exactly those reachable from it along auto-destroy
    links (a source of a destroyed target under policy 'source', a target of
    a destroyed source under policy 'target', transitively): an entity exists
    afterwards exactly when it existed before and is not reachable. *)
Theorem destroyEntity_destroys_reachable getEntityId w e :
  e ∈ entityIndex w ->
  exists w',
    destroyEntity getEntityId w e = Destroyed w'
    /\ forall x, x ∈ entityIndex w' <-> x ∈ entityIndex w /\ ~ rtc (destroys w) e x.
Proof.
  intros He. destruct (destroyEntity_returns getEntityId w e He) as (w' & Hd & Hrun).
  exists w'. split; [done|].
  assert (reach_inv w e w [e] ∅) as Hinit.
  { split; [|split; [|split; [|split]]].
    - apply set_eq. intros x. rewrite elem_of_difference. split; [|by intros [? _]].
      intros ?. split; [done|]. apply not_elem_of_empty.
    - apply Forall_Forall2_diag, Forall_forall. intros r _.
      split; [done|]. split; [done|]. intros p ?. by left.
    - intros x [Hx|Hx]; [by apply not_elem_of_empty in Hx|].
      apply list_elem_of_singleton in Hx as ->. done.
    - right. by left.
    - intros c x Hc. by apply not_elem_of_empty in Hc. }
  destruct (cascade_invariant getEntityId (length (relations w)) (reach_inv w e)
              (reach_inv_skip w e) (reach_inv_step getEntityId w e) _ _ _ _ _
              Hinit Hrun) as (P' & Ha & _ & Hreach & HeP & Hclosed).
  assert (forall x, rtc (destroys w) e x -> x ∈ P') as Hall.
  { apply (rtc_ind_r (fun x => x ∈ P')).
    - destruct HeP as [?|Hnil]; [done|by apply elem_of_nil in Hnil].
    - intros b c _ Hbc IH.
      destruct (Hclosed b c IH Hbc) as [?|Hnil]; [done|by apply elem_of_nil in Hnil]. }
  intros x. rewrite Ha, elem_of_difference. split.
  - intros [Hx HnP]. split; [done|]. intros Hr. by apply HnP, Hall.
  - intros [Hx Hnr]. split; [done|]. intros HP. apply Hnr, Hreach. by left.
Qed.

Lemma removeTraits_state w c traits :
  allQuery (foldl (fun w trait => removeTrait w c trait) w traits) = allQuery w
  /\ entityMasks (foldl (fun w trait => removeTrait w c trait) w traits) = entityMasks w
  /\ forall d, d <> c ->
       entityTraits (foldl (fun w trait => removeTrait w c trait) w traits) !! d
       = entityTraits w !! d.
Proof.
  revert w. induction traits as [|t traits IH]; intros w; cbn [foldl]; [done|].
  destruct (IH (removeTrait w c t)) as (-> & -> & Ht). split; [done|]. split; [done|].
  intros d Hd. rewrite Ht by done. cbn. by apply lookup_alter_ne.
Qed.

Lemma num_get_set32_zero row i j :
  JS.num (JS.get (JS.set32 row i 0) j) = if j =? i then 0 else JS.num (JS.get row j).
Proof.
  destruct (Z.eqb_spec j i) as [->|Hne].
  - destruct (Z.lt_ge_cases i 0) as [Hneg|Hpos].
    { unfold JS.get. destruct (Z.ltb_spec i 0); [done|lia]. }
    destruct (Z.lt_ge_cases i (Z.of_nat (length row))) as [Hin|Hout].
    + rewrite get_set32_eq by lia. done.
    + rewrite get_ge by (rewrite length_set32; lia). done.
  - rewrite get_set32_ne by done. done.
Qed.

Lemma release_step_state gid w c :
  (forall d, entityTraits (release_step gid w c) !! d
             = if decide (d = c) then None else entityTraits w !! d)
  /\ allQuery (release_step gid w c) = (fun members => members ∖ {[c]}) <$> allQuery w
  /\ (forall g eid, mask_word (release_step gid w c) g eid
                    = if eid =? gid c then 0 else mask_word w g eid).
Proof.
  unfold release_step. cbn [entityTraits allQuery entityMasks releaseEntity].
  set (w1 := match entityTraits w !! c with
             | Some traitsArr => foldl (fun w trait => removeTrait w c trait) w traitsArr
             | None => w
             end).
  assert (allQuery w1 = allQuery w /\ entityMasks w1 = entityMasks w
          /\ forall d, d <> c -> entityTraits w1 !! d = entityTraits w !! d) as (Hq & Hm & Ht).
  { unfold w1. destruct (entityTraits w !! c); [apply removeTraits_state|done]. }
  split; [|split].
  - intros d. destruct (decide (d = c)) as [->|Hne].
    + apply lookup_delete_eq.
    + rewrite lookup_delete_ne by done. by apply Ht.
  - by rewrite Hq.
  - intros g eid. unfold mask_word. cbn [entityMasks]. rewrite Hm.
    unfold JS.get at 1 3. destruct (g <? 0); [by destruct (eid =? gid c)|].
    rewrite list_lookup_fmap. destruct (entityMasks w !! Z.to_nat g) as [row|]; cbn.
    + apply num_get_set32_zero.
    + by destruct (eid =? gid c).
Qed.

Lemma cleared_inv_skip gid w0 w c q P :
  cleared_inv gid w0 w (c :: q) P -> c ∈ P -> cleared_inv gid w0 w q P.
Proof.
  intros (Ha & Hlive & Hq & Ht & Hkeep & Hall & Hz & Hm) Hc.
  split; [done|]. split; [|split; [|done]].
  - intros d [?|?]; apply Hlive; [by left|right; by right].
  - intros d Hd. apply Hq. by right.
Qed.

Lemma cleared_inv_step gid n w0 w c q P :
  cleared_inv gid w0 w (c :: q) P -> c ∉ P ->
  let st := foldl (relation_step c ({[c]} ∪ P)) (w, q) (seq 0 n) in
  cleared_inv gid w0 (release_step gid st.1 c) st.2 ({[c]} ∪ P).
Proof.
  intros (Ha & Hlive & Hq & Ht & Hkeep & Hall & Hz & Hm) Hc st.
  pose proof (relations_loop_tracks c ({[c]} ∪ P) (seq 0 n) (w, q) (w, q)
                (tracks_refl c (w, q))) as Htr.
  fold st in Htr. destruct Htr as (Ha1 & Ht1 & Hq1 & Hm1 & _ & pushed & Hp & Hpushed).
  cbn [fst snd] in Ha1, Ht1, Hq1, Hm1, Hp, Hpushed.
  destruct (release_step_state gid st.1 c) as (Rt & Rq & Rm).
  assert (forall g eid, mask_word st.1 g eid = mask_word w g eid) as Hmw
    by (intros; unfold mask_word; by rewrite Hm1).
  split; [|split; [|split; [|split; [|split; [|split; [|split]]]]]].
  - rewrite release_step_alive, Ha1, Ha. apply set_eq. intros x.
    rewrite !elem_of_difference, elem_of_union, elem_of_singleton. tauto.
  - intros d [Hd|Hd].
    + apply elem_of_union in Hd as [->%elem_of_singleton|Hd];
        apply Hlive; [right; by left|by left].
    + rewrite Hp in Hd. apply elem_of_app in Hd as [Hd|Hd].
      * destruct (Hpushed d Hd) as [Hin _]. rewrite Ha in Hin.
        by apply elem_of_difference in Hin as [? _].
      * apply Hlive. right. by right.
  - intros d Hd. rewrite release_step_alive, Ha1.
    destruct (decide (d = c)) as [->|Hne]; [right; by apply elem_of_union_l, elem_of_singleton|].
    rewrite Hp in Hd. apply elem_of_app in Hd as [Hd|Hd].
    + left. destruct (Hpushed d Hd) as [Hin _]. by apply elem_of_remove.
    + destruct (Hq d ltac:(by right)) as [?|?];
        [left; by apply elem_of_remove|right; by apply elem_of_union_r].
  - intros d Hd. rewrite Rt. destruct (decide (d = c)); [done|]. rewrite Ht1.
    apply Ht. apply elem_of_union in Hd as [Hd%elem_of_singleton|Hd]; done.
  - intros d Hd. rewrite Rt.
    destruct (decide (d = c)) as [->|Hne];
      [exfalso; apply Hd; by apply elem_of_union_l, elem_of_singleton|].
    rewrite Ht1. apply Hkeep. intros ?. apply Hd. by apply elem_of_union_r.
  - rewrite Rq, Hq1, Hall. destruct (allQuery w0) as [m|]; cbn; [|done].
    f_equal. apply set_eq. intros x.
    rewrite !elem_of_difference, elem_of_union, elem_of_singleton. tauto.
  - intros g d Hd. rewrite Rm, Hmw. destruct (Z.eqb_spec (gid d) (gid c)); [done|].
    apply Hz. apply elem_of_union in Hd as [Hd%elem_of_singleton|Hd]; [congruence|done].
  - intros g eid Hd. rewrite Rm, Hmw. destruct (Z.eqb_spec eid (gid c)) as [->|Hne].
    + exfalso. apply (Hd c); [by apply elem_of_union_l, elem_of_singleton|done].
    + apply Hm. intros d HdP. apply Hd. by apply elem_of_union_r.
Qed.

Lemma destroy_state gid w e w' :
  destroyEntity gid w e = Destroyed w' ->
  exists P : gset Z,
    entityIndex w' = entityIndex w ∖ P
    /\ (forall d, d ∈ P <-> d ∈ entityIndex w /\ d ∉ entityIndex w')
    /\ (forall d, d ∈ P -> entityTraits w' !! d = None)
    /\ (forall d, d ∉ P -> entityTraits w' !! d = entityTraits w !! d)
    /\ allQuery w' = (fun members => members ∖ P) <$> allQuery w
    /\ (forall g d, d ∈ P -> mask_word w' g (gid d) = 0)
    /\ (forall g eid, (forall d, d ∈ P -> gid d <> eid) -> mask_word w' g eid = mask_word w g eid).
Proof.
  intros Hd. apply destroyEntity_cascade in Hd as [He Hrun].
  assert (cleared_inv gid w w [e] ∅) as Hinit.
  { split; [|split; [|split; [|split; [|split; [|split; [|split]]]]]].
    - apply set_eq. intros x. rewrite elem_of_difference. split; [|by intros [? _]].
      intros ?. split; [done|]. apply not_elem_of_empty.
    - intros d [Hx|Hx]; [by apply not_elem_of_empty in Hx|].
      by apply list_elem_of_singleton in Hx as ->.
    - intros d Hx. apply list_elem_of_singleton in Hx as ->. by left.
    - intros d Hx. by apply not_elem_of_empty in Hx.
    - done.
    - destruct (allQuery w) as [m|]; cbn; [|done]. f_equal. apply set_eq. intros x.
      rewrite elem_of_difference. split; [|by intros [? _]].
      intros ?. split; [done|]. apply not_elem_of_empty.
    - intros g d Hx. by apply not_elem_of_empty in Hx.
    - done. }
  destruct (cascade_invariant gid (length (relations w)) (cleared_inv gid w)
              (cleared_inv_skip gid w) (cleared_inv_step gid (length (relations w)) w)
              _ _ _ _ _ Hinit Hrun)
    as (P & Ha & Hlive & _ & Ht & Hkeep & Hall & Hz & Hm).
  exists P. split; [done|]. split; [|done].
  intros d. rewrite Ha, elem_of_difference. split.
  - intros HdP. split; [apply Hlive; by left|]. intros [_ ?]. done.
  - intros [Hdw Hnot]. destruct (decide (d ∈ P)); [done|]. exfalso. by apply Hnot.
Qed.

Lemma destroyEntity_destroys_reachable_witness :
  let gid := fun e => Z.land e 1048575 in
  let w := mkWorld {[1; 2; 3; 4; 5]}
                   [mkRelation destroy_source [(2, 1); (3, 2)];
                    mkRelation destroy_target [(3, 4)];
                    mkRelation destroy_none [(5, 1)]]
                   ∅ None [] in
  (exists w', destroyEntity gid w 1 = Destroyed w' /\ entityIndex w' = {[5]})
  /\ exists w', destroyEntity gid w 1 = Destroyed w'
       /\ forall x, x ∈ entityIndex w' <-> x ∈ entityIndex w /\ ~ rtc (destroys w) 1 x.
Proof.
  intros gid w.
  destruct (destroyEntity_destroys_reachable gid w 1 ltac:(by vm_compute)) as (w' & Hd & Hiff).
  split; exists w'; (split; [exact Hd|]); [|exact Hiff].
  vm_compute in Hd. injection Hd as <-. by vm_compute.
Defined.




(** X21: after [destroyEntity] returns, [checkQuery] on a released entity
    returns false for every query with a bitmask, in one of its generations,
    that requires a trait or has an 'or' group. *)
Theorem destroyed_entity_matches_no_required getEntityId w e w' d q i g b :
  destroyEntity getEntityId w e = Destroyed w' ->
  d ∈ entityIndex w -> d ∉ entityIndex w' ->
  Query.generations q !! i = Some g -> Query.bitmaskAt q i = Some b ->
  Query.required b <> 0 \/ Query.or b <> 0 ->
  Query.checkQuery getEntityId w' q d = Query.Returns false.
Proof.
  intros Hd Hin Hout Hg Hb Hreq.
  destruct (destroy_state getEntityId w e w' Hd) as (P & _ & HP & _ & _ & _ & Hz & _).
  assert (d ∈ P) as HdP by (by apply HP).
  assert (passes b (mask_word w' g (getEntityId d)) = false) as Hfail.
  { rewrite Hz by done. unfold passes. rewrite !and_0_l.
    destruct Hreq as [Hr|Ho].
    - destruct (Z.eqb_spec 0 (Query.required b)); [congruence|]. by rewrite andb_false_r.
    - destruct (Z.eqb_spec (Query.or b) 0); [done|]. by rewrite andb_false_r. }
  unfold Query.checkQuery.
  destruct (length (Query.traitInstances_all q) =? 0)%nat; [done|].
  destruct (Query.generations q) as [|g0 [|g1 gens]] eqn:Hgens.
  - done.
  - destruct i as [|i]; [|done]. injection Hg as ->.
    rewrite Hb, bank_tests_passes, Hfail. done.
  - f_equal. destruct (Query.check_loop w' q (getEntityId d) (g0 :: g1 :: gens) 0) eqn:E; [|done].
    pose proof (proj1 (check_loop_spec _ _ _ _ _) E i g Hg) as E'. cbn in E'. rewrite Hb in E'.
    destruct E' as [_ E']. congruence.
Qed.



Lemma destroyed_entity_matches_no_required_witness :
  let gid := fun e => Z.land e 1048575 in
  let w := mkWorld {[1; 2; 3]} [mkRelation destroy_source [(2, 1)]]
                   {[1 := [5]; 2 := [5; 6]; 3 := [6]]} (Some {[1; 2; 3]})
                   [[0; 1; 3; 1]] in
  let q := Query.mkQuery [Some (Query.mkBitmask 1 0 0)] [0] [10] in
  exists w',
    destroyEntity gid w 1 = Destroyed w'
    /\ Query.checkQuery gid w q 2 = Query.Returns true
    /\ Query.checkQuery gid w' q 2 = Query.Returns false.
Proof.
  intros gid w q.
  destruct (destroyEntity gid w 1) as [w'| |] eqn:Hd;
    [|by vm_compute in Hd|by vm_compute in Hd].
  exists w'. split; [done|]. split; [by vm_compute|].
  apply (destroyed_entity_matches_no_required gid w 1 w' 2 q 0%nat 0 (Query.mkBitmask 1 0 0) Hd);
    [by vm_compute| |done|done|left; done].
  vm_compute in Hd. injection Hd as <-. by vm_compute.
Defined.

(** ** Composition *)

(** X22: on well-formed BitSets, [bitSetAnd a b] and [bitSetAndNot a b]
    split the keys [forEach a] visits: both return, no key is visited by
    both, together they visit the keys of [a] (a permutation of them), and
    their lengths add up to that of [forEach a]. *)
Theorem bitSetAnd_bitSetAndNot_partition a b :
  BitSet_wf a -> BitSet_wf b ->
  exists la l1 l2,
    BitSet.forEach a = Some la /\ bitSetAnd a b = Some l1 /\ bitSetAndNot a b = Some l2
    /\ la ≡ₚ l1 ++ l2
    /\ (forall k, k ∈ l1 -> k ∉ l2)
    /\ length la = (length l1 + length l2)%nat.
Proof.
  intros Wa Wb.
  destruct (forEach_visits a Wa) as (la & Hla & Hsa & Hma).
  destruct (bitSetAnd_visits a b Wa Wb) as (l1 & Hl1 & Hs1 & Hm1).
  destruct (bitSetAndNot_visits a b Wa Wb) as (l2 & Hl2 & Hs2 & Hm2).
  exists la, l1, l2. do 3 (split; [done|]).
  assert (forall k, k ∈ l1 -> k ∉ l2) as Hdisj.
  { intros k H1 H2. apply Hm1 in H1 as (_ & _ & Hb1). apply Hm2 in H2 as (_ & _ & Hb2).
    congruence. }
  assert (la ≡ₚ l1 ++ l2) as Hperm.
  { apply NoDup_Permutation.
    - by apply sorted_NoDup.
    - apply NoDup_app. split; [by apply sorted_NoDup|]. split; [done|by apply sorted_NoDup].
    - intros k. rewrite elem_of_app, Hma, Hm1, Hm2.
      destruct (BitSet.has b k); split; intros H; try tauto;
        destruct H as [[? [? ?]]|[? [? ?]]]; done. }
  split; [done|]. split; [done|]. by rewrite Hperm, length_app.
Qed.

Lemma bitSetAnd_bitSetAndNot_partition_witness :
  exists a b,
    collect 1024 [1; 5; 1025; 2000] = Some a /\ collect 32 [5; 31] = Some b
    /\ BitSet.forEach a = Some [1; 5; 1025; 2000]
    /\ exists la l1 l2,
         BitSet.forEach a = Some la /\ bitSetAnd a b = Some l1 /\ bitSetAndNot a b = Some l2
         /\ la ≡ₚ l1 ++ l2
         /\ (forall k, k ∈ l1 -> k ∉ l2)
         /\ length la = (length l1 + length l2)%nat.
Proof.
  destruct (collect_wf 1024 [1; 5; 1025; 2000]) as (a & Ha & Hwa);
    [lia | repeat constructor; lia |].
  destruct (collect_wf 32 [5; 31]) as (b & Hb & Hwb); [lia | repeat constructor; lia |].
  exists a, b. split; [done|]. split; [done|].
  vm_compute in Ha, Hb. injection Ha as <-. injection Hb as <-.
  split; [by vm_compute|]. apply (bitSetAnd_bitSetAndNot_partition _ _ Hwa Hwb).
Defined.

(** X23: [bitSetAndMany] does not depend on the order of its sets nor on
    repetitions among them: two non-empty lists of well-formed BitSets with
    the same elements visit the same keys in the same order. *)
Theorem bitSetAndMany_same_sets sets sets' :
  sets <> [] -> Forall BitSet_wf sets -> (forall s, s ∈ sets <-> s ∈ sets') ->
  exists l, bitSetAndMany sets = Some l /\ bitSetAndMany sets' = Some l.
Proof.
  intros Hne Hwf Hsame.
  assert (sets' <> []) as Hne'.
  { destruct sets as [|s0 sets]; [done|]. intros ->.
    destruct (Hsame s0) as [H _]. specialize (H ltac:(left)). by apply elem_of_nil in H. }
  assert (Forall BitSet_wf sets') as Hwf'.
  { apply Forall_forall. intros s Hs. apply Hsame in Hs.
    rewrite Forall_forall in Hwf. by apply Hwf. }
  destruct (bitSetAndMany_visits sets Hne Hwf) as (l & Hl & Hv).
  destruct (bitSetAndMany_visits sets' Hne' Hwf') as (l' & Hl' & Hv').
  exists l. split; [done|]. rewrite Hl'. f_equal.
  apply (visits_unique _ _ _ _ Hv' Hv). intros k _. split.
  - intros H s Hs. apply H. by apply Hsame.
  - intros H s Hs. apply H. by apply Hsame.
Qed.

Lemma bitSetAndMany_same_sets_witness :
  exists a b c,
    collect 1024 [1; 5; 1025] = Some a /\ collect 1024 [5; 1025; 2000] = Some b
    /\ collect 1024 [5; 1025] = Some c
    /\ exists l, bitSetAndMany [a; b; c] = Some l /\ bitSetAndMany [c; a; b; a] = Some l.
Proof.
  destruct (collect_wf 1024 [1; 5; 1025]) as (a & Ha & Hwa); [lia | repeat constructor; lia |].
  destruct (collect_wf 1024 [5; 1025; 2000]) as (b & Hb & Hwb); [lia | repeat constructor; lia |].
  destruct (collect_wf 1024 [5; 1025]) as (c & Hc & Hwc); [lia | repeat constructor; lia |].
  exists a, b, c. do 3 (split; [done|]).
  apply bitSetAndMany_same_sets; [done| |].
  - apply Forall_cons_2; [done|]. apply Forall_cons_2; [done|]. apply Forall_cons_2; [done|].
    apply Forall_nil_2.
  - intros s. rewrite !elem_of_cons, !elem_of_nil. tauto.
Defined.

(** X24: growing the mask table with [ensureEntityMaskSize] changes no
    mask word that can be read (the new words are zero, as reads past the
    end are), so [checkQuery] gives the same result for every query and
    entity before and after. *)
Theorem mask_growth_keeps_matches getEntityId w generationId eid masks' q e :
  ensureEntityMaskSize (entityMasks w) generationId eid = Some masks' ->
  let w' := mkWorld (entityIndex w) (relations w) (entityTraits w) (allQuery w) masks' in
  (forall g i, mask_word w' g i = mask_word w g i)
  /\ Query.checkQuery getEntityId w' q e = Query.checkQuery getEntityId w q e.
Proof.
  intros Hgrow w'.
  assert (forall g i, mask_word w' g i = mask_word w g i) as Hsame.
  { intros g i. unfold mask_word, w'. cbn [entityMasks].
    unfold ensureEntityMaskSize in Hgrow.
    destruct (JS.get (entityMasks w) generationId) as [arr|] eqn:Harr; [|done].
    cbn [mbind option_bind] in Hgrow.
    destruct (eid <? Z.of_nat (length arr)); [by injection Hgrow as <-|].
    destruct (double_while _ _ _) as [newLen|]; [|done].
    cbn [mbind option_bind] in Hgrow. unfold JS.alloc_copy in Hgrow.
    destruct (Z.of_nat (length arr) <=? newLen); [|done].
    cbn [mbind option_bind] in Hgrow. injection Hgrow as <-.
    apply get_Some_lt in Harr as Hg.
    destruct (Z.eq_dec g generationId) as [->|Hne].
    - assert (JS.get (<[Z.to_nat generationId := arr ++ replicate (Z.to_nat newLen - length arr) 0]>
                        (entityMasks w)) generationId
              = Some (arr ++ replicate (Z.to_nat newLen - length arr) 0)) as ->.
      { unfold JS.get. destruct (Z.ltb_spec generationId 0); [lia|].
        apply list_lookup_insert_eq. lia. }
      rewrite Harr. apply num_get_app_zeros.
    - assert (JS.get (<[Z.to_nat generationId := arr ++ replicate (Z.to_nat newLen - length arr) 0]>
                        (entityMasks w)) g = JS.get (entityMasks w) g) as ->; [|done].
      unfold JS.get. destruct (Z.ltb_spec g 0); [done|].
      apply list_lookup_insert_ne. lia. }
  split; [done|]. apply checkQuery_local. intros g _. apply Hsame.
Qed.

Lemma mask_growth_keeps_matches_witness :
  let gid := fun e => Z.land e 1048575 in
  let w := mkWorld ∅ [] ∅ None [[1; 2]; [3]] in
  let q := Query.mkQuery [Some (Query.mkBitmask 1 0 0); Some (Query.mkBitmask 2 0 0)]
                         [0; 1] [10; 11] in
  ensureEntityMaskSize (entityMasks w) 1 5 = Some [[1; 2]; [3; 0; 0; 0; 0; 0; 0; 0]]
  /\ Query.checkQuery gid (mkWorld ∅ [] ∅ None [[1; 2]; [3; 0; 0; 0; 0; 0; 0; 0]]) q 0
     = Query.checkQuery gid w q 0.
Proof.
  intros gid w q.
  assert (H : ensureEntityMaskSize (entityMasks w) 1 5 = Some [[1; 2]; [3; 0; 0; 0; 0; 0; 0; 0]])
    by reflexivity.
  split; [exact H|].
  exact (proj2 (mask_growth_keeps_matches gid w 1 5 _ q 0 H)).
Defined.
